(** * NVIDIA-GPU-Monitor: collector normalisation, process ranking and the
    aggregator's registry, embedded from [main.go].

    The repository holds two [main.go] programs: the collector/aggregator
    (types [GPUInfo], [NodeStatus], [Aggregator]) and the single-host
    variant whose [gpuInfoHandler] ranks the processes of every device.
    Both are embedded here:

    - [GoStrings], [Strconv]: the parts of Go's [strings] and [strconv]
      packages the programs call, on byte strings and IEEE binary64;
    - [Collector]: [parseMemoryValue], [parsePowerValue] and the
      conversion loop of [getGPUInfoFromNvidiaSmi];
    - [Ranking]: the sort-and-truncate loop of the variant's
      [gpuInfoHandler];
    - [Registry]: the registry of [*NodeStatus] records, the writers
      [updateNodeStatus]/[updateNodeError] and the reader [nodesHandler];
    - [Poller]: the polling loop [pollNodes] as a step relation;
    - [Facade]: the reader [nodeHandler];
    - [Startup]: [parsePort] and the choice of the port in
      [runAggregator] and [runServer];
    - [Server]: the GPU server's [gpuInfoHandler], [healthHandler] and
      [getHostname];
    - [Owner]: the variant's [getUsernameFromPid];
    - [Unlocked]: the two readers as they run after [RUnlock], reading
      records while the writers assign field by field.

    The vocabulary of the statements follows, then the properties. *)

From Stdlib Require Import ZArith String Ascii List Bool Lia SpecFloat DecimalString.
From stdpp Require Import base option list sorting gmap strings.

Local Open Scope Z_scope.

(** ** Go's [strings] package on byte strings *)

Module GoStrings.

(** A Go string is a sequence of bytes; [bytes] gives their codes. *)
Definition code (c : ascii) : Z := Z.of_N (N_of_ascii c).

Fixpoint bytes (s : string) : list Z :=
  match s with
  | EmptyString => []
  | String c s' => code c :: bytes s'
  end.

Fixpoint of_bytes (l : list Z) : string :=
  match l with
  | [] => EmptyString
  | b :: l' => String (ascii_of_N (Z.to_N b)) (of_bytes l')
  end.

(** [len(s) >= len(suffix) && s[len(s)-len(suffix):] == suffix] *)
Definition HasSuffix (s suffix : string) : bool :=
  (String.length suffix <=? String.length s)%nat
  && String.eqb
       (substring (String.length s - String.length suffix)
                  (String.length suffix) s)
       suffix.

(** [if HasSuffix(s, suffix) { return s[:len(s)-len(suffix)] }; return s] *)
Definition TrimSuffix (s suffix : string) : string :=
  if HasSuffix s suffix
  then substring 0 (String.length s - String.length suffix) s
  else s.

Fixpoint HasPrefix (s prefix : string) : bool :=
  match prefix, s with
  | EmptyString, _ => true
  | String p prefix', String c s' => Ascii.eqb c p && HasPrefix s' prefix'
  | String _ _, EmptyString => false
  end.

(** [Index(s, substr) >= 0] *)
Fixpoint Contains (s substr : string) : bool :=
  HasPrefix s substr
  || match s with
     | EmptyString => false
     | String _ s' => Contains s' substr
     end.

(** [unicode.IsSpace] on the UTF-8 encoding: the number of bytes of the
    white-space rune that starts the list, 0 when none does.  The runes
    are U+0009..U+000D, U+0020, U+0085, U+00A0, U+1680, U+2000..U+200A,
    U+2028, U+2029, U+202F, U+205F and U+3000. *)
Definition spaceAt (l : list Z) : nat :=
  match l with
  | 9 :: _ | 10 :: _ | 11 :: _ | 12 :: _ | 13 :: _ | 32 :: _ => 1%nat
  | 194 :: 133 :: _ | 194 :: 160 :: _ => 2%nat
  | 225 :: 154 :: 128 :: _ => 3%nat
  | 226 :: 128 :: b :: _ =>
      if ((128 <=? b) && (b <=? 138)) || (b =? 168) || (b =? 169)
         || (b =? 175)
      then 3%nat else 0%nat
  | 226 :: 129 :: 159 :: _ => 3%nat
  | 227 :: 128 :: 128 :: _ => 3%nat
  | _ => 0%nat
  end.

(** The same test on a reversed byte list, for trimming on the right. *)
Definition spaceAtEnd (r : list Z) : nat :=
  match r with
  | 9 :: _ | 10 :: _ | 11 :: _ | 12 :: _ | 13 :: _ | 32 :: _ => 1%nat
  | 133 :: 194 :: _ | 160 :: 194 :: _ => 2%nat
  | 128 :: 154 :: 225 :: _ => 3%nat
  | b :: 128 :: 226 :: _ =>
      if ((128 <=? b) && (b <=? 138)) || (b =? 168) || (b =? 169)
         || (b =? 175)
      then 3%nat else 0%nat
  | 159 :: 129 :: 226 :: _ => 3%nat
  | 128 :: 128 :: 227 :: _ => 3%nat
  | _ => 0%nat
  end.

(** Drop white-space runes from the front; [fuel] bounds the byte count. *)
Fixpoint trimLeft (fuel : nat) (l : list Z) : list Z :=
  match fuel with
  | O => l
  | S fuel' =>
      match spaceAt l with
      | O => l
      | n => trimLeft fuel' (drop n l)
      end
  end.

Fixpoint trimRightRev (fuel : nat) (r : list Z) : list Z :=
  match fuel with
  | O => r
  | S fuel' =>
      match spaceAtEnd r with
      | O => r
      | n => trimRightRev fuel' (drop n r)
      end
  end.

(** [strings.TrimSpace]: leading and trailing white space removed. *)
Definition TrimSpace (s : string) : string :=
  let l := trimLeft (String.length s) (bytes s) in
  of_bytes (rev (trimRightRev (length l) (rev l))).

(** [strings.Fields]: the maximal runs of non-white-space bytes.  [cur]
    is the field being read, reversed. *)
Fixpoint fieldsGo (fuel : nat) (cur : list Z) (l : list Z) : list string :=
  let flush := match cur with [] => [] | _ => [of_bytes (rev cur)] end in
  match fuel with
  | O => flush
  | S fuel' =>
      match l with
      | [] => flush
      | b :: l' =>
          match spaceAt l with
          | O => fieldsGo fuel' (b :: cur) l'
          | n => flush ++ fieldsGo fuel' [] (drop n l)
          end
      end
  end.

Definition Fields (s : string) : list string :=
  fieldsGo (S (String.length s)) [] (bytes s).

End GoStrings.

(** ** Go's [strconv] package: [ParseFloat], [ParseUint], [Atoi] *)

Module Strconv.
Import GoStrings.

(** [float64] is IEEE 754 binary64: 53 bits of precision, [emax = 1024]. *)
Definition float64 : Type := spec_float.
Definition prec : Z := 53.
Definition emax : Z := 1024.

Definition float64_of_Z (n : Z) : float64 := binary_normalize prec emax n 0 false.
Definition fmul (x y : float64) : float64 := SFmul prec emax x y.

(** The errors [strconv] reports ([NumError.Err]). *)
Inductive NumErr := ErrSyntax | ErrRange.

Definition isDigit (b : Z) : bool := (48 <=? b) && (b <=? 57).
(** [lower(c) = c | ('x' - 'X')] *)
Definition lower (b : Z) : Z := Z.lor b 32.
Definition isHexLetter (b : Z) : bool := (97 <=? lower b) && (lower b <=? 102).

(** [commonPrefixLenIgnoreCase]: only upper-case ASCII letters of [s]
    are folded; [prefix] is lower case. *)
Fixpoint commonPrefixLenIgnoreCase (s prefix : list Z) : nat :=
  match s, prefix with
  | c :: s', p :: prefix' =>
      let c' := if (65 <=? c) && (c <=? 90) then c + 32 else c in
      if c' =? p then S (commonPrefixLenIgnoreCase s' prefix') else O
  | _, _ => O
  end.

(** [special]: the value and the number of bytes read when [s] starts
    with a possibly signed "inf"/"infinity" or with "nan". *)
Definition special (s : list Z) : option (float64 * nat) :=
  let inf (sign : bool) (nsign : nat) (t : list Z) :=
    let n := commonPrefixLenIgnoreCase t (bytes "infinity") in
    let n := if ((3 <? n) && (n <? 8))%nat then 3%nat else n in
    if ((n =? 3) || (n =? 8))%nat
    then Some (S754_infinity sign, (nsign + n)%nat) else None in
  match s with
  | [] => None
  | c :: t =>
      if c =? 43 then inf false 1%nat t
      else if c =? 45 then inf true 1%nat t
      else if (c =? 105) || (c =? 73) then inf false 0%nat s
      else if (c =? 110) || (c =? 78) then
        if (commonPrefixLenIgnoreCase s (bytes "nan") =? 3)%nat
        then Some (S754_nan, 3%nat) else None
      else None
  end.

(** State of [readFloat]'s mantissa loop.  The digits are accumulated
    exactly in [mant]; [frac] counts the digits read after the point.
    (Go keeps 19 digits and a truncation flag and re-reads longer
    mantissas with its multi-precision [decimal]; the value and its
    rounding are the same.) *)
Record mantissa := {
  mant : Z; frac : Z; sawdot : bool; sawdigits : bool; underscores : bool
}.

Fixpoint readMantissa (base : Z) (st : mantissa) (l : list Z)
  : mantissa * list Z :=
  match l with
  | [] => (st, [])
  | c :: l' =>
      let digit (d : Z) :=
        readMantissa base
          {| mant := mant st * base + d;
             frac := if sawdot st then frac st + 1 else frac st;
             sawdot := sawdot st; sawdigits := true;
             underscores := underscores st |} l' in
      if c =? 95 then
        readMantissa base
          {| mant := mant st; frac := frac st; sawdot := sawdot st;
             sawdigits := sawdigits st; underscores := true |} l'
      else if c =? 46 then
        if sawdot st then (st, l)
        else readMantissa base
               {| mant := mant st; frac := frac st; sawdot := true;
                  sawdigits := sawdigits st;
                  underscores := underscores st |} l'
      else if isDigit c then digit (c - 48)
      else if (base =? 16) && isHexLetter c then digit (lower c - 97 + 10)
      else (st, l)
  end.

(** The digits of the exponent, after its first digit was checked:
    [e] stops growing at 10000, underscores are skipped and noted. *)
Fixpoint readExpDigits (e : Z) (us : bool) (l : list Z) : Z * bool * list Z :=
  match l with
  | c :: l' =>
      if c =? 95 then readExpDigits e true l'
      else if isDigit c then
        readExpDigits (if e <? 10000 then e * 10 + (c - 48) else e) us l'
      else (e, us, l)
  | [] => (e, us, [])
  end.

(** [underscoreOK]: an underscore only between digits, or between the
    base prefix and a digit. *)
Fixpoint underscoreScan (hex : bool) (saw : Z) (l : list Z) : bool :=
  match l with
  | [] => negb (saw =? 95)
  | c :: l' =>
      if isDigit c || (hex && isHexLetter c) then underscoreScan hex 48 l'
      else if c =? 95 then
        if saw =? 48 then underscoreScan hex 95 l' else false
      else if saw =? 95 then false
      else underscoreScan hex 33 l'
  end.

Definition underscoreOK (s : list Z) : bool :=
  let s := match s with
           | c :: t => if (c =? 45) || (c =? 43) then t else s
           | [] => s
           end in
  match s with
  | 48 :: c :: t =>
      if (lower c =? 98) || (lower c =? 111) || (lower c =? 120)
      then underscoreScan (lower c =? 120) 48 t
      else underscoreScan false 94 s
  | _ => underscoreScan false 94 s
  end.

(** The nearest binary64 (ties to even) of [m * 10^e] and of [m * 2^e];
    an overflow gives an infinity. *)
Definition round_decimal (neg : bool) (m e : Z) : float64 :=
  if m =? 0 then S754_zero neg
  else if 0 <=? e then binary_normalize prec emax ((if neg then - m else m) * 10 ^ e) 0 neg
  else SFdiv prec emax (S754_finite neg (Z.to_pos m) 0)
                       (S754_finite false (Z.to_pos (10 ^ (- e))) 0).

Definition round_binary (neg : bool) (m e : Z) : float64 :=
  binary_normalize prec emax (if neg then - m else m) e neg.

(** [readFloat] and the conversion of [atof64], for a string that is not
    a special value: [None] is a syntax error. *)
Definition readFloat (s : list Z) : option float64 :=
  let '(neg, t) := match s with
                   | c :: t => if c =? 43 then (false, t)
                               else if c =? 45 then (true, t)
                               else (false, s)
                   | [] => (false, s)
                   end in
  let '(hex, t) := match t with
                   | z :: x :: ((_ :: _) as t') =>
                       if (z =? 48) && (lower x =? 120) then (true, t')
                       else (false, t)
                   | _ => (false, t)
                   end in
  let base := if hex then 16 else 10 in
  let '(st, t) := readMantissa base
                    {| mant := 0; frac := 0; sawdot := false;
                       sawdigits := false; underscores := false |} t in
  if negb (sawdigits st) then None else
  let expChar := if hex then 112 else 101 in
  let scanned :=
    match t with
    | c :: t1 =>
        if lower c =? expChar then
          let '(esign, t2) := match t1 with
                              | 43 :: t2 => (1, t2)
                              | 45 :: t2 => (-1, t2)
                              | _ => (1, t1)
                              end in
          match t2 with
          | d :: _ =>
              if isDigit d then
                let '(e, us, t3) := readExpDigits 0 false t2 in
                Some (e * esign, us, t3)
              else None
          | [] => None
          end
        else if hex then None else Some (0, false, t)
    | [] => if hex then None else Some (0, false, t)
    end in
  match scanned with
  | Some (e, us, []) =>
      if (underscores st || us) && negb (underscoreOK s) then None
      else if hex then Some (round_binary neg (mant st) (e - 4 * frac st))
      else Some (round_decimal neg (mant st) (e - frac st))
  | _ => None
  end.

Definition is_infinity (f : float64) : bool :=
  match f with S754_infinity _ => true | _ => false end.

(** [strconv.ParseFloat(s, 64)]: the value and the error.  The whole
    string must be a number; a syntax error gives 0, an overflow gives
    an infinity together with [ErrRange]. *)
Definition ParseFloat (s : string) : float64 * option NumErr :=
  let l := bytes s in
  match special l with
  | Some (v, n) =>
      if (n =? length l)%nat then (v, None) else (S754_zero false, Some ErrSyntax)
  | None =>
      match readFloat l with
      | Some v => (v, if is_infinity v then Some ErrRange else None)
      | None => (S754_zero false, Some ErrSyntax)
      end
  end.

(** [strconv.ParseUint(s, 10, bitSize)]: on overflow the loop returns
    the largest value of the size at once, with [ErrRange]. *)
Fixpoint parseUintLoop (maxVal n : Z) (l : list Z) : Z * option NumErr :=
  match l with
  | [] => (n, None)
  | c :: l' =>
      if negb (isDigit c) then (0, Some ErrSyntax)
      else if 1844674407370955162 <=? n then (maxVal, Some ErrRange)
      else
        let n10 := n * 10 in
        let n1 := (n10 + (c - 48)) mod 2 ^ 64 in
        if (n1 <? n10) || (maxVal <? n1) then (maxVal, Some ErrRange)
        else parseUintLoop maxVal n1 l'
  end.

Definition ParseUint (s : string) (bitSize : Z) : Z * option NumErr :=
  match bytes s with
  | [] => (0, Some ErrSyntax)
  | l => parseUintLoop (2 ^ bitSize - 1) 0 l
  end.

(** [strconv.ParseInt(s, 10, 64)] *)
Definition ParseInt64 (s : string) : Z * option NumErr :=
  match bytes s with
  | [] => (0, Some ErrSyntax)
  | (c :: t) as l =>
      let '(neg, digits) := if c =? 43 then (false, t)
                            else if c =? 45 then (true, t)
                            else (false, l) in
      match digits with
      | [] => (0, Some ErrSyntax)
      | _ =>
          match parseUintLoop (2 ^ 64 - 1) 0 digits with
          | (_, Some ErrSyntax) => (0, Some ErrSyntax)
          | (un, _) =>
              if negb neg && (2 ^ 63 <=? un) then (2 ^ 63 - 1, Some ErrRange)
              else if neg && (2 ^ 63 <? un) then (- 2 ^ 63, Some ErrRange)
              else (if neg then - un else un, None)
          end
      end
  end.

(** [strconv.Itoa], which is also what [fmt]'s [%d] prints. *)
Definition Itoa (n : Z) : string := NilZero.string_of_int (Z.to_int n).

(** The fast path of [Atoi], taken by strings shorter than 19 bytes on
    a 64-bit target. *)
Fixpoint atoiLoop (n : Z) (l : list Z) : option Z :=
  match l with
  | [] => Some n
  | c :: l' => if isDigit c then atoiLoop (n * 10 + (c - 48)) l' else None
  end.

(** [strconv.Atoi] with [int] of 64 bits. *)
Definition Atoi (s : string) : Z * option NumErr :=
  let l := bytes s in
  if ((0 <? length l) && (length l <? 19))%nat then
    let '(neg, digits) := match l with
                          | c :: t => if c =? 45 then (true, t)
                                      else if c =? 43 then (false, t)
                                      else (false, l)
                          | [] => (false, l)
                          end in
    match digits with
    | [] => (0, Some ErrSyntax)
    | _ => match atoiLoop 0 digits with
           | Some n => (if neg then - n else n, None)
           | None => (0, Some ErrSyntax)
           end
    end
  else ParseInt64 s.

End Strconv.

(** ** The collector: [getGPUInfoFromNvidiaSmi] and its normalisers *)

Module Collector.
Import GoStrings Strconv.

(** *** Conversion of a [float64] to [uint64]

    Go truncates toward zero.  When the truncated value is no [uint64]
    (NaN, an infinity, a negative or too large value) the conversion
    succeeds with an implementation-dependent result: the compilation
    target supplies it. *)
Class Target := { uint64_unrepresentable : float64 -> Z }.

Definition truncate (f : float64) : option Z :=
  match f with
  | S754_zero _ => Some 0
  | S754_finite s m e =>
      let a := if 0 <=? e then Z.shiftl (Zpos m) e
               else Z.shiftr (Zpos m) (- e) in
      Some (if s then - a else a)
  | _ => None
  end.

Definition uint64 `{Target} (f : float64) : Z :=
  match truncate f with
  | Some z =>
      if (0 <=? z) && (z <? 2 ^ 64) then z
      else uint64_unrepresentable f mod 2 ^ 64
  | None => uint64_unrepresentable f mod 2 ^ 64
  end.

(** [uint32(v)] of an unsigned integer wraps. *)
Definition uint32 (v : Z) : Z := v mod 2 ^ 32.

(** *** The decoded XML of [nvidia-smi -q -x] *)

Module Memory.
Record t := mk { Total : string; Used : string; Free : string }.
End Memory.

Module Util.
Record t := mk { GPU : string }.
End Util.

Module Temp.
Record t := mk { GPUTemp : string }.
End Temp.

Module Power.
Record t := mk { PowerDraw : string; PowerLimit : string }.
End Power.

Module Process.
Record t := mk { PID : string; ProcessName : string; UsedMemory : string }.
End Process.

Module Processes.
Record t := mk { ProcessInfo : list Process.t }.
End Processes.

Module GPU.
Record t := mk {
  ID : string;
  ProductName : string;
  FBMemory : Memory.t;
  Utilization : Util.t;
  Temperature : Temp.t;
  Power : Power.t;
  Processes : Processes.t
}.
End GPU.

Module SMIOutput.
Record t := mk { AttachedGPUs : Z; GPUs : list GPU.t }.
End SMIOutput.

(** *** The normalised telemetry *)

Module ProcessInfo.
Record t := mk { PID : Z; Name : string; Used : Z }.
Definition zero : t := mk 0 "" 0.
End ProcessInfo.

Module GPUInfo.
Record t := mk {
  ID : string;
  Name : string;
  Utilization : float64;
  MemoryUsed : Z;
  MemoryTotal : Z;
  Temperature : Z;
  PowerUsage : Z;
  PowerLimit : Z;
  Processes : list ProcessInfo.t
}.
Definition zero : t := mk "" "" (S754_zero false) 0 0 0 0 0 [].
End GPUInfo.

Section Normalisers.
Context `{Target}.

Definition parseMemoryValue (value : string) : Z :=
  let value := TrimSpace value in
  if HasSuffix value "MiB" then
    let numStr := TrimSuffix value " MiB" in
    let num := fst (ParseFloat numStr) in
    uint64 (fmul (fmul num (float64_of_Z 1024)) (float64_of_Z 1024))
  else if HasSuffix value "GiB" then
    let numStr := TrimSuffix value " GiB" in
    let num := fst (ParseFloat numStr) in
    uint64 (fmul (fmul (fmul num (float64_of_Z 1024)) (float64_of_Z 1024))
                 (float64_of_Z 1024))
  else if HasSuffix value "KiB" then
    let numStr := TrimSuffix value " KiB" in
    let num := fst (ParseFloat numStr) in
    uint64 (fmul num (float64_of_Z 1024))
  else if HasSuffix value "B" && negb (Contains value "iB") then
    let numStr := TrimSuffix value "B" in
    let num := fst (ParseFloat numStr) in
    uint64 num
  else 0.

Definition parsePowerValue (value : string) : Z :=
  let value := TrimSpace value in
  if HasSuffix value "W" then
    let numStr := TrimSuffix value " W" in
    let num := fst (ParseFloat numStr) in
    uint64 (fmul num (float64_of_Z 1000))
  else if String.eqb value "N/A" || String.eqb value "" then 0
  else
    match ParseFloat value with
    | (num, None) => uint64 (fmul num (float64_of_Z 1000))
    | (_, Some _) => 0
    end.

(** The utilisation block of the loop (lines 295-299). *)
Definition parseUtilization (s : string) : float64 :=
  if HasSuffix s " %" then
    let utilStr := TrimSuffix s " %" in
    fst (ParseFloat utilStr)
  else S754_zero false.

(** The temperature block of the loop (lines 306-311). *)
Definition parseTemperature (s : string) : Z :=
  if HasSuffix s " C" then
    let tempStr := TrimSuffix s " C" in
    let tempVal := fst (ParseUint tempStr 32) in
    uint32 tempVal
  else uint32 0.

(** [out := make([]B, len(l)); for i, x := range l { out[i] = f(x) }] *)
Definition assign {A B : Type} (f : A -> B) (out : list B) (ix : nat * A)
  : list B :=
  <[fst ix := f (snd ix)]> out.

Definition fillSlice {A B : Type} (zero : B) (f : A -> B) (l : list A)
  : list B :=
  foldl (assign f) (replicate (length l) zero) (imap pair l).

Definition convertProcess (proc : Process.t) : ProcessInfo.t :=
  let usedMemory := parseMemoryValue (Process.UsedMemory proc) in
  let pid := fst (ParseUint (Process.PID proc) 32) in
  {| ProcessInfo.PID := uint32 pid;
     ProcessInfo.Name := Process.ProcessName proc;
     ProcessInfo.Used := usedMemory |}.

(** The body of the loop over [smiOutput.GPUs]. *)
Definition convertGPU (gpu : GPU.t) : GPUInfo.t :=
  let utilization := parseUtilization (Util.GPU (GPU.Utilization gpu)) in
  let memoryUsed := parseMemoryValue (Memory.Used (GPU.FBMemory gpu)) in
  let memoryTotal := parseMemoryValue (Memory.Total (GPU.FBMemory gpu)) in
  let temperature := parseTemperature (Temp.GPUTemp (GPU.Temperature gpu)) in
  let powerUsage := parsePowerValue (Power.PowerDraw (GPU.Power gpu)) in
  let powerLimit := parsePowerValue (Power.PowerLimit (GPU.Power gpu)) in
  let processes :=
    fillSlice ProcessInfo.zero convertProcess
              (Processes.ProcessInfo (GPU.Processes gpu)) in
  {| GPUInfo.ID := GPU.ID gpu;
     GPUInfo.Name := GPU.ProductName gpu;
     GPUInfo.Utilization := utilization;
     GPUInfo.MemoryUsed := memoryUsed;
     GPUInfo.MemoryTotal := memoryTotal;
     GPUInfo.Temperature := temperature;
     GPUInfo.PowerUsage := powerUsage;
     GPUInfo.PowerLimit := powerLimit;
     GPUInfo.Processes := processes |}.

(** What the two fallible calls gave: [cmd.Output()] failed, or
    [xml.Unmarshal] rejected the output, or it decoded. *)
Inductive SmiRun :=
| CmdFailed (err : string)
| XmlRejected (err : string)
| XmlDecoded (smiOutput : SMIOutput.t).

Definition getGPUInfoFromNvidiaSmi (run : SmiRun) : list GPUInfo.t + string :=
  match run with
  | CmdFailed err => inr ("failed to run nvidia-smi: " +:+ err)
  | XmlRejected err =>
      inr ("failed to parse nvidia-smi XML output: " +:+ err)
  | XmlDecoded smiOutput =>
      inl (fillSlice GPUInfo.zero convertGPU (SMIOutput.GPUs smiOutput))
  end.

End Normalisers.

(** A target whose conversion saturates, as the [FCVTZU] instruction of
    arm64 (one of the build targets of the README) does: NaN and negative
    values give 0, too large values give [2^64 - 1]. *)
Definition saturating : Target :=
  {| uint64_unrepresentable f :=
       match f with
       | S754_infinity false => 2 ^ 64 - 1
       | S754_finite false _ _ => 2 ^ 64 - 1
       | _ => 0
       end |}.

End Collector.

(** ** The single-host variant: process ranking in [gpuInfoHandler] *)

Module Ranking.
Import GoStrings Strconv.

(** A Go computation that may panic. *)
Inductive Result (A : Type) :=
| Ok (a : A)
| Panic (msg : string).
Arguments Ok {A} a.
Arguments Panic {A} msg.

Definition bind {A B : Type} (r : Result A) (k : A -> Result B) : Result B :=
  match r with
  | Ok a => k a
  | Panic msg => Panic msg
  end.

Notation "x <- r ;; k" := (bind r (fun x => k))
  (at level 100, r at next level, right associativity).

Fixpoint mapM {A B : Type} (f : A -> Result B) (l : list A) : Result (list B) :=
  match l with
  | [] => Ok []
  | x :: l' => y <- f x ;; ys <- mapM f l' ;; Ok (y :: ys)
  end.

(** [l[k]], with Go's bounds check and the text of its run-time error. *)
Definition outOfRange (k len : nat) : string :=
  "runtime error: index out of range [" +:+ Itoa (Z.of_nat k)
  +:+ "] with length " +:+ Itoa (Z.of_nat len).

Definition index {A : Type} (l : list A) (k : nat) : Result A :=
  match l !! k with
  | Some x => Ok x
  | None => Panic (outOfRange k (length l))
  end.

Record Process := {
  Pid : string;
  ProcessName : string;
  UsedMemory : string;
  Username : string
}.

Record GPU := {
  ID : string;
  ProductName : string;
  MemoryTotal : string;
  MemoryUsed : string;
  Utilization : string;
  PowerDraw : string;
  Processes : list Process
}.

(** The comparator handed to [sort.Slice]: it reads the slice being
    sorted and takes the first field of each [UsedMemory] unchecked. *)
Definition less (procs : list Process) (k l : nat) : Result bool :=
  pk <- index procs k ;;
  fk <- index (Fields (UsedMemory pk)) 0 ;;
  let memK := fst (Atoi fk) in
  pl <- index procs l ;;
  fl <- index (Fields (UsedMemory pl)) 0 ;;
  let memL := fst (Atoi fl) in
  Ok (memL <? memK).

(** The swapper [sort.Slice] builds for the slice. *)
Definition swap {A : Type} (data : list A) (i j : nat) : Result (list A) :=
  x <- index data i ;;
  y <- index data j ;;
  Ok (<[i := y]> (<[j := x]> data)).

(** [for j := i; j > a && less(j, j-1); j-- { swap(j, j-1) }] with
    [a = 0]. *)
Fixpoint sift (data : list Process) (j : nat) : Result (list Process) :=
  match j with
  | O => Ok data
  | S j' =>
      b <- less data j j' ;;
      if b then data' <- swap data j j' ;; sift data' j'
      else Ok data
  end.

(** [insertionSortLessFunc(data, 0, n)]: [i] runs over [steps]
    consecutive indices. *)
Fixpoint insertionSort (data : list Process) (i steps : nat)
  : Result (list Process) :=
  match steps with
  | O => Ok data
  | S steps' => data' <- sift data i ;; insertionSort data' (S i) steps'
  end.

(** The pass Go 1.16-1.18 run before the insertion sort on slices of 7
    to 12 elements:
    [for i := 6; i < n; i++ { if less(i, i-6) { swap(i, i-6) } }]. *)
Fixpoint gapPass (data : list Process) (i steps : nat) : Result (list Process) :=
  match steps with
  | O => Ok data
  | S steps' =>
      b <- less data i (i - 6) ;;
      data' <- (if b then swap data i (i - 6) else Ok data) ;;
      gapPass data' (S i) steps'
  end.

Definition sortSliceGo116 (data : list Process) : Result (list Process) :=
  data' <- gapPass data 6 (length data - 6) ;;
  insertionSort data' 1 (length data - 1).

(** Slices of at most this many elements are sorted by
    [insertionSortLessFunc] alone in every release since Go 1.16 (the
    README's minimum): Go 1.16-1.18 add a gap-6 pass from 7 elements on,
    Go 1.19 switches to pattern-defeating quicksort above 12. *)
Definition insertionOnly : nat := 6.

Section Handler.
(** The algorithm [sort.Slice] runs on longer slices, which depends on
    the release, and the owner lookup [getUsernameFromPid] (a call to
    [ps]). *)
Variable sortLong : list Process -> Result (list Process).
Variable getUsernameFromPid : string -> string.

Definition sortSlice (data : list Process) : Result (list Process) :=
  if (length data <=? insertionOnly)%nat
  then insertionSort data 1 (length data - 1)
  else sortLong data.

Definition setUsername (proc : Process) : Process :=
  {| Pid := Pid proc; ProcessName := ProcessName proc;
     UsedMemory := UsedMemory proc;
     Username := getUsernameFromPid (Pid proc) |}.

(** The body of the loop over [gpuInfo.AttachedGPUs], on the process
    list of one device. *)
Definition rankProcesses (procs : list Process) : Result (list Process) :=
  let procs := map setUsername procs in
  sorted <- sortSlice procs ;;
  Ok (if (2 <? length sorted)%nat then take 2 sorted else sorted).

Definition rankGPU (gpu : GPU) : Result GPU :=
  procs <- rankProcesses (Processes gpu) ;;
  Ok {| ID := ID gpu; ProductName := ProductName gpu;
        MemoryTotal := MemoryTotal gpu; MemoryUsed := MemoryUsed gpu;
        Utilization := Utilization gpu; PowerDraw := PowerDraw gpu;
        Processes := procs |}.

(** What [getGPUInfo] gave, and what the handler answers. *)
Inductive SmiRun :=
| SmiFailed (err : string)
| SmiDecoded (AttachedGPUs : list GPU).

Inductive Response :=
| InternalServerError (message : string)
| Json (gpus : list GPU)
| Panicked (msg : string).

Definition gpuInfoHandler (run : SmiRun) : Response :=
  match run with
  | SmiFailed err => InternalServerError ("Error getting GPU info: " +:+ err)
  | SmiDecoded gpus =>
      match mapM rankGPU gpus with
      | Ok ranked => Json ranked
      | Panic msg => Panicked msg
      end
  end.
End Handler.

(** The ordering key the comparator computes, for a process whose
    [UsedMemory] has a first field. *)
Definition hasField (p : Process) : bool :=
  match Fields (UsedMemory p) with [] => false | _ => true end.

Definition memKey (p : Process) : Z :=
  match Fields (UsedMemory p) with
  | f :: _ => fst (Atoi f)
  | [] => 0
  end.

End Ranking.

(** ** The aggregator's registry: records, writers and readers *)

Module Registry.

Record NodeConfig := {
  Name : string;
  Host : string;
  Port : Z;
  Alias : string
}.

Record NodeInfo := {
  NodeName : string;
  Timestamp : Z;
  GPUs : list Collector.GPUInfo.t
}.

(** [Data] is a [*NodeInfo]: [None] is the nil pointer.  Times are
    instants on an integer clock; the zero [time.Time] is 0. *)
Record NodeStatus := {
  Config : NodeConfig;
  LastUpdate : Z;
  Status : string;
  Data : option NodeInfo;
  Error : string
}.

(** The map [nodes] holds pointers: [heap] is the store they point
    into, so that every holder of a pointer sees the writes made
    through another. *)
Definition loc : Type := nat.

Record Aggregator := {
  config : list NodeConfig;
  nodes : gmap string loc;
  heap : gmap loc NodeStatus
}.

Definition withHeap (a : Aggregator) (h : gmap loc NodeStatus) : Aggregator :=
  {| config := config a; nodes := nodes a; heap := h |}.

(** Assignments to one field through a pointer. *)
Definition setStatus (v : string) (st : NodeStatus) : NodeStatus :=
  {| Config := Config st; LastUpdate := LastUpdate st; Status := v;
     Data := Data st; Error := Error st |}.
Definition setLastUpdate (v : Z) (st : NodeStatus) : NodeStatus :=
  {| Config := Config st; LastUpdate := v; Status := Status st;
     Data := Data st; Error := Error st |}.
Definition setData (v : option NodeInfo) (st : NodeStatus) : NodeStatus :=
  {| Config := Config st; LastUpdate := LastUpdate st; Status := Status st;
     Data := v; Error := Error st |}.
Definition setError (v : string) (st : NodeStatus) : NodeStatus :=
  {| Config := Config st; LastUpdate := LastUpdate st; Status := Status st;
     Data := Data st; Error := v |}.

(** [runAggregator], lines 184-198: one fresh record per configured
    node, in state "unknown"; the [i]-th allocation is at address [i]. *)
Definition newStatus (node : NodeConfig) : NodeStatus :=
  {| Config := node; LastUpdate := 0; Status := "unknown";
     Data := None; Error := "" |}.

Definition allocate (cfg : list NodeConfig) (a : Aggregator)
           (inode : nat * NodeConfig) : Aggregator :=
  {| config := cfg;
     nodes := <[Name (snd inode) := fst inode]> (nodes a);
     heap := <[fst inode := newStatus (snd inode)]> (heap a) |}.

Definition newAggregator (cfg : list NodeConfig) : Aggregator :=
  foldl (allocate cfg) {| config := cfg; nodes := ∅; heap := ∅ |}
        (imap pair cfg).

(** The body of [updateNodeError] between [Lock] and [Unlock]; [now]
    is what [time.Now()] returns. *)
Definition updateNodeError (a : Aggregator) (nodeName errorMsg : string)
           (now : Z) : Aggregator :=
  match nodes a !! nodeName with
  | Some status =>
      let h := alter (setStatus "offline") status (heap a) in
      let h := alter (setLastUpdate now) status h in
      let h := alter (setData None) status h in
      let h := alter (setError errorMsg) status h in
      withHeap a h
  | None => a
  end.

(** What the HTTP exchange of [updateNodeStatus] gave: [http.NewRequest]
    failed, [client.Do] failed (a timeout included), or a response came
    with a status code and a body that [json.Decode] rejects or decodes. *)
Inductive Body :=
| DecodeFailed (err : string)
| Decoded (nodeInfo : NodeInfo).

Inductive Exchange :=
| NewRequestFailed (err : string)
| DoFailed (err : string)
| Responded (StatusCode : Z) (body : Body).

Definition StatusOK : Z := 200.

Definition updateNodeStatus (a : Aggregator) (node : NodeConfig)
           (ex : Exchange) (now : Z) : Aggregator :=
  match ex with
  | NewRequestFailed err =>
      updateNodeError a (Name node) ("Failed to create request: " +:+ err) now
  | DoFailed err =>
      updateNodeError a (Name node) ("Failed to connect: " +:+ err) now
  | Responded StatusCode body =>
      if negb (StatusCode =? StatusOK) then
        updateNodeError a (Name node) ("HTTP error: " +:+ Strconv.Itoa StatusCode) now
      else
        match body with
        | DecodeFailed err =>
            updateNodeError a (Name node)
                            ("Failed to parse response: " +:+ err) now
        | Decoded nodeInfo =>
            match nodes a !! Name node with
            | Some status =>
                let h := alter (setStatus "online") status (heap a) in
                let h := alter (setLastUpdate now) status h in
                let h := alter (setData (Some nodeInfo)) status h in
                let h := alter (setError "") status h in
                withHeap a h
            | None => a
            end
        end
  end.

(** [nodesHandler] in its two phases.  Under the read lock it copies
    the pointers of the map into a fresh slice (Go ranges over the map
    in an unspecified order; here the order of [map_to_list]).  After
    [RUnlock], [json.Encode] follows each pointer and writes what the
    record holds at that moment. *)
Definition snapshot (a : Aggregator) : list loc :=
  (map_to_list (nodes a)).*2.

Definition encode (h : gmap loc NodeStatus) (ptrs : list loc)
  : list NodeStatus :=
  omap (fun p => h !! p) ptrs.

Definition nodesHandler (locked encoding : Aggregator) : list NodeStatus :=
  encode (heap encoding) (snapshot locked).

(** The record of a host, through its pointer. *)
Definition record (a : Aggregator) (name : string) : option NodeStatus :=
  p ← nodes a !! name; heap a !! p.

(** The three shapes a record is meant to have. *)
Definition isUnknown (st : NodeStatus) : Prop :=
  Status st = "unknown" ∧ Data st = None ∧ Error st = "".
Definition isOnline (st : NodeStatus) : Prop :=
  Status st = "online" ∧ is_Some (Data st) ∧ Error st = "".
Definition isOffline (st : NodeStatus) : Prop :=
  Status st = "offline" ∧ Data st = None ∧ Error st ≠ "".
Definition wellFormed (st : NodeStatus) : Prop :=
  isUnknown st ∨ isOnline st ∨ isOffline st.

End Registry.

(** ** The polling loop: [pollNodes] and [updateNodeStatuses] *)

Module Poller.
Import Registry.

(** Where the loop of [pollNodes] stands: inside the [for ... range] of
    [updateNodeStatuses] with the nodes still to launch, blocked in
    [wg.Wait()], or blocked on [<-ticker.C]. *)
Inductive Pc :=
| Launching (todo : list NodeConfig)
| Waiting
| TimerWait.

(** [running] holds the goroutines launched and not yet returned, each
    with the tick that launched it; [wg] is the counter of the
    [sync.WaitGroup] of the current call of [updateNodeStatuses]. *)
Record State := {
  tick : nat;
  pc : Pc;
  wg : Z;
  running : list (nat * NodeConfig);
  agg : Aggregator
}.

Definition init (a : Aggregator) : State :=
  {| tick := 0; pc := Launching (config a); wg := 0; running := [];
     agg := a |}.

Inductive step : State -> State -> Prop :=
(** [wg.Add(1); go func(node) {...}(node)] *)
| step_launch s node todo :
    pc s = Launching (node :: todo) ->
    step s {| tick := tick s; pc := Launching todo; wg := wg s + 1;
              running := running s ++ [(tick s, node)]; agg := agg s |}
(** the range is exhausted: the loop reaches [wg.Wait()] *)
| step_wait s :
    pc s = Launching [] ->
    step s {| tick := tick s; pc := Waiting; wg := wg s;
              running := running s; agg := agg s |}
(** a goroutine returns: its fetch resolved as [ex], [updateNodeStatus]
    wrote the registry, the deferred [wg.Done()] ran on the [WaitGroup]
    of the call that launched it *)
| step_resolve s before t node after ex now :
    running s = before ++ (t, node) :: after ->
    step s {| tick := tick s; pc := pc s;
              wg := if decide (t = tick s) then wg s - 1 else wg s;
              running := before ++ after;
              agg := updateNodeStatus (agg s) node ex now |}
(** [wg.Wait()] returns, which it does only at counter zero; the loop
    blocks on the ticker *)
| step_joined s :
    pc s = Waiting -> wg s = 0 ->
    step s {| tick := tick s; pc := TimerWait; wg := wg s;
              running := running s; agg := agg s |}
(** the ticker fires: next call of [updateNodeStatuses], with a new
    [WaitGroup] *)
| step_tick s :
    pc s = TimerWait ->
    step s {| tick := S (tick s); pc := Launching (config (agg s)); wg := 0;
              running := running s; agg := agg s |}.

Inductive reachable (a : Aggregator) : State -> Prop :=
| reach_init : reachable a (init a)
| reach_step s s' : reachable a s -> step s s' -> reachable a s'.

End Poller.

(** ** The facade: [nodeHandler] *)

Module Facade.
Import Registry.

(** What [nodeHandler] answers: a run-time panic of the slice expression,
    404 with the text given to [http.Error], or 200 with what
    [json.Encode] wrote. *)
Inductive NodeResponse :=
| SlicePanic
| StatusNotFound (message : string)
| StatusOKJson (body : list NodeStatus).

(** [s[n:]], which panics when [n > len(s)]. *)
Definition sliceFrom (n : nat) (s : string) : option string :=
  if (String.length s <? n)%nat then None
  else Some (substring n (String.length s - n) s).

(** [nodeHandler] on the path of the request.  As in [nodesHandler], the
    pointer is read under the read lock ([locked]) and followed by
    [json.Encode] after [RUnlock] ([encoding]). *)
Definition nodeHandler (locked encoding : Aggregator) (path : string)
  : NodeResponse :=
  match sliceFrom (String.length "/api/nodes/") path with
  | None => SlicePanic
  | Some nodeName =>
      match nodes locked !! nodeName with
      | Some node => StatusOKJson (encode (heap encoding) [node])
      | None => StatusNotFound "Node not found"
      end
  end.

End Facade.

(** ** Start-up: [parsePort] and the port of [runAggregator] *)

Module Startup.

Section Ports.
(** [fmt.Sscanf(portStr, "%d", &port)]: the integer stored in [port], or
    the text of the error. *)
Variable Sscanf_d : string -> Z + string.

Definition parsePort (portStr : string) : Z + string :=
  if String.eqb portStr "" then inr "empty port string"
  else
    match Sscanf_d portStr with
    | inr err => inr ("invalid port format: " +:+ err)
    | inl port =>
        if (port <=? 0) || (65535 <? port)
        then inr ("port out of range: " +:+ Strconv.Itoa port)
        else inl port
    end.

(** [runAggregator], lines 173-181: the port the aggregator listens on,
    or the message of [log.Fatalf].  [configured] is
    [config.Aggregator.Port]. *)
Definition aggregatorPort (portOverride : string) (configured : Z) : Z + string :=
  if negb (String.eqb portOverride "") then
    match parsePort portOverride with
    | inl port => inl port
    | inr err => inr ("Invalid port: " +:+ err)
    end
  else if configured =? 0 then inl 8080
  else inl configured.

End Ports.

(** [runServer], lines 154-156 and 162: the address it listens on. *)
Definition serverAddr (port : string) : string :=
  ":" +:+ (if String.eqb port "" then "8081" else port).

End Startup.

(** ** The GPU server: [gpuInfoHandler], [healthHandler], [getHostname] *)

Module Server.
Import Collector Registry.

(** [os_Hostname] is what [os.Hostname()] returned: the name, or the
    text of the error. *)
Definition getHostname (os_Hostname : string + string) : string :=
  match os_Hostname with
  | inl hostname => hostname
  | inr _ => "unknown-host"
  end.

(** What a handler of the server answers: the message given to
    [http.Error] with status 500, or the value given to [json.Encode],
    or the bytes given to [w.Write]. *)
Inductive Response :=
| InternalServerError (message : string)
| OKJson (nodeInfo : NodeInfo)
| OKText (body : string).

Definition StatusInternalServerError : Z := 500.

(** The status line of the answer. *)
Definition statusCode (resp : Response) : Z :=
  match resp with
  | InternalServerError _ => StatusInternalServerError
  | OKJson _ | OKText _ => StatusOK
  end.

Definition healthHandler : Response := OKText "OK".

(** [json.Encode] rejects a [float64] that is NaN or infinite with an
    [UnsupportedValueError]; the other fields of a [NodeInfo] are
    integers, strings and a time, which it encodes. *)
Definition finite (f : Strconv.float64) : bool :=
  match f with
  | S754_nan | S754_infinity _ => false
  | _ => true
  end.

Definition encodable (nodeInfo : NodeInfo) : bool :=
  forallb (fun gpu => finite (GPUInfo.Utilization gpu)) (GPUs nodeInfo).

Section Handler.
Context `{Target}.

(** [now] is what [time.Now()] returns.  [Encode] marshals the whole
    value before it writes: when it fails nothing was written, the
    handler drops the error and returns, and the answer is 200 with an
    empty body. *)
Definition gpuInfoHandler (run : SmiRun) (os_Hostname : string + string)
           (now : Z) : Response :=
  match getGPUInfoFromNvidiaSmi run with
  | inr err => InternalServerError ("Failed to get GPU info: " +:+ err)
  | inl gpus =>
      let nodeInfo := {| NodeName := getHostname os_Hostname;
                         Timestamp := now; GPUs := gpus |} in
      if encodable nodeInfo then OKJson nodeInfo else OKText ""
  end.

End Handler.

End Server.

(** ** The owner of a process: [getUsernameFromPid] *)

Module Owner.
Import GoStrings.

(** [ps] is what the command [ps -o user= -p pid] gave through
    [CombinedOutput]: its output, or the error. *)
Definition getUsernameFromPid (ps : string -> string + string)
           (pid : string) : string :=
  match ps pid with
  | inr _ => "N/A"
  | inl out => TrimSpace out
  end.

End Owner.

(** ** The readers after [RUnlock]: [json.Encode] without the lock

    [Registry.nodesHandler] and [Facade.nodeHandler] read every record
    as one state of the store has it.  That is one of the readings the
    code allows, and the one a single scenario needs; what holds of every
    response is stated with the relations of this module, in which a
    record is read while the writers assign field by field. *)

Module Unlocked.
Import Registry Facade.

(** One assignment through a pointer, as the writers make four of
    between [Lock] and [Unlock]. *)
Inductive Store :=
| StoreStatus (p : loc) (v : string)
| StoreLastUpdate (p : loc) (v : Z)
| StoreData (p : loc) (v : option NodeInfo)
| StoreError (p : loc) (v : string).

Definition applyStore (h : gmap loc NodeStatus) (s : Store)
  : gmap loc NodeStatus :=
  match s with
  | StoreStatus p v => alter (setStatus v) p h
  | StoreLastUpdate p v => alter (setLastUpdate v) p h
  | StoreData p v => alter (setData v) p h
  | StoreError p v => alter (setError v) p h
  end.



(** The states the store goes through while the assignments [ss] are
    made one after the other, the first and the last included. *)
Fixpoint states (h : gmap loc NodeStatus) (ss : list Store)
  : list (gmap loc NodeStatus) :=
  match ss with
  | [] => [h]
  | s :: ss' => h :: states (applyStore h s) ss'
  end.

(** [json.Encode] holds no lock: it reads the fields of the record
    behind a pointer one after the other while the writers assign, so
    it takes each field from some state [hs] of the store, not all of
    them from the same one.  (Which states the fields can come from is
    bounded further by the order of the reads; the relation admits every
    combination.) *)
Definition holds (hs : list (gmap loc NodeStatus)) (p : loc)
           (st : NodeStatus) : Prop :=
  exists h, h ∈ hs /\ h !! p = Some st.

Definition reads (hs : list (gmap loc NodeStatus)) (p : loc)
           (st : NodeStatus) : Prop :=
  exists stC stL stS stD stE,
    holds hs p stC /\ holds hs p stL /\ holds hs p stS
    /\ holds hs p stD /\ holds hs p stE
    /\ st = {| Config := Config stC; LastUpdate := LastUpdate stL;
               Status := Status stS; Data := Data stD; Error := Error stE |}.

(** [nodesHandler]: the pointers are copied under the read lock
    ([locked]), the records are read by [json.Encode] afterwards, while
    the store goes through [hs]. *)
Definition nodesHandler (locked : Aggregator)
           (hs : list (gmap loc NodeStatus)) (body : list NodeStatus) : Prop :=
  Forall2 (reads hs) (snapshot locked) body.

(** [nodeHandler] likewise: the lookup is under the read lock, the
    record is read afterwards. *)
Definition nodeHandler (locked : Aggregator)
           (hs : list (gmap loc NodeStatus)) (path : string)
           (resp : NodeResponse) : Prop :=
  match sliceFrom (String.length "/api/nodes/") path with
  | None => resp = SlicePanic
  | Some nodeName =>
      match nodes locked !! nodeName with
      | Some node => exists st, reads hs node st /\ resp = StatusOKJson [st]
      | None => resp = StatusNotFound "Node not found"
      end
  end.

End Unlocked.

(** * Vocabulary of the properties *)

(** ** Decimal numerals *)

Module Numerals.
Import GoStrings.

(** A whole number written with the decimal digits [ds], most
    significant first: the string, and its value. *)
Definition digit (d : Z) : Prop := 0 <= d <= 9.

Definition numeral (ds : list Z) : string :=
  of_bytes (map (fun d => 48 + d) ds).

Definition numeralValue (ds : list Z) : Z :=
  foldl (fun a d => a * 10 + d) 0 ds.

End Numerals.

(** ** Collector *)

Module CollectorSpec.
Import Strconv Collector.

(** A percentage proper: between 0 and 100. *)
Definition inPercentRange (f : float64) : bool :=
  SFleb (S754_zero false) f && SFleb f (float64_of_Z 100).

(** A device with the given memory strings. *)
Definition gpuWithMemory (used total : string) : GPU.t :=
  {| GPU.ID := "00000000:01:00.0"; GPU.ProductName := "NVIDIA A100";
     GPU.FBMemory := {| Memory.Total := total; Memory.Used := used;
                        Memory.Free := "0 MiB" |};
     GPU.Utilization := {| Util.GPU := "45 %" |};
     GPU.Temperature := {| Temp.GPUTemp := "65 C" |};
     GPU.Power := {| Power.PowerDraw := "250.00 W";
                     Power.PowerLimit := "300.00 W" |};
     GPU.Processes := {| Processes.ProcessInfo := [] |} |}.

End CollectorSpec.

(** ** Ranking *)

Module RankingSpec.
Import Ranking.

(** The functional counterpart of the swap loop.  [insertBack x r] is
    what [sift] does to a prefix whose reversal is [r] when [x] follows
    it: [x] moves toward the front past the elements of strictly smaller
    key.  [byKeyDescending] inserts the elements one after the other. *)
Fixpoint insertBack (x : Process) (r : list Process) : list Process :=
  match r with
  | [] => [x]
  | y :: r' => if memKey y <? memKey x then y :: insertBack x r' else x :: r
  end.

Definition insertAll (r todo : list Process) : list Process :=
  foldl (fun r x => insertBack x r) r todo.

Definition byKeyDescending (l : list Process) : list Process :=
  reverse (insertAll [] l).

Definition descending (p q : Process) : Prop := memKey q <= memKey p.
Definition ascending (p q : Process) : Prop := memKey p <= memKey q.

(** The processes the comparator can read. *)
Definition fielded (p : Process) : Prop := hasField p = true.

(** What [sort.Slice] promises for this comparator on a slice whose
    elements all have a first field: a permutation of the slice in which
    no element comes after one of smaller key.  Nothing is promised
    about elements of equal key. *)
Definition sortsByKey (sortLong : list Process -> Result (list Process)) : Prop :=
  forall data, Forall fielded data ->
    exists sorted, sortLong data = Ok sorted /\ sorted ≡ₚ data
                   /\ StronglySorted descending sorted.

(** A process with the given [used_memory]. *)
Definition processUsing (mem : string) : Process :=
  {| Pid := "4242"; ProcessName := "python"; UsedMemory := mem;
     Username := "" |}.

End RankingSpec.

(** ** Registry *)

Module RegistrySpec.
Import Registry.

(** The record a failed, and a decoded, fetch leave in place of [st]. *)
Definition offlineRecord (msg : string) (now : Z) (st : NodeStatus) : NodeStatus :=
  {| Config := Config st; LastUpdate := now; Status := "offline";
     Data := None; Error := msg |}.

Definition onlineRecord (info : NodeInfo) (now : Z) (st : NodeStatus) : NodeStatus :=
  {| Config := Config st; LastUpdate := now; Status := "online";
     Data := Some info; Error := "" |}.

(** Every pointer of the map points to a record; every record of the
    store satisfies [P]. *)
Definition allocated (a : Aggregator) : Prop :=
  forall name p, nodes a !! name = Some p -> is_Some (heap a !! p).

Definition allRecords (P : NodeStatus -> Prop) (a : Aggregator) : Prop :=
  forall p st, heap a !! p = Some st -> P st.

(** A fetch fails in one of four ways. *)
Inductive failed : Exchange -> Prop :=
| failed_request err : failed (NewRequestFailed err)
| failed_transport err : failed (DoFailed err)
| failed_status code body : code <> StatusOK -> failed (Responded code body)
| failed_decode err : failed (Responded StatusOK (DecodeFailed err)).

(** A history of the registry: the fetches that resolved, in the order
    their writes took the lock. *)
Definition Event : Type := NodeConfig * Exchange * Z.

Definition applyEvent (a : Aggregator) (e : Event) : Aggregator :=
  updateNodeStatus a (fst (fst e)) (snd (fst e)) (snd e).

Definition run (a : Aggregator) (events : list Event) : Aggregator :=
  foldl applyEvent a events.

(** A configured host and a telemetry it may report. *)
Definition nodeA : NodeConfig :=
  {| Name := "gpu-a"; Host := "10.0.0.5"; Port := 8081; Alias := "rack a" |}.

Definition infoA : NodeInfo :=
  {| NodeName := "gpu-a"; Timestamp := 100; GPUs := [] |}.

End RegistrySpec.

(** ** Poller *)

Module PollerSpec.
Import Registry Poller.

(** The counter of the current [WaitGroup] is the number of goroutines
    in flight, all of them launched by the current tick, and none is in
    flight while the loop waits for the ticker. *)
Definition barrier (s : State) : Prop :=
  wg s = Z.of_nat (length (running s))
  /\ Forall (fun w => fst w = tick s) (running s)
  /\ (pc s = TimerWait -> running s = []).

End PollerSpec.

(** ** Pointers of the registry *)

Module AliasingSpec.
Import Registry RegistrySpec.

(** What a resolved fetch writes through the pointer of its host. *)
Definition written (ex : Exchange) (now : Z) : NodeStatus -> NodeStatus :=
  match ex with
  | NewRequestFailed err =>
      offlineRecord ("Failed to create request: " +:+ err) now
  | DoFailed err => offlineRecord ("Failed to connect: " +:+ err) now
  | Responded code body =>
      if code =? StatusOK then
        match body with
        | DecodeFailed err =>
            offlineRecord ("Failed to parse response: " +:+ err) now
        | Decoded info => onlineRecord info now
        end
      else offlineRecord ("HTTP error: " +:+ Strconv.Itoa code) now
  end.

(** Every name of the map points to a record that carries an entry of
    the configuration with that name: no two names share a record. *)
Definition named (cfg : list NodeConfig) (a : Aggregator) : Prop :=
  forall name p, nodes a !! name = Some p ->
    exists st, heap a !! p = Some st /\ Name (Config st) = name
               /\ Config st ∈ cfg.

(** Two records that differ at most in [LastUpdate]. *)
Definition sameButTime (st st' : NodeStatus) : Prop :=
  Config st = Config st' /\ Status st = Status st'
  /\ Data st = Data st' /\ Error st = Error st'.

(** The pointers handed out so far are below [k]. *)
Definition below (k : nat) (a : Aggregator) : Prop :=
  forall name p, nodes a !! name = Some p -> (p < k)%nat.


(** A second configured host. *)
Definition nodeB : NodeConfig :=
  {| Name := "gpu-b"; Host := "10.0.0.6"; Port := 8081; Alias := "rack b" |}.

End AliasingSpec.

(** ** The schedule of a tick *)

Module ScheduleSpec.
Import Registry Poller.

(** The hosts whose fetch is in flight. *)
Definition inFlight (s : State) : list NodeConfig := (running s).*2.

(** While the loop launches, the configuration splits into the hosts
    already launched and those still to launch, and the fetches in
    flight are among the former, each at most as often as it is
    configured. *)
Definition scheduled (a : Aggregator) (s : State) : Prop :=
  config (agg s) = config a
  /\ match pc s with
     | Launching todo =>
         exists launched, config a = launched ++ todo
                          /\ inFlight s ⊆+ launched
     | _ => inFlight s ⊆+ config a
     end.

(** Several steps of the loop. *)
Definition steps : State -> State -> Prop := rtc step.

End ScheduleSpec.

(** ** White space around a value *)

Module PaddingSpec.
Import GoStrings.

(** The ASCII white-space bytes: tab, line feed, vertical tab, form
    feed, carriage return and blank. *)
Definition blank (b : Z) : Prop := b ∈ [9; 10; 11; 12; 13; 32].

(** [s] with the bytes [pre] before it and the bytes [post] after. *)
Definition padded (pre : list Z) (s : string) (post : list Z) : string :=
  of_bytes pre +:+ s +:+ of_bytes post.

End PaddingSpec.

(** ** Reading without the lock *)

Module UnlockedSpec.
Import Registry RegistrySpec AliasingSpec Unlocked.






End UnlockedSpec.

(** ** From the server to the aggregator *)

Module ServerSpec.
Import Registry Server.

(** The exchange of a fetch that reaches the server and gets its
    answer: the JSON [Encode] wrote decodes to the value encoded; any
    other body is rejected by [Decode], with the error [decodeErr]. *)
Definition delivered (resp : Response) (decodeErr : string) : Exchange :=
  Responded (statusCode resp)
            match resp with
            | OKJson nodeInfo => Decoded nodeInfo
            | _ => DecodeFailed decodeErr
            end.

(** A device that reports the given utilisation. *)
Definition gpuWithUtilization (util : string) : Collector.GPU.t :=
  {| Collector.GPU.ID := "00000000:01:00.0";
     Collector.GPU.ProductName := "NVIDIA A100";
     Collector.GPU.FBMemory :=
       {| Collector.Memory.Total := "40960 MiB";
          Collector.Memory.Used := "512 MiB";
          Collector.Memory.Free := "40448 MiB" |};
     Collector.GPU.Utilization := {| Collector.Util.GPU := util |};
     Collector.GPU.Temperature := {| Collector.Temp.GPUTemp := "65 C" |};
     Collector.GPU.Power := {| Collector.Power.PowerDraw := "250.00 W";
                               Collector.Power.PowerLimit := "300.00 W" |};
     Collector.GPU.Processes := {| Collector.Processes.ProcessInfo := [] |} |}.

End ServerSpec.

(** * Properties *)

(** ** Suffixes of byte strings *)

Module GoStringsFacts.
Import GoStrings.

Lemma length_append (p q : string) :
  String.length (p +:+ q) = (String.length p + String.length q)%nat.
Proof. induction p as [|c p IH]; simpl; [done | by rewrite IH]. Qed.

Lemma substring_skip (p q : string) (n m : nat) :
  substring (String.length p + n) m (p +:+ q) = substring n m q.
Proof. induction p as [|c p IH]; simpl; [done | exact IH]. Qed.

Lemma substring_all (s : string) : substring 0 (String.length s) s = s.
Proof. induction s as [|c s IH]; simpl; [done | by rewrite IH]. Qed.

Lemma substring_front (p q : string) :
  substring 0 (String.length p) (p +:+ q) = p.
Proof.
  induction p as [|c p IH]; simpl; [by destruct q | by rewrite IH].
Qed.

(** A suffix no longer than [q] is looked for in [q] alone. *)
Lemma HasSuffix_app (p q suffix : string) :
  (String.length suffix <= String.length q)%nat ->
  HasSuffix (p +:+ q) suffix = HasSuffix q suffix.
Proof.
  intros Hle. unfold HasSuffix. rewrite length_append.
  replace (String.length p + String.length q - String.length suffix)%nat
    with (String.length p + (String.length q - String.length suffix))%nat
    by lia.
  rewrite substring_skip.
  f_equal.
  destruct (Nat.leb_spec (String.length suffix)
                         (String.length p + String.length q));
    destruct (Nat.leb_spec (String.length suffix) (String.length q));
    (done || lia).
Qed.

Lemma HasSuffix_refl (s : string) : HasSuffix s s = true.
Proof.
  unfold HasSuffix. rewrite Nat.sub_diag, substring_all, String.eqb_refl.
  by rewrite Nat.leb_refl.
Qed.

Lemma HasSuffix_app_same (p suffix : string) :
  HasSuffix (p +:+ suffix) suffix = true.
Proof. rewrite HasSuffix_app by lia. apply HasSuffix_refl. Qed.

Lemma TrimSuffix_app (p suffix : string) :
  TrimSuffix (p +:+ suffix) suffix = p.
Proof.
  unfold TrimSuffix. rewrite HasSuffix_app_same, length_append.
  replace (String.length p + String.length suffix - String.length suffix)%nat
    with (String.length p) by lia.
  apply substring_front.
Qed.

Lemma append_assoc (a b c : string) : (a +:+ b) +:+ c = a +:+ (b +:+ c).
Proof.
  induction a as [|x a IH]; [reflexivity|].
  change (String x ((a +:+ b) +:+ c) = String x (a +:+ (b +:+ c))).
  by rewrite IH.
Qed.

Lemma substring_split (s : string) (i : nat) :
  (i <= String.length s)%nat ->
  s = substring 0 i s +:+ substring i (String.length s - i) s.
Proof.
  revert i. induction s as [|c s IH]; intros [|i] Hi; simpl in *; try lia.
  - done.
  - by rewrite substring_all.
  - change (String c s
            = String c (substring 0 i s +:+ substring i (String.length s - i) s)).
    f_equal. apply IH. lia.
Qed.

(** [HasSuffix] says what its name says. *)
Lemma HasSuffix_spec (s suffix : string) :
  HasSuffix s suffix = true <-> exists p, s = p +:+ suffix.
Proof.
  split.
  - unfold HasSuffix. intros H. apply andb_prop in H as [Hlen Heq].
    apply Nat.leb_le in Hlen. apply String.eqb_eq in Heq.
    exists (substring 0 (String.length s - String.length suffix) s).
    pose proof (substring_split s (String.length s - String.length suffix))
      as Hsplit.
    replace (String.length s - (String.length s - String.length suffix))%nat
      with (String.length suffix) in Hsplit by lia.
    rewrite Heq in Hsplit. apply Hsplit. lia.
  - intros [p ->]. apply HasSuffix_app_same.
Qed.

Lemma HasSuffix_tail (s suffix : string) (c : ascii) :
  HasSuffix s (String c suffix) = true -> HasSuffix s suffix = true.
Proof.
  intros H. apply HasSuffix_spec in H as [p ->]. apply HasSuffix_spec.
  exists (p +:+ String c ""). symmetry. exact (append_assoc p (String c "") suffix).
Qed.

End GoStringsFacts.

(** ** Exact binary64 arithmetic on small whole numbers *)

Module Float64Facts.
Import Strconv.

(** *** Binary digits and shifts *)

Lemma digits_bounds (m : positive) :
  2 ^ (Zpos (digits2_pos m) - 1) <= Zpos m < 2 ^ Zpos (digits2_pos m).
Proof.
  induction m as [m IH|m IH|]; cbn [digits2_pos].
  - rewrite Pos2Z.inj_succ.
    replace (Z.succ (Zpos (digits2_pos m)) - 1)
      with (Z.succ (Zpos (digits2_pos m) - 1)) by lia.
    rewrite !Z.pow_succ_r by lia. lia.
  - rewrite Pos2Z.inj_succ.
    replace (Z.succ (Zpos (digits2_pos m)) - 1)
      with (Z.succ (Zpos (digits2_pos m) - 1)) by lia.
    rewrite !Z.pow_succ_r by lia. lia.
  - simpl. lia.
Qed.

Lemma digits_unique (m : positive) (d : Z) :
  2 ^ (d - 1) <= Zpos m < 2 ^ d -> Zpos (digits2_pos m) = d.
Proof.
  intros [Hlo Hhi]. destruct (digits_bounds m) as [Hlo' Hhi'].
  assert (0 < d).
  { destruct d as [|dp|dp]; [simpl in Hhi; lia | lia |].
    rewrite Z.pow_neg_r in Hhi by lia. lia. }
  assert (d - 1 < Zpos (digits2_pos m)).
  { apply (Z.pow_lt_mono_r_iff 2); lia. }
  assert (Zpos (digits2_pos m) - 1 < d).
  { apply (Z.pow_lt_mono_r_iff 2); lia. }
  lia.
Qed.

Lemma shl_value (m k : positive) :
  Zpos (Pos.iter xO m k) = Zpos m * 2 ^ Zpos k.
Proof.
  induction k as [|k IH] using Pos.peano_ind.
  - simpl. lia.
  - rewrite Pos.iter_succ, Pos2Z.inj_succ, Z.pow_succ_r by lia.
    change (Zpos (Pos.iter xO m k)~0) with (2 * Zpos (Pos.iter xO m k)).
    rewrite IH. lia.
Qed.

Lemma iter_pos_iter {A : Type} (f : A -> A) (n : positive) (x : A) :
  SpecFloat.iter_pos f n x = Pos.iter f x n.
Proof.
  revert x. induction n as [n IH|n IH|]; intros x; cbn [SpecFloat.iter_pos Pos.iter].
  - by rewrite !IH, !Pos.iter_swap.
  - by rewrite !IH.
  - done.
Qed.

(** Shifting out the zeros that a left shift brought in loses nothing. *)
Lemma shr_exact (q k : positive) :
  SpecFloat.iter_pos shr_1 k {| shr_m := Zpos (Pos.iter xO q k); shr_r := false; shr_s := false |}
  = {| shr_m := Zpos q; shr_r := false; shr_s := false |}.
Proof.
  rewrite iter_pos_iter.
  induction k as [|k IH] using Pos.peano_ind; [done|].
  by rewrite Pos.iter_succ_r, Pos.iter_succ.
Qed.

Lemma fexp_normal (x : Z) : -1021 <= x -> fexp prec emax x = x - prec.
Proof. unfold fexp, emin, prec, emax. lia. Qed.

(** *** Rounding an exactly representable value *)

Lemma round_aux_exact (s : bool) (P Q : positive) (e k : Z) :
  digits2_pos Q = 53%positive -> 0 <= k ->
  Zpos P = Zpos Q * 2 ^ k ->
  -1074 <= e + k <= 971 ->
  binary_round_aux prec emax s (Zpos P) e loc_Exact = S754_finite s Q (e + k).
Proof.
  intros HQ Hk HP He.
  assert (Zpos (digits2_pos P) = 53 + k) as HdP.
  { apply digits_unique. destruct (digits_bounds Q) as [Hlo Hhi].
    rewrite HQ in Hlo, Hhi. rewrite HP.
    replace (53 + k - 1) with (52 + k) by lia.
    rewrite !Z.pow_add_r by lia.
    assert (0 < 2 ^ k) by (apply Z.pow_pos_nonneg; lia).
    change (53 - 1) with 52 in Hlo. nia. }
  assert (shr_fexp prec emax (Zpos Q) (e + k) loc_Exact
          = ({| shr_m := Zpos Q; shr_r := false; shr_s := false |}, e + k)) as Hsecond.
  { unfold shr_fexp. cbn [Zdigits2]. rewrite HQ, fexp_normal by lia.
    unfold prec. replace (53 + (e + k) - 53 - (e + k)) with 0 by lia. done. }
  unfold binary_round_aux.
  assert (shr_fexp prec emax (Zpos P) e loc_Exact
          = ({| shr_m := Zpos Q; shr_r := false; shr_s := false |}, e + k)) as ->.
  { unfold shr_fexp. cbn [Zdigits2]. rewrite HdP, fexp_normal by lia.
    unfold prec. replace (53 + k + e - 53 - e) with k by lia.
    destruct k as [|kp|kp]; [|clear Hk|lia].
    - rewrite Z.pow_0_r, Z.mul_1_r in HP. injection HP as ->.
      by rewrite Z.add_0_r.
    - rewrite <- shl_value in HP. injection HP as ->.
      cbn [shr shr_record_of_loc]. by rewrite shr_exact.
  }
  cbn [shr_m loc_of_shr_record round_nearest_even].
  rewrite Hsecond. cbn [shr_m].
  unfold emax, prec. destruct (Z.leb_spec (e + k) (1024 - 53)); [done|lia].
Qed.

(** The canonical binary64 of a whole number below [2^53]: its mantissa
    brought to 53 binary digits. *)
Lemma float64_of_Z_pos (m : positive) :
  Zpos m < 2 ^ 53 ->
  exists Q : positive,
    digits2_pos Q = 53%positive
    /\ Zpos Q = Zpos m * 2 ^ (53 - Zpos (digits2_pos m))
    /\ float64_of_Z (Zpos m) = S754_finite false Q (Zpos (digits2_pos m) - 53).
Proof.
  intros Hm. destruct (digits_bounds m) as [Hlo Hhi].
  set (d := Zpos (digits2_pos m)) in *.
  assert (1 <= d <= 53) as Hd.
  { split; [unfold d; lia|].
    assert (d - 1 < 53); [|lia]. apply (Z.pow_lt_mono_r_iff 2); lia. }
  unfold float64_of_Z, binary_normalize, binary_round.
  fold d. rewrite Z.add_0_r, fexp_normal by lia. unfold shl_align, prec.
  rewrite Z.sub_0_r.
  destruct (d - 53) as [|kp|kp] eqn:Hk; [|lia|].
  - exists m. assert (d = 53) as Hd53 by lia.
    split_and!.
    + unfold d in Hd53. by injection Hd53.
    + rewrite Hd53. simpl. lia.
    + apply (round_aux_exact false m m 0 0); [|lia| |lia].
      * unfold d in Hd53. by injection Hd53.
      * simpl. lia.
  - exists (Pos.iter xO m kp).
    assert (Zpos kp = 53 - d) as Hkp by lia.
    assert (Zpos (digits2_pos (Pos.iter xO m kp)) = 53) as Hdig.
    { apply digits_unique. rewrite shl_value, Hkp.
      change (53 - 1) with 52.
      assert (2 ^ 52 = 2 ^ (d - 1) * 2 ^ (53 - d)) as Hp52
          by (rewrite <- Z.pow_add_r by lia; f_equal; lia).
      assert (2 ^ 53 = 2 ^ d * 2 ^ (53 - d)) as Hp53
          by (rewrite <- Z.pow_add_r by lia; f_equal; lia).
      assert (0 < 2 ^ (53 - d)) by (apply Z.pow_pos_nonneg; lia).
      rewrite Hp52, Hp53. nia. }
    split_and!.
    + by injection Hdig.
    + by rewrite shl_value, Hkp.
    + replace (Z.neg kp) with (Z.neg kp + 0) at 2 by lia.
      apply (round_aux_exact false _ (Pos.iter xO m kp) (Z.neg kp) 0);
        [by injection Hdig|lia|simpl; lia|lia].
Qed.

(** The product of two whole numbers is exact when it is below [2^53]. *)
Lemma fmul_exact (a b : positive) :
  Zpos (a * b) < 2 ^ 53 ->
  fmul (float64_of_Z (Zpos a)) (float64_of_Z (Zpos b)) = float64_of_Z (Zpos (a * b)).
Proof.
  intros Hab.
  assert (Zpos a < 2 ^ 53 /\ Zpos b < 2 ^ 53) as [Ha Hb] by (rewrite Pos2Z.inj_mul in Hab; nia).
  destruct (float64_of_Z_pos a Ha) as (Qa & HQa & Hva & ->).
  destruct (float64_of_Z_pos b Hb) as (Qb & HQb & Hvb & ->).
  destruct (float64_of_Z_pos (a * b) Hab) as (Q & HQ & Hv & ->).
  destruct (digits_bounds a) as [Hloa Hhia].
  destruct (digits_bounds b) as [Hlob Hhib].
  destruct (digits_bounds (a * b)) as [Hlo Hhi].
  set (da := Zpos (digits2_pos a)) in *.
  set (db := Zpos (digits2_pos b)) in *.
  set (d := Zpos (digits2_pos (a * b))) in *.
  assert (1 <= da /\ 1 <= db /\ 1 <= d) as (Hda & Hdb & Hd) by (unfold da, db, d; lia).
  assert (da + db - 1 <= d <= 53) as Hdab.
  { split.
    - assert (da + db - 2 < d); [|lia]. apply (Z.pow_lt_mono_r_iff 2); [lia..|].
      replace (da + db - 2) with ((da - 1) + (db - 1)) by lia.
      rewrite Z.pow_add_r by lia. rewrite Pos2Z.inj_mul in Hhi.
      assert (0 < 2 ^ (da - 1)) by (apply Z.pow_pos_nonneg; lia).
      assert (0 < 2 ^ (db - 1)) by (apply Z.pow_pos_nonneg; lia).
      nia.
    - assert (d - 1 < 53); [|lia]. apply (Z.pow_lt_mono_r_iff 2); lia. }
  assert (da <= 53 /\ db <= 53) as [Hda53 Hdb53].
  { split; [assert (da - 1 < 53)|assert (db - 1 < 53)]; try lia;
      apply (Z.pow_lt_mono_r_iff 2); lia. }
  unfold fmul, SFmul. cbn [xorb].
  rewrite (round_aux_exact false (Qa * Qb) Q _ (53 - da - db + d)).
  - f_equal. lia.
  - done.
  - lia.
  - rewrite Pos2Z.inj_mul, Hva, Hvb, Hv, Pos2Z.inj_mul.
    replace (Zpos a * 2 ^ (53 - da) * (Zpos b * 2 ^ (53 - db)))
      with (Zpos a * Zpos b * (2 ^ (53 - da) * 2 ^ (53 - db))) by lia.
    rewrite <- !Z.mul_assoc. do 2 f_equal.
    rewrite <- !Z.pow_add_r by lia. f_equal. lia.
  - lia.
Qed.


Lemma fmul_exact_Z (a b : Z) :
  0 <= a < 2 ^ 53 -> 0 <= b < 2 ^ 53 -> a * b < 2 ^ 53 ->
  fmul (float64_of_Z a) (float64_of_Z b) = float64_of_Z (a * b).
Proof.
  intros [Ha Ha'] [Hb Hb'] Hab.
  destruct a as [|a|a]; [| |lia]; (destruct b as [|b|b]; [| |lia]).
  - done.
  - destruct (float64_of_Z_pos b) as (Q & _ & _ & ->); [lia|done].
  - rewrite Z.mul_0_r.
    destruct (float64_of_Z_pos a) as (Q & _ & _ & ->); [lia|done].
  - exact (fmul_exact a b Hab).
Qed.

Lemma float64_of_Z_finite (n : Z) :
  0 <= n < 2 ^ 53 -> is_infinity (float64_of_Z n) = false.
Proof.
  intros [Hlo Hhi]. destruct n as [|m|m]; [done| |lia].
  by destruct (float64_of_Z_pos m Hhi) as (Q & _ & _ & ->).
Qed.

(** Truncation gives back the whole number. *)
Lemma truncate_of_Z (n : Z) :
  0 <= n < 2 ^ 53 -> Collector.truncate (float64_of_Z n) = Some n.
Proof.
  intros [Hlo Hhi]. destruct n as [|m|m]; [done| |lia].
  destruct (float64_of_Z_pos m Hhi) as (Q & HQ & Hv & ->).
  destruct (digits_bounds m) as [Hdlo Hdhi].
  set (d := Zpos (digits2_pos m)) in *.
  assert (1 <= d <= 53) as Hd.
  { split; [unfold d; lia|].
    assert (d - 1 < 53); [|lia]. apply (Z.pow_lt_mono_r_iff 2); lia. }
  unfold Collector.truncate. f_equal.
  destruct (Z.leb_spec 0 (d - 53)).
  - assert (d - 53 = 0) as -> by lia. rewrite Z.shiftl_0_r, Hv.
    replace (53 - d) with 0 by lia. simpl. lia.
  - rewrite Z.shiftr_div_pow2 by lia. rewrite Hv.
    replace (- (d - 53)) with (53 - d) by lia.
    apply Z.div_mul. apply Z.pow_nonzero; lia.
Qed.

Lemma uint64_of_Z `{Collector.Target} (n : Z) :
  0 <= n < 2 ^ 53 -> Collector.uint64 (float64_of_Z n) = n.
Proof.
  intros Hn. unfold Collector.uint64. rewrite truncate_of_Z by done.
  destruct (Z.leb_spec 0 n); [|lia]. simpl.
  destruct (Z.ltb_spec n (2 ^ 64)); [done|].
  assert (2 ^ 53 < 2 ^ 64) by (apply Z.pow_lt_mono_r; lia). lia.
Qed.

End Float64Facts.

(** ** Decimal numerals *)

Module NumeralFacts.
Import GoStrings Strconv Numerals GoStringsFacts Float64Facts.

Lemma of_bytes_bytes (s : string) : of_bytes (bytes s) = s.
Proof.
  induction s as [|c s IH]; simpl; [done|].
  unfold code. by rewrite N2Z.id, ascii_N_embedding, IH.
Qed.

Lemma bytes_of_bytes (l : list Z) :
  Forall (fun b => 0 <= b < 256) l -> bytes (of_bytes l) = l.
Proof.
  induction 1 as [|b l Hb Hl IH]; simpl; [done|].
  rewrite IH. f_equal. unfold code.
  rewrite N_ascii_embedding by lia. lia.
Qed.

Lemma bytes_app (a b : string) : bytes (a +:+ b) = bytes a ++ bytes b.
Proof. induction a as [|c a IH]; simpl; [done | by rewrite IH]. Qed.

Lemma bytes_numeral (ds : list Z) :
  Forall digit ds -> bytes (numeral ds) = map (fun d => 48 + d) ds.
Proof.
  intros Hds. apply bytes_of_bytes, Forall_fmap.
  eapply Forall_impl; [exact Hds|]. unfold digit. simpl. lia.
Qed.

(** A string that neither starts nor ends with a white-space rune is
    its own [TrimSpace]. *)
Lemma TrimSpace_id (s : string) :
  spaceAt (bytes s) = 0%nat -> spaceAtEnd (rev (bytes s)) = 0%nat ->
  TrimSpace s = s.
Proof.
  intros Hfront Hback. unfold TrimSpace.
  assert (forall n, trimLeft n (bytes s) = bytes s) as ->.
  { intros [|n]; simpl; [done|]. by rewrite Hfront. }
  assert (forall n, trimRightRev n (rev (bytes s)) = rev (bytes s)) as ->.
  { intros [|n]; simpl; [done|]. by rewrite Hback. }
  by rewrite rev_involutive, of_bytes_bytes.
Qed.

Ltac digit_cases d H :=
  let E := fresh in
  assert (d = 0 \/ d = 1 \/ d = 2 \/ d = 3 \/ d = 4 \/ d = 5 \/ d = 6
          \/ d = 7 \/ d = 8 \/ d = 9) as E by (unfold digit in H; lia);
  clear H;
  destruct E as [-> | [-> | [-> | [-> | [-> | [-> | [-> | [-> | [-> | ->]]]]]]]]].

Lemma digit_tests (d : Z) :
  digit d ->
  isDigit (48 + d) = true /\ lower (48 + d) = 48 + d
  /\ spaceAt [48 + d] = 0%nat.
Proof. intros H. digit_cases d H; done. Qed.

Lemma spaceAt_digit (d : Z) (l : list Z) : digit d -> spaceAt (48 + d :: l) = 0%nat.
Proof. intros H. digit_cases d H; done. Qed.

(** [readMantissa] reads a run of digits by Horner's rule. *)
Lemma readMantissa_digits (ds : list Z) (rest : list Z) (st : mantissa) :
  Forall digit ds -> sawdot st = false ->
  readMantissa 10 st (map (fun d => 48 + d) ds ++ rest)
  = readMantissa 10
      {| mant := foldl (fun a d => a * 10 + d) (mant st) ds;
         frac := frac st; sawdot := false;
         sawdigits := match ds with [] => sawdigits st | _ => true end;
         underscores := underscores st |}
      rest.
Proof.
  intros Hds. revert st.
  induction Hds as [|d ds Hd Hds IH]; intros [m f dot dig us] Hdot;
    simpl in Hdot; subst dot; [done|].
  cbn [map app readMantissa].
  destruct (digit_tests d Hd) as (Hdigit & _ & _). rewrite Hdigit.
  destruct (Z.eqb_spec (48 + d) 95); [unfold digit in Hd; lia|].
  destruct (Z.eqb_spec (48 + d) 46); [unfold digit in Hd; lia|].
  cbn [mant frac sawdot sawdigits underscores].
  rewrite IH by done. cbn [mant frac sawdot sawdigits underscores foldl].
  replace (48 + d - 48) with d by lia.
  by destruct ds.
Qed.

Lemma special_digit (d : Z) (l : list Z) : digit d -> special (48 + d :: l) = None.
Proof. intros H. digit_cases d H; done. Qed.

(** A non-empty run of digits, then the bytes [rest]: what [readFloat]
    finds once the digits are read. *)
Lemma readFloat_numeral (ds : list Z) :
  ds <> [] -> Forall digit ds ->
  readFloat (map (fun d => 48 + d) ds)
  = Some (round_decimal false (numeralValue ds) 0).
Proof.
  intros Hne Hds. destruct ds as [|d0 ds]; [done|].
  pose proof (Forall_inv Hds) as Hd0.
  assert (readMantissa 10
            {| mant := 0; frac := 0; sawdot := false; sawdigits := false;
               underscores := false |}
            (map (fun d => 48 + d) (d0 :: ds))
          = ({| mant := numeralValue (d0 :: ds); frac := 0; sawdot := false;
                sawdigits := true; underscores := false |}, [])) as Hread.
  { rewrite <- (app_nil_r (map _ (d0 :: ds))).
    by rewrite readMantissa_digits. }
  unfold readFloat. cbn [map].
  destruct (Z.eqb_spec (48 + d0) 43); [unfold digit in Hd0; lia|].
  destruct (Z.eqb_spec (48 + d0) 45); [unfold digit in Hd0; lia|].
  assert (match (48 + d0 :: map (fun d => 48 + d) ds) with
          | z :: x :: ((_ :: _) as t') =>
              if (z =? 48) && (lower x =? 120) then (true, t')
              else (false, 48 + d0 :: map (fun d => 48 + d) ds)
          | _ => (false, 48 + d0 :: map (fun d => 48 + d) ds)
          end = (false, 48 + d0 :: map (fun d => 48 + d) ds)) as ->.
  { destruct ds as [|d1 [|d2 ds]]; [done..|]. cbn [map].
    apply Forall_inv_tail, Forall_inv in Hds.
    destruct (digit_tests d1 Hds) as (_ & -> & _).
    destruct (Z.eqb_spec (48 + d1) 120); [unfold digit in Hds; lia|].
    by rewrite andb_false_r. }
  cbn [map] in Hread. rewrite Hread. cbn [sawdigits negb underscores orb andb mant frac].
  done.
Qed.

Lemma round_decimal_whole (v : Z) :
  0 <= v -> round_decimal false v 0 = float64_of_Z v.
Proof.
  intros Hv. unfold round_decimal, float64_of_Z.
  destruct (Z.eqb_spec v 0) as [->|]; [done|].
  cbn [Z.leb Z.compare]. by rewrite Z.pow_0_r, Z.mul_1_r.
Qed.

Lemma foldl_digits_nonneg (ds : list Z) (a : Z) :
  Forall digit ds -> 0 <= a -> 0 <= foldl (fun a d => a * 10 + d) a ds.
Proof.
  intros Hds. revert a. induction Hds as [|d ds Hd Hds IH]; intros a Ha; simpl; [done|].
  apply IH. unfold digit in Hd. lia.
Qed.

(** [ParseFloat] on a decimal numeral below [2^53]: its value, exactly,
    and no error. *)
Lemma ParseFloat_numeral (ds : list Z) :
  ds <> [] -> Forall digit ds -> numeralValue ds < 2 ^ 53 ->
  ParseFloat (numeral ds) = (float64_of_Z (numeralValue ds), None).
Proof.
  intros Hne Hds Hv.
  assert (0 <= numeralValue ds) as Hpos by (by apply foldl_digits_nonneg).
  unfold ParseFloat. rewrite bytes_numeral by done.
  assert (special (map (fun d => 48 + d) ds) = None) as ->.
  { destruct ds as [|d ds]; [done|]. apply special_digit. by apply Forall_inv in Hds. }
  rewrite readFloat_numeral, round_decimal_whole by done.
  by rewrite float64_of_Z_finite.
Qed.

(** The same numeral followed by a blank is a syntax error. *)
Lemma ParseFloat_numeral_blank (ds : list Z) :
  ds <> [] -> Forall digit ds ->
  ParseFloat (numeral ds +:+ " ") = (S754_zero false, Some ErrSyntax).
Proof.
  intros Hne Hds. unfold ParseFloat.
  rewrite bytes_app, bytes_numeral by done.
  destruct ds as [|d0 ds]; [done|].
  pose proof (Forall_inv Hds) as Hd0.
  cbn [map app]. rewrite special_digit by done.
  assert (readFloat (48 + d0 :: map (fun d => 48 + d) ds ++ bytes " ") = None)
    as ->; [|done].
  unfold readFloat.
  destruct (Z.eqb_spec (48 + d0) 43); [unfold digit in Hd0; lia|].
  destruct (Z.eqb_spec (48 + d0) 45); [unfold digit in Hd0; lia|].
  assert (match (48 + d0 :: map (fun d => 48 + d) ds ++ bytes " ") with
          | z :: x :: ((_ :: _) as t') =>
              if (z =? 48) && (lower x =? 120) then (true, t')
              else (false, 48 + d0 :: map (fun d => 48 + d) ds ++ bytes " ")
          | _ => (false, 48 + d0 :: map (fun d => 48 + d) ds ++ bytes " ")
          end = (false, 48 + d0 :: map (fun d => 48 + d) ds ++ bytes " ")) as ->.
  { destruct ds as [|d1 ds]; [done|]. cbn [map app].
    apply Forall_inv_tail, Forall_inv in Hds.
    destruct (digit_tests d1 Hds) as (_ & -> & _).
    destruct (Z.eqb_spec (48 + d1) 120); [unfold digit in Hds; lia|].
    rewrite andb_false_r. by destruct (map _ ds ++ bytes " "). }
  change (48 + d0 :: map (fun d => 48 + d) ds ++ bytes " ")
    with (map (fun d => 48 + d) (d0 :: ds) ++ bytes " ").
  rewrite readMantissa_digits by done.
  done.
Qed.


(** A substring that starts with a non-digit is not found inside a
    numeral. *)
Lemma Contains_numeral (ds : list Z) (rest : string) (c : ascii) (sub : string) :
  Forall digit ds -> isDigit (code c) = false ->
  Contains (numeral ds +:+ rest) (String c sub) = Contains rest (String c sub).
Proof.
  intros Hds Hc. induction Hds as [|d ds Hd Hds IH]; [done|].
  change (numeral (d :: ds) +:+ rest)
    with (String (ascii_of_N (Z.to_N (48 + d))) (numeral ds +:+ rest)).
  cbn [Contains HasPrefix]. rewrite IH.
  destruct (Ascii.eqb_spec (ascii_of_N (Z.to_N (48 + d))) c) as [<-|]; [|done].
  unfold code in Hc. rewrite N_ascii_embedding in Hc by (unfold digit in Hd; lia).
  rewrite Z2N.id in Hc by (unfold digit in Hd; lia).
  destruct (digit_tests d Hd) as (Hdig & _). congruence.
Qed.

End NumeralFacts.

(** ** The collector *)

Module CollectorFacts.
Import GoStrings Strconv Collector Numerals CollectorSpec GoStringsFacts.

Section FillSlice.
Context {A B : Type} (zero : B) (f : A -> B).

(** The loop invariant: the slots before the index hold the converted
    elements, the others still hold the zero value. *)
Lemma fill_from (filled : list B) (l : list A) :
  foldl (assign f) (filled ++ replicate (length l) zero)
        (imap (fun i x => (length filled + i, x)%nat) l)
  = filled ++ map f l.
Proof.
  revert filled. induction l as [|x l IH]; intros filled; simpl; [done|].
  unfold assign at 2. simpl.
  rewrite insert_app_r. simpl.
  rewrite !(cons_middle (f x) filled), !app_assoc.
  rewrite <- (IH (filled ++ [f x])). f_equal.
  apply imap_ext. intros i y _. simpl.
  rewrite length_app. simpl. f_equal. lia.
Qed.

Lemma fillSlice_map (l : list A) : fillSlice zero f l = map f l.
Proof. exact (fill_from [] l). Qed.
End FillSlice.

(** C9. A decoded tool output always converts, to one record per device
    node in the order of the nodes (the identifiers come out in input
    order), and an output without device nodes gives the empty sequence,
    not an error. *)
Theorem parser_order_and_emptiness `{Target} (smi : SMIOutput.t) (n : Z) :
  getGPUInfoFromNvidiaSmi (XmlDecoded smi)
    = inl (map convertGPU (SMIOutput.GPUs smi))
  /\ map GPUInfo.ID (map convertGPU (SMIOutput.GPUs smi))
     = map GPU.ID (SMIOutput.GPUs smi)
  /\ length (map convertGPU (SMIOutput.GPUs smi))
     = length (SMIOutput.GPUs smi)
  /\ getGPUInfoFromNvidiaSmi (XmlDecoded (SMIOutput.mk n [])) = inl [].
Proof.
  repeat split.
  - unfold getGPUInfoFromNvidiaSmi. by rewrite fillSlice_map.
  - rewrite map_map. by apply map_ext.
  - apply length_map.
  Qed.


(** *** Utilisation *)

(** C6, counterexample. "150 %" has the form [<number> %] and its result,
    150, is outside [0,100]. *)
Lemma utilization_not_clamped :
  parseUtilization "150 %" = float64_of_Z 150
  /\ inPercentRange (parseUtilization "150 %") = false.
Proof. split; vm_compute; reflexivity. Qed.

(** C6, amended. For every string [<number> %] the result is the binary64
    [ParseFloat] gives for the number (0 when it is malformed), without
    clamping; for the whole percentages 0 to 100 it is that number and
    lies in [0,100]. *)
Theorem utilization_is_parsed_number (num : string) :
  parseUtilization (num +:+ " %") = fst (ParseFloat num)
  /\ Forall (fun n => parseUtilization (Itoa n +:+ " %") = float64_of_Z n
                      /\ inPercentRange (parseUtilization (Itoa n +:+ " %")) = true)
            (map Z.of_nat (seq 0 101)).
Proof.
  split.
  - unfold parseUtilization.
    by rewrite HasSuffix_app_same, TrimSuffix_app.
  - set (l := map Z.of_nat (seq 0 101)). vm_compute in l. subst l.
    repeat (apply Forall_cons; split;
            [split; vm_compute; reflexivity|]).
    apply Forall_nil. done.
Qed.


(** *** Suffix tests and syntax errors *)

(** Decide the suffix tests between string literals. *)
Ltac closed_suffix_tests :=
  repeat match goal with
         | |- context [HasSuffix (String ?c ?a) ?b] =>
             let v := eval vm_compute in (HasSuffix (String c a) b) in
             change (HasSuffix (String c a) b) with v
         end;
  cbv iota.


(** *** Whole numbers with a unit *)

Section WholeNumbers.
Import NumeralFacts Float64Facts.
Context `{Target}.
Variable ds : list Z.
Hypothesis ds_nonempty : ds <> [].
Hypothesis ds_digits : Forall digit ds.

Ltac whole_bounds :=
  change (2 ^ 53) with 9007199254740992 in *; cbv zeta; lia.

Lemma numeral_value_nonneg : 0 <= numeralValue ds.
Proof. by apply foldl_digits_nonneg. Qed.

(** The numeral followed by a suffix that ends in a letter has no white
    space to trim. *)
Lemma TrimSpace_numeral (suffix : string) :
  (forall l, spaceAtEnd (rev (bytes suffix) ++ l) = 0%nat) ->
  TrimSpace (numeral ds +:+ suffix) = numeral ds +:+ suffix.
Proof.
  intros Hend. apply TrimSpace_id; rewrite bytes_app.
  - rewrite bytes_numeral by done. destruct ds as [|d0 ds']; [done|].
    cbn [map app]. apply spaceAt_digit. by apply Forall_inv in ds_digits.
  - rewrite rev_app_distr. apply Hend.
Qed.

Lemma parsePowerValue_whole_watts :
  numeralValue ds * 1000 < 2 ^ 53 ->
  parsePowerValue (numeral ds +:+ " W") = numeralValue ds * 1000.
Proof.
  intros Hv. pose proof numeral_value_nonneg as Hpos.
  unfold parsePowerValue. rewrite TrimSpace_numeral by done.
  rewrite (HasSuffix_app (numeral ds) " W" "W") by (simpl; lia).
  closed_suffix_tests.
  rewrite (TrimSuffix_app (numeral ds) " W"), ParseFloat_numeral by (done || whole_bounds).
  cbn [fst].
  rewrite fmul_exact_Z by whole_bounds.
  apply uint64_of_Z. whole_bounds.
Qed.

Lemma parseMemoryValue_whole_KiB :
  numeralValue ds * 1024 < 2 ^ 53 ->
  parseMemoryValue (numeral ds +:+ " KiB") = numeralValue ds * 1024.
Proof.
  intros Hv. pose proof numeral_value_nonneg as Hpos.
  unfold parseMemoryValue. rewrite TrimSpace_numeral by done.
  rewrite (HasSuffix_app (numeral ds) " KiB" "MiB"),
    (HasSuffix_app (numeral ds) " KiB" "GiB"),
    (HasSuffix_app (numeral ds) " KiB" "KiB") by (simpl; lia).
  closed_suffix_tests.
  rewrite (TrimSuffix_app (numeral ds) " KiB"), ParseFloat_numeral by (done || whole_bounds).
  cbn [fst].
  rewrite fmul_exact_Z by whole_bounds.
  apply uint64_of_Z. whole_bounds.
Qed.

Lemma parseMemoryValue_whole_MiB :
  numeralValue ds * 1024 * 1024 < 2 ^ 53 ->
  parseMemoryValue (numeral ds +:+ " MiB") = numeralValue ds * 1024 * 1024.
Proof.
  intros Hv. pose proof numeral_value_nonneg as Hpos.
  unfold parseMemoryValue. rewrite TrimSpace_numeral by done.
  rewrite (HasSuffix_app (numeral ds) " MiB" "MiB") by (simpl; lia).
  closed_suffix_tests.
  rewrite (TrimSuffix_app (numeral ds) " MiB"), ParseFloat_numeral by (done || whole_bounds).
  cbn [fst].
  rewrite (fmul_exact_Z (numeralValue ds) 1024) by whole_bounds.
  rewrite fmul_exact_Z by whole_bounds.
  apply uint64_of_Z. whole_bounds.
Qed.

Lemma parseMemoryValue_whole_GiB :
  numeralValue ds * 1024 * 1024 * 1024 < 2 ^ 53 ->
  parseMemoryValue (numeral ds +:+ " GiB") = numeralValue ds * 1024 * 1024 * 1024.
Proof.
  intros Hv. pose proof numeral_value_nonneg as Hpos.
  unfold parseMemoryValue. rewrite TrimSpace_numeral by done.
  rewrite (HasSuffix_app (numeral ds) " GiB" "MiB"),
    (HasSuffix_app (numeral ds) " GiB" "GiB") by (simpl; lia).
  closed_suffix_tests.
  rewrite (TrimSuffix_app (numeral ds) " GiB"), ParseFloat_numeral by (done || whole_bounds).
  cbn [fst].
  rewrite (fmul_exact_Z (numeralValue ds) 1024) by whole_bounds.
  rewrite (fmul_exact_Z (numeralValue ds * 1024) 1024) by whole_bounds.
  rewrite fmul_exact_Z by whole_bounds.
  apply uint64_of_Z. whole_bounds.
Qed.

(** The byte unit after a blank: the number handed to [ParseFloat] keeps
    the blank, so every whole number of bytes is normalised to 0. *)
Lemma parseMemoryValue_blank_B_zero :
  parseMemoryValue (numeral ds +:+ " B") = 0.
Proof.
  unfold parseMemoryValue. rewrite TrimSpace_numeral by done.
  assert (forall c, HasSuffix (numeral ds +:+ " B") (String c "iB") = false) as Hunit.
  { intros c. destruct (HasSuffix _ (String c "iB")) eqn:E; [|done].
    apply HasSuffix_tail in E.
    by rewrite (HasSuffix_app (numeral ds) " B" "iB") in E by (simpl; lia). }
  rewrite (Hunit "M"%char), (Hunit "G"%char), (Hunit "K"%char).
  rewrite (HasSuffix_app (numeral ds) " B" "B") by (simpl; lia).
  rewrite Contains_numeral by done.
  closed_suffix_tests.
  change (Contains " B" "iB") with false. cbn [negb andb].
  change " B" with (" " +:+ "B"). rewrite <- append_assoc, TrimSuffix_app.
  by rewrite ParseFloat_numeral_blank.
Qed.

End WholeNumbers.

(** C2. On whole numbers the KiB, MiB and GiB branches give the number
    times 1024, 1024^2 and 1024^3, but the byte branch strips "B" and not
    the blank before it, hands [ParseFloat] a number that ends in a blank
    and gives 0: [<number> B] is never read as bytes.  Without the blank,
    "512B" gives 512. *)
Theorem memory_units_on_whole_numbers `{Target} (ds : list Z) :
  ds <> [] -> Forall digit ds ->
  let n := numeralValue ds in
  let number := numeral ds in
  n * 1024 * 1024 * 1024 < 2 ^ 53 ->
  parseMemoryValue (number +:+ " KiB") = n * 1024
  /\ parseMemoryValue (number +:+ " MiB") = n * 1024 * 1024
  /\ parseMemoryValue (number +:+ " GiB") = n * 1024 * 1024 * 1024
  /\ parseMemoryValue (number +:+ " B") = 0
  /\ TrimSuffix (number +:+ " B") "B" = number +:+ " "
  /\ ParseFloat (number +:+ " ") = (S754_zero false, Some ErrSyntax)
  /\ parseMemoryValue "512B" = 512
  /\ parseMemoryValue "1024 MiB" = 1073741824
  /\ parseMemoryValue "1 GiB" = 1073741824.
Proof.
  intros Hne Hds n number Hn.
  assert (0 <= n) by (by apply NumeralFacts.foldl_digits_nonneg).
  split_and!.
  - apply parseMemoryValue_whole_KiB; [done..|]. fold n. lia.
  - apply parseMemoryValue_whole_MiB; [done..|]. fold n. lia.
  - by apply parseMemoryValue_whole_GiB.
  - by apply parseMemoryValue_blank_B_zero.
  - change " B" with (" " +:+ "B").
    by rewrite <- append_assoc, TrimSuffix_app.
  - by apply NumeralFacts.ParseFloat_numeral_blank.
  - vm_compute. reflexivity.
  - vm_compute. reflexivity.
  - vm_compute. reflexivity.
Qed.

Lemma memory_units_on_whole_numbers_witness :
  @parseMemoryValue saturating "512 KiB" = 512 * 1024
  /\ @parseMemoryValue saturating "512 MiB" = 512 * 1024 * 1024
  /\ @parseMemoryValue saturating "512 GiB" = 512 * 1024 * 1024 * 1024
  /\ @parseMemoryValue saturating "512 B" = 0
  /\ TrimSuffix "512 B" "B" = "512 "
  /\ ParseFloat "512 " = (S754_zero false, Some ErrSyntax)
  /\ @parseMemoryValue saturating "512B" = 512
  /\ @parseMemoryValue saturating "1024 MiB" = 1073741824
  /\ @parseMemoryValue saturating "1 GiB" = 1073741824.
Proof.
  apply (@memory_units_on_whole_numbers saturating [5; 1; 2]).
  - discriminate.
  - repeat constructor; unfold digit; lia.
  - vm_compute. reflexivity.
Defined.

(** C8. On whole numbers of watts the result is the number times 1000,
    and "250.00 W" gives 250000; but the product of the parsed binary64
    and 1000 is truncated, not rounded.  1.001 is stored as
    1.000999999999999889..., its product with 1000 rounds to
    1000.99999999999988... and "1.001 W" gives 1000 milliwatts; likewise
    "2.01 W" gives 2009 and "32.01 W" gives 32009.  "N/A" and the empty
    string give 0, a bare number is taken as watts, other strings give
    0. *)
Theorem watts_to_milliwatts `{Target} (ds : list Z) :
  ds <> [] -> Forall digit ds ->
  let n := numeralValue ds in
  n * 1000 < 2 ^ 53 ->
  parsePowerValue (numeral ds +:+ " W") = n * 1000
  /\ parsePowerValue "250.00 W" = 250000
  /\ parsePowerValue "1.001 W" = 1000
  /\ fmul (fst (ParseFloat "1.001")) (float64_of_Z 1000)
     = S754_finite false 8804889115230207 (-43)
  /\ parsePowerValue "2.01 W" = 2009
  /\ parsePowerValue "32.01 W" = 32009
  /\ parsePowerValue "N/A" = 0
  /\ parsePowerValue "" = 0
  /\ parsePowerValue "35" = 35000
  /\ parsePowerValue "watts" = 0.
Proof.
  intros Hne Hds n Hn.
  split; [by apply parsePowerValue_whole_watts|].
  repeat split; vm_compute; reflexivity.
Qed.

Lemma watts_to_milliwatts_witness :
  @parsePowerValue saturating "250 W" = 250 * 1000
  /\ @parsePowerValue saturating "250.00 W" = 250000
  /\ @parsePowerValue saturating "1.001 W" = 1000
  /\ fmul (fst (ParseFloat "1.001")) (float64_of_Z 1000)
     = S754_finite false 8804889115230207 (-43)
  /\ @parsePowerValue saturating "2.01 W" = 2009
  /\ @parsePowerValue saturating "32.01 W" = 32009
  /\ @parsePowerValue saturating "N/A" = 0
  /\ @parsePowerValue saturating "" = 0
  /\ @parsePowerValue saturating "35" = 35000
  /\ @parsePowerValue saturating "watts" = 0.
Proof.
  apply (@watts_to_milliwatts saturating [2; 5; 0]).
  - discriminate.
  - repeat constructor; unfold digit; lia.
  - vm_compute. reflexivity.
Defined.

End CollectorFacts.

(** ** Process ranking *)

Module RankingFacts.
Import GoStrings Strconv Ranking RankingSpec.

(** *** The functional counterpart of the swap loop *)

Lemma insertBack_length x r : length (insertBack x r) = S (length r).
Proof.
  induction r as [|y r IH]; simpl; [done|].
  destruct (memKey y <? memKey x); simpl; by rewrite ?IH.
Qed.

Lemma insertBack_perm x r : insertBack x r ≡ₚ x :: r.
Proof.
  induction r as [|y r IH]; simpl; [done|].
  destruct (memKey y <? memKey x); [|done].
  rewrite IH. apply Permutation_swap.
Qed.

Lemma insertBack_Forall (P : Process -> Prop) x r :
  P x -> Forall P r -> Forall P (insertBack x r).
Proof. intros Hx Hr. rewrite insertBack_perm. by constructor. Qed.

Lemma insertBack_sorted x r :
  StronglySorted ascending r -> StronglySorted ascending (insertBack x r).
Proof.
  induction 1 as [|y r Hs IH Hy]; simpl.
  - repeat constructor.
  - destruct (Z.ltb_spec (memKey y) (memKey x)) as [Hlt|Hge].
    + constructor; [done|]. apply insertBack_Forall; [|done].
      unfold ascending. lia.
    + constructor; [by constructor|].
      constructor; [unfold ascending; lia|].
      eapply Forall_impl; [exact Hy|]. unfold ascending. intros; simpl in *; lia.
  Qed.

(** [x] never passes an element of equal key. *)
Lemma insertBack_filter (k : Z) x r :
  filter (fun p => memKey p = k) (insertBack x r)
  = filter (fun p => memKey p = k) [x] ++ filter (fun p => memKey p = k) r.
Proof.
  induction r as [|y r IH]; simpl; [by rewrite app_nil_r|].
  destruct (Z.ltb_spec (memKey y) (memKey x)) as [Hlt|Hge].
  - rewrite (filter_cons _ y (insertBack x r)), IH.
    rewrite (filter_cons _ y r), (filter_cons _ x []), filter_nil.
    repeat case_decide; simpl; (done || lia).
  - rewrite (filter_cons _ x (y :: r)), (filter_cons _ x []), filter_nil.
    by case_decide.
Qed.

Lemma insertAll_perm todo r : insertAll r todo ≡ₚ todo ++ r.
Proof.
  revert r. induction todo as [|x todo IH]; intros r; simpl; [done|].
  unfold insertAll in *. simpl. rewrite IH, insertBack_perm.
  by rewrite Permutation_middle.
Qed.

Lemma insertAll_sorted todo r :
  StronglySorted ascending r -> StronglySorted ascending (insertAll r todo).
Proof.
  revert r. induction todo as [|x todo IH]; intros r Hr; simpl; [done|].
  apply IH, insertBack_sorted, Hr.
Qed.

Lemma insertAll_filter (k : Z) todo r :
  filter (fun p => memKey p = k) (insertAll r todo)
  = reverse (filter (fun p => memKey p = k) todo)
    ++ filter (fun p => memKey p = k) r.
Proof.
  revert r. induction todo as [|x todo IH]; intros r; [done|].
  unfold insertAll in *. simpl. rewrite IH, insertBack_filter.
  rewrite (filter_cons _ x todo), filter_cons, filter_nil.
  case_decide; simpl; [|done].
  by rewrite reverse_cons, <- app_assoc.
Qed.

Lemma StronglySorted_reverse (l : list Process) :
  StronglySorted ascending l -> StronglySorted descending (reverse l).
Proof.
  induction 1 as [|x l Hs IH Hx]; [constructor|].
  rewrite reverse_cons. apply StronglySorted_app_2; [|done|repeat constructor].
  intros y z Hy Hz. apply list_elem_of_singleton in Hz as ->.
  rewrite elem_of_reverse in Hy.
  rewrite Forall_forall in Hx. exact (Hx y Hy).
Qed.

Lemma byKeyDescending_perm l : byKeyDescending l ≡ₚ l.
Proof.
  unfold byKeyDescending.
  by rewrite reverse_Permutation, insertAll_perm, app_nil_r.
Qed.

Lemma byKeyDescending_sorted l : StronglySorted descending (byKeyDescending l).
Proof. apply StronglySorted_reverse, insertAll_sorted. constructor. Qed.

Lemma byKeyDescending_stable (k : Z) l :
  filter (fun p => memKey p = k) (byKeyDescending l)
  = filter (fun p => memKey p = k) l.
Proof.
  unfold byKeyDescending.
  by rewrite filter_reverse, insertAll_filter, filter_nil, app_nil_r,
       reverse_involutive.
Qed.


(** *** The swap loop computes it *)

Lemma less_fielded data k l pk pl :
  data !! k = Some pk -> data !! l = Some pl ->
  fielded pk -> fielded pl ->
  less data k l = Ok (memKey pl <? memKey pk).
Proof.
  unfold less, index, fielded, hasField, memKey.
  intros -> -> Hk Hl. simpl.
  destruct (Fields (UsedMemory pk)) as [|fk ?]; [done|].
  destruct (Fields (UsedMemory pl)) as [|fl ?]; [done|].
  reflexivity.
Qed.

Lemma swap_adjacent (front : list Process) y x rest :
  swap (front ++ y :: x :: rest) (S (length front)) (length front)
  = Ok (front ++ x :: y :: rest).
Proof.
  unfold swap, index.
  rewrite (lookup_app_r front _ (S (length front))) by lia.
  replace (S (length front) - length front)%nat with 1%nat by lia.
  rewrite list_lookup_middle by done. simpl.
  replace (length front) with (length front + 0)%nat at 2 by lia.
  rewrite insert_app_r. simpl.
  replace (S (length front)) with (length front + 1)%nat by lia.
  by rewrite insert_app_r.
Qed.

Lemma sift_spec r x rest :
  Forall fielded r -> fielded x ->
  sift (reverse r ++ x :: rest) (length r)
  = Ok (reverse (insertBack x r) ++ rest).
Proof.
  intros Hr Hx. revert rest.
  induction Hr as [|y r Hy Hr IH]; intros rest; [done|].
  cbn [length sift insertBack].
  rewrite reverse_cons, <- app_assoc. cbn [app].
  assert (length (reverse r) = length r) as Hlen by apply length_reverse.
  rewrite (less_fielded _ _ _ x y); [| |by rewrite <- Hlen; apply list_lookup_middle|done|done].
  2:{ rewrite lookup_app_r by lia. rewrite Hlen.
      by replace (S (length r) - length r)%nat with 1%nat by lia. }
  cbn [bind].
  destruct (memKey y <? memKey x).
  - rewrite <- Hlen at 1 2. rewrite swap_adjacent. cbn [bind].
    rewrite <- Hlen, length_reverse, IH.
    by rewrite reverse_cons, <- app_assoc.
  - by rewrite !reverse_cons, <- !app_assoc.
Qed.

Lemma insertionSort_spec todo r :
  Forall fielded r -> Forall fielded todo ->
  insertionSort (reverse r ++ todo) (length r) (length todo)
  = Ok (reverse (insertAll r todo)).
Proof.
  intros Hr Htodo. revert r Hr.
  induction Htodo as [|x todo Hx Htodo IH]; intros r Hr.
  - by rewrite app_nil_r.
  - cbn [length insertionSort]. rewrite sift_spec by done. cbn [bind].
    rewrite <- (insertBack_length x r).
    apply IH, insertBack_Forall; done.
Qed.

Section Sorted.
Variable sortLong : list Process -> Result (list Process).
Variable getUsernameFromPid : string -> string.

Lemma sortSlice_spec (data : list Process) :
  (length data <= insertionOnly)%nat -> Forall fielded data ->
  sortSlice sortLong data = Ok (byKeyDescending data).
Proof.
  intros Hlen Hdata. unfold sortSlice.
  destruct (Nat.leb_spec (length data) insertionOnly); [|lia].
  destruct Hdata as [|x rest Hx Hrest]; [done|].
  cbn [length]. replace (S (length rest) - 1)%nat with (length rest) by lia.
  apply (insertionSort_spec rest [x]); [by constructor | done].
Qed.

Lemma setUsername_key p : memKey (setUsername getUsernameFromPid p) = memKey p.
Proof. done. Qed.

Lemma setUsername_fielded l :
  Forall fielded l -> Forall fielded (map (setUsername getUsernameFromPid) l).
Proof. intros Hl. apply Forall_fmap. eapply Forall_impl; [exact Hl|done]. Qed.

End Sorted.


(** *** The handler's loop body *)

(** C3, counterexample. Two processes reported as "500 MiB" and "1 GiB":
    the comparator reads the keys 500 and 1, so the handler keeps the
    500 MiB process in front of the 1 GiB one, which uses more memory.
    And seven processes, six of them with the same key: under the
    algorithm of Go 1.16-1.18 the two kept are the last and the second
    reported, not the second and the third, so ties are not kept in
    report order.  And a process whose [used_memory] has no first field
    ends the request in a panic instead of being ranked. *)
Lemma ranking_ignores_unit :
  let small := processUsing "500 MiB" in
  let big := processUsing "1 GiB" in
  let owner := fun _ : string => "root" in
  let numbered (pid mem : string) :=
    {| Pid := pid; ProcessName := "python"; UsedMemory := mem; Username := "" |} in
  rankProcesses Ok owner [small; big]
  = Ok [setUsername owner small; setUsername owner big]
  /\ @Collector.parseMemoryValue Collector.saturating (UsedMemory small)
     < @Collector.parseMemoryValue Collector.saturating (UsedMemory big)
  /\ rankProcesses sortSliceGo116 (fun _ => "")
       [numbered "0" "1 MiB"; numbered "1" "5 MiB"; numbered "2" "5 MiB";
        numbered "3" "5 MiB"; numbered "4" "5 MiB"; numbered "5" "5 MiB";
        numbered "6" "5 MiB"]
     = Ok [numbered "6" "5 MiB"; numbered "1" "5 MiB"]
  /\ rankProcesses Ok owner [processUsing "512 MiB"; processUsing ""]
     = Panic "runtime error: index out of range [0] with length 0".
Proof. repeat split; vm_compute; reflexivity. Qed.

(** *** The gap pass of Go 1.16-1.18 *)

Lemma insert_head_perm (l : list Process) (j : nat) (a y : Process) :
  l !! j = Some y -> y :: <[j := a]> l ≡ₚ a :: l.
Proof.
  intros Hj. rewrite insert_take_drop by (by eapply lookup_lt_Some).
  rewrite <- (take_drop_middle l j y Hj) at 3.
  rewrite <- !Permutation_middle. apply perm_swap.
Qed.

Lemma swap_perm (data : list Process) :
  forall i j x y, data !! i = Some x -> data !! j = Some y ->
  <[i := y]> (<[j := x]> data) ≡ₚ data.
Proof.
  induction data as [|a data IH]; intros [|i] [|j] x y Hi Hj; simpl in *;
    try done.
  - by injection Hi as ->; injection Hj as ->.
  - injection Hi as ->. by apply insert_head_perm.
  - injection Hj as ->. by apply insert_head_perm.
  - apply perm_skip. by eapply IH.
Qed.

Lemma swap_Ok (data : list Process) (i j : nat) (x y : Process) :
  data !! i = Some x -> data !! j = Some y ->
  swap data i j = Ok (<[i := y]> (<[j := x]> data)).
Proof. intros Hi Hj. unfold swap, index. by rewrite Hi, Hj. Qed.

Lemma gapPass_perm (steps : nat) :
  forall data i,
    Forall fielded data -> (6 <= i)%nat -> (i + steps <= length data)%nat ->
    exists data', gapPass data i steps = Ok data' /\ data' ≡ₚ data.
Proof.
  induction steps as [|steps IH]; intros data i Hf Hi Hlen; simpl.
  - by exists data.
  - destruct (lookup_lt_is_Some_2 data i) as [x Hx]; [lia|].
    destruct (lookup_lt_is_Some_2 data (i - 6)) as [y Hy]; [lia|].
    rewrite Forall_lookup in Hf.
    rewrite (less_fielded data i (i - 6) x y) by eauto. simpl.
    destruct (memKey y <? memKey x).
    + rewrite (swap_Ok data i (i - 6) x y) by done. simpl.
      pose proof (swap_perm data i (i - 6) x y Hx Hy) as Hperm.
      destruct (IH (<[i := y]> (<[(i - 6)%nat := x]> data)) (S i))
        as (data' & -> & Hperm').
      * by rewrite Hperm, Forall_lookup.
      * lia.
      * rewrite !length_insert. lia.
      * exists data'. split; [done|]. by rewrite Hperm'.
    + simpl. apply IH; [by rewrite Forall_lookup|lia|lia].
Qed.

Lemma insertionSort_sorts (data : list Process) :
  Forall fielded data ->
  insertionSort data 1 (length data - 1) = Ok (byKeyDescending data).
Proof.
  intros Hdata. destruct Hdata as [|x rest Hx Hrest]; [done|].
  cbn [length]. replace (S (length rest) - 1)%nat with (length rest) by lia.
  apply (insertionSort_spec rest [x]); [by constructor | done].
Qed.

(** The algorithm of Go 1.16-1.18 for slices of 7 to 12 elements keeps
    the promise of [sort.Slice]. *)
Lemma sortSliceGo116_sorts : sortsByKey sortSliceGo116.
Proof.
  intros data Hf. unfold sortSliceGo116.
  destruct (Nat.le_gt_cases 6 (length data)) as [Hlong|Hshort].
  - destruct (gapPass_perm (length data - 6) data 6 Hf) as (data' & -> & Hperm);
      [lia..|].
    simpl. exists (byKeyDescending data').
    rewrite <- (Permutation_length Hperm).
    rewrite insertionSort_sorts by (by rewrite Hperm).
    split_and!; [done| |apply byKeyDescending_sorted].
    by rewrite byKeyDescending_perm.
  - replace (length data - 6)%nat with 0%nat by lia. simpl.
    exists (byKeyDescending data).
    rewrite insertionSort_sorts by done.
    split_and!; [done|apply byKeyDescending_perm|apply byKeyDescending_sorted].
Qed.

(** C3, amended. For a device whose [used_memory] strings all have a
    first field, the processes are ordered by the integer [Atoi] reads
    in that first field (0 when it is not an integer), largest first,
    whatever the unit, and the list is then cut to its first 2 entries;
    processes of equal key keep their report order when the device has
    at most 6 processes.  Up to 6 processes [sort.Slice] is the insertion
    sort embedded here; beyond, it is the algorithm of the release, of
    which the statement uses what the library promises, [sortsByKey].
    Keys 500, 3000, 1000 give 3000, 1000. *)
Theorem ranking_by_leading_integer
        (sortLong : list Process -> Result (list Process))
        (getUsernameFromPid : string -> string) (procs : list Process) :
  (length procs <= insertionOnly)%nat \/ sortsByKey sortLong ->
  Forall fielded procs ->
  let tagged := map (setUsername getUsernameFromPid) procs in
  (exists sorted,
      sortSlice sortLong tagged = Ok sorted
      /\ sorted ≡ₚ tagged
      /\ StronglySorted descending sorted
      /\ ((length procs <= insertionOnly)%nat ->
          forall k : Z, filter (fun p => memKey p = k) sorted
                        = filter (fun p => memKey p = k) tagged)
      /\ rankProcesses sortLong getUsernameFromPid procs = Ok (take 2 sorted)
      /\ length (take 2 sorted) = Nat.min 2 (length procs))
  /\ rankProcesses sortLong getUsernameFromPid
       (map processUsing ["500 MiB"; "3000 MiB"; "1000 MiB"])
     = Ok (map (fun m => setUsername getUsernameFromPid (processUsing m))
               ["3000 MiB"; "1000 MiB"]).
Proof.
  intros Hsort Hfields tagged. split; [|vm_compute; reflexivity].
  assert (Forall fielded tagged) as Htagged by (by apply setUsername_fielded).
  assert (exists sorted,
             sortSlice sortLong tagged = Ok sorted
             /\ sorted ≡ₚ tagged
             /\ StronglySorted descending sorted
             /\ ((length procs <= insertionOnly)%nat ->
                 forall k : Z, filter (fun p => memKey p = k) sorted
                               = filter (fun p => memKey p = k) tagged))
    as (sorted & Hsorted & Hperm & Hdesc & Hstable).
  { destruct (Nat.le_gt_cases (length procs) insertionOnly) as [Hshort|Hlong].
    - exists (byKeyDescending tagged). split_and!.
      + apply sortSlice_spec; [by unfold tagged; rewrite length_map|done].
      + apply byKeyDescending_perm.
      + apply byKeyDescending_sorted.
      + intros _ k. apply byKeyDescending_stable.
    - destruct Hsort as [Hshort|Hsort]; [lia|].
      destruct (Hsort tagged Htagged) as (sorted & Hsorted & Hperm & Hdesc).
      exists sorted. split_and!; [|done..|lia].
      unfold sortSlice. unfold tagged at 1. rewrite length_map.
      destruct (Nat.leb_spec (length procs) insertionOnly); [lia|done]. }
  exists sorted. split_and!; [done..| |].
  - unfold rankProcesses. fold tagged. rewrite Hsorted. cbn [bind].
    destruct (Nat.ltb_spec 2 (length sorted)); [done|].
    by rewrite take_ge by lia.
  - rewrite length_take, (Permutation_length Hperm). unfold tagged.
    by rewrite length_map.
Qed.

Lemma ranking_by_leading_integer_witness :
  let numbered (pid mem : string) :=
    {| Pid := pid; ProcessName := "python"; UsedMemory := mem; Username := "" |} in
  let owner := fun _ : string => "root" in
  let procs :=
    [numbered "0" "1 MiB"; numbered "1" "5 MiB"; numbered "2" "700 MiB";
     numbered "3" "5 MiB"; numbered "4" "12 GiB"; numbered "5" "5 MiB";
     numbered "6" "30 MiB"] in
  sortsByKey sortSliceGo116
  /\ (exists sorted,
        sortSlice sortSliceGo116 (map (setUsername owner) procs) = Ok sorted
        /\ sorted ≡ₚ map (setUsername owner) procs
        /\ StronglySorted descending sorted
        /\ ((length procs <= insertionOnly)%nat ->
            forall k : Z, filter (fun p => memKey p = k) sorted
                          = filter (fun p => memKey p = k)
                                   (map (setUsername owner) procs))
        /\ rankProcesses sortSliceGo116 owner procs = Ok (take 2 sorted)
        /\ length (take 2 sorted) = Nat.min 2 (length procs))
  /\ rankProcesses sortSliceGo116 owner
       (map processUsing ["500 MiB"; "3000 MiB"; "1000 MiB"])
     = Ok (map (fun m => setUsername owner (processUsing m))
               ["3000 MiB"; "1000 MiB"]).
Proof.
  intros numbered owner procs.
  split; [apply sortSliceGo116_sorts|].
  apply (ranking_by_leading_integer sortSliceGo116 owner procs).
  - right. apply sortSliceGo116_sorts.
  - repeat constructor.
Defined.


(** C10. The comparator indexes field 0 of [used_memory] unchecked.  A
    device reporting two processes, one of them with an empty or an
    all-blank [used_memory], makes the handler panic with an index out
    of range, whatever the owner lookup answers. *)
Theorem empty_used_memory_panics
        (sortLong : list Process -> Result (list Process))
        (getUsernameFromPid : string -> string) :
  let device (mem : string) :=
    {| ID := "00000000:01:00.0"; ProductName := "NVIDIA A100";
       MemoryTotal := "40960 MiB"; MemoryUsed := "512 MiB";
       Utilization := "45 %"; PowerDraw := "250.00 W";
       Processes := [processUsing "512 MiB"; processUsing mem] |} in
  Fields "" = [] /\ Fields "   " = []
  /\ gpuInfoHandler sortLong getUsernameFromPid (SmiDecoded [device ""])
     = Panicked "runtime error: index out of range [0] with length 0"
  /\ gpuInfoHandler sortLong getUsernameFromPid (SmiDecoded [device "   "])
     = Panicked "runtime error: index out of range [0] with length 0"
  /\ (exists gpus, gpuInfoHandler sortLong getUsernameFromPid
                     (SmiDecoded [device "256 MiB"]) = Json gpus).
Proof.
  repeat split; try (vm_compute; reflexivity).
  eexists. vm_compute. reflexivity.
Qed.


(** Beyond 6 processes the order of ties depends on the release.  With
    the algorithm of Go 1.16-1.18, seven processes of keys 1, 5, 5, 5, 5,
    5, 5 are answered with the seventh and the second: the gap pass moves
    the seventh past five processes of its own key. *)
Lemma ties_reordered_by_gap_pass :
  let numbered (pid mem : string) :=
    {| Pid := pid; ProcessName := "python"; UsedMemory := mem; Username := "" |} in
  rankProcesses sortSliceGo116 (fun _ => "")
    [numbered "0" "1 MiB"; numbered "1" "5 MiB"; numbered "2" "5 MiB";
     numbered "3" "5 MiB"; numbered "4" "5 MiB"; numbered "5" "5 MiB";
     numbered "6" "5 MiB"]
  = Ok [numbered "6" "5 MiB"; numbered "1" "5 MiB"].
Proof. vm_compute. reflexivity. Qed.

(** *** Panics of the comparator *)

Lemma unfielded_index (p : Process) :
  hasField p = false ->
  index (Fields (UsedMemory p)) 0 = Panic (outOfRange 0 0).
Proof. unfold hasField. by destruct (Fields (UsedMemory p)). Qed.

Lemma fielded_index (p : Process) :
  fielded p -> exists f, index (Fields (UsedMemory p)) 0 = Ok f.
Proof.
  unfold fielded, hasField. destruct (Fields (UsedMemory p)) as [|f ?]; [done|].
  by exists f.
Qed.

(** The sort reaches the first process without a field and panics there. *)
Lemma insertionSort_panics good bad rest r :
  r <> [] -> Forall fielded r -> Forall fielded good -> hasField bad = false ->
  insertionSort (reverse r ++ good ++ bad :: rest) (length r)
                (length (good ++ bad :: rest))
  = Panic (outOfRange 0 0).
Proof.
  intros Hne Hr Hgood Hbad. revert r Hne Hr.
  induction Hgood as [|x good Hx Hgood IH]; intros r Hne Hr.
  - destruct r as [|y r]; [done|].
    cbn [app length insertionSort sift].
    unfold less at 1.
    assert ((reverse (y :: r) ++ bad :: rest) !! S (length r) = Some bad) as Hk.
    { apply list_lookup_middle. by rewrite length_reverse. }
    unfold index at 1. rewrite Hk. cbn [bind].
    by rewrite unfielded_index.
  - cbn [app length insertionSort]. rewrite sift_spec by done. cbn [bind].
    rewrite <- (insertBack_length x r).
    apply IH; [|by apply insertBack_Forall].
    intros Hnil. pose proof (insertBack_length x r) as Hl. by rewrite Hnil in Hl.
Qed.

Lemma insertionSort_panics_first x0 x1 rest :
  hasField x0 = false ->
  insertionSort (x0 :: x1 :: rest) 1 (S (length rest)) = Panic (outOfRange 0 0).
Proof.
  intros H0. cbn [insertionSort sift]. unfold less, index at 1. cbn [lookup list_lookup bind].
  destruct (hasField x1) eqn:H1.
  - destruct (fielded_index x1 H1) as [f ->]. cbn [bind].
    unfold index at 1. cbn [lookup list_lookup bind].
    by rewrite unfielded_index.
  - by rewrite unfielded_index.
Qed.

Lemma first_unfielded (l : list Process) :
  Exists (fun p => hasField p = false) l ->
  exists good bad rest,
    l = good ++ bad :: rest /\ Forall fielded good /\ hasField bad = false.
Proof.
  induction l as [|x l IH]; intros Hex; [by apply Exists_nil in Hex|].
  destruct (hasField x) eqn:Hx.
  - apply Exists_cons in Hex as [Hex|Hex]; [congruence|].
    destruct (IH Hex) as (good & bad & rest & -> & Hgood & Hbad).
    exists (x :: good), bad, rest. split_and!; [done| |done].
    by constructor.
  - by exists [], x, l.
Qed.

(** A device with 2 to 6 processes, one of them with a [used_memory]
    that has no field, makes the loop body panic. *)
Lemma unfielded_process_panics
      (sortLong : list Process -> Result (list Process))
      (getUsernameFromPid : string -> string) (procs : list Process) :
  (2 <= length procs <= insertionOnly)%nat ->
  Exists (fun p => hasField p = false) procs ->
  rankProcesses sortLong getUsernameFromPid procs = Panic (outOfRange 0 0).
Proof.
  intros [Hmin Hmax] Hex. unfold rankProcesses, sortSlice.
  rewrite length_map.
  destruct (Nat.leb_spec (length procs) insertionOnly); [|lia].
  assert (Exists (fun p => hasField p = false)
                 (map (setUsername getUsernameFromPid) procs)) as Hex'.
  { apply Exists_fmap. eapply Exists_impl; [exact Hex|done]. }
  destruct (map (setUsername getUsernameFromPid) procs)
    as [|x0 [|x1 rest]] eqn:Hmap;
    [apply (f_equal length) in Hmap; rewrite length_map in Hmap; simpl in Hmap; lia..|].
  assert (length procs = S (S (length rest))) as ->.
  { apply (f_equal length) in Hmap. by rewrite length_map in Hmap. }
  replace (S (S (length rest)) - 1)%nat with (S (length rest)) by lia.
  destruct (hasField x0) eqn:H0.
  - apply Exists_cons in Hex' as [Hex'|Hex']; [congruence|].
    destruct (first_unfielded _ Hex') as (good & bad & rest' & Heq & Hgood & Hbad).
    rewrite Heq.
    replace (S (length rest)) with (length (good ++ bad :: rest'))
      by (by rewrite <- Heq).
    assert (Forall fielded [x0]) as Hx0 by (by repeat constructor).
    pose proof (insertionSort_panics good bad rest' [x0]
                  ltac:(done) Hx0 Hgood Hbad) as Hpanic.
    change (reverse [x0] ++ good ++ bad :: rest')
      with (x0 :: good ++ bad :: rest') in Hpanic.
    change (length [x0]) with 1%nat in Hpanic.
    by rewrite Hpanic.
  - by rewrite insertionSort_panics_first.
Qed.

End RankingFacts.

(** ** The registry *)

Module RegistryFacts.
Import Registry RegistrySpec.

(** *** What the writers leave in the store *)

Lemma updateNodeError_nodes a name msg now :
  nodes (updateNodeError a name msg now) = nodes a.
Proof. unfold updateNodeError. by destruct (nodes a !! name). Qed.

Lemma updateNodeError_heap a name msg now p :
  heap (updateNodeError a name msg now) !! p
  = if decide (nodes a !! name = Some p)
    then offlineRecord msg now <$> heap a !! p
    else heap a !! p.
Proof.
  unfold updateNodeError.
  destruct (nodes a !! name) as [q|] eqn:Hq; [|by case_decide].
  cbn [heap withHeap]. case_decide as Hp.
  - injection Hp as ->. rewrite !lookup_alter_eq.
    by destruct (heap a !! p).
  - rewrite !lookup_alter_ne by congruence. done.
Qed.

Lemma updateNodeStatus_nodes a node ex now :
  nodes (updateNodeStatus a node ex now) = nodes a.
Proof.
  destruct ex as [err|err|code [err|info]]; simpl;
    try apply updateNodeError_nodes.
  - destruct (negb (code =? StatusOK)); apply updateNodeError_nodes.
  - destruct (negb (code =? StatusOK)); [apply updateNodeError_nodes|].
    by destruct (nodes a !! Name node).
Qed.

Lemma updateNodeStatus_decoded_heap a node info now p :
  heap (updateNodeStatus a node (Responded StatusOK (Decoded info)) now) !! p
  = if decide (nodes a !! Name node = Some p)
    then onlineRecord info now <$> heap a !! p
    else heap a !! p.
Proof.
  simpl. destruct (nodes a !! Name node) as [q|] eqn:Hq; [|by case_decide].
  cbn [heap withHeap]. case_decide as Hp.
  - injection Hp as ->. rewrite !lookup_alter_eq.
    by destruct (heap a !! p).
  - rewrite !lookup_alter_ne by congruence. done.
Qed.

(** Every write leaves a record of the store as it was, or online, or
    offline with the message of the failure. *)
Lemma updateNodeStatus_heap a node ex now p st' :
  heap (updateNodeStatus a node ex now) !! p = Some st' ->
  heap a !! p = Some st'
  \/ (exists st info, heap a !! p = Some st /\ st' = onlineRecord info now st)
  \/ (exists st msg, heap a !! p = Some st /\ msg <> ""
                     /\ st' = offlineRecord msg now st).
Proof.
  assert (forall msg, msg <> "" ->
            heap (updateNodeError a (Name node) msg now) !! p = Some st' ->
            heap a !! p = Some st'
            \/ (exists st info, heap a !! p = Some st
                                /\ st' = onlineRecord info now st)
            \/ (exists st msg, heap a !! p = Some st /\ msg <> ""
                               /\ st' = offlineRecord msg now st)) as Herr.
  { intros msg Hmsg. rewrite updateNodeError_heap. case_decide; [|by left].
    destruct (heap a !! p) as [st|]; [|done]. simpl. intros [= <-].
    right; right. by exists st, msg. }
  destruct ex as [err|err|code [err|info]]; simpl.
  - by apply Herr.
  - by apply Herr.
  - destruct (negb (code =? StatusOK)); by apply Herr.
  - destruct (Z.eqb_spec code StatusOK) as [->|Hne]; simpl; [|by apply Herr].
    intros Hp. pose proof (updateNodeStatus_decoded_heap a node info now p) as Hd.
    simpl in Hd. rewrite Hp in Hd. case_decide; [|by left].
    destruct (heap a !! p) as [st|]; [|done]. injection Hd as ->.
    right; left. by exists st, info.
Qed.

(** *** Initialisation *)

Section Init.
Variable cfg : list NodeConfig.

Lemma alloc_fold (l : list (nat * NodeConfig)) (a : Aggregator) :
  allocated a -> allRecords isUnknown a ->
  allocated (foldl (allocate cfg) a l) /\ allRecords isUnknown (foldl (allocate cfg) a l)
  /\ forall name,
      (is_Some (nodes a !! name) \/ exists inode, inode ∈ l /\ Name (snd inode) = name) ->
      is_Some (nodes (foldl (allocate cfg) a l) !! name).
Proof.
  revert a. induction l as [|[i node] l IH]; intros a Ha Hu; simpl.
  - split_and!; [done..|]. intros name [H|(inode & Hin & _)]; [done|].
    by apply elem_of_nil in Hin.
  - destruct (IH (allocate cfg a (i, node))) as (IHa & IHu & IHn).
    + intros name p. unfold allocate; simpl.
      destruct (decide (Name node = name)) as [->|Hne].
      * rewrite lookup_insert_eq. intros [= <-]. rewrite lookup_insert_eq. eauto.
      * rewrite lookup_insert_ne by done. intros Hp.
        destruct (decide (i = p)) as [->|]; [rewrite lookup_insert_eq; eauto|].
        rewrite lookup_insert_ne by done. by eapply Ha.
    + intros p st. unfold allocate; simpl.
      destruct (decide (i = p)) as [->|].
      * rewrite lookup_insert_eq. intros [= <-]. by repeat split.
      * rewrite lookup_insert_ne by done. apply Hu.
    + split_and!; [done..|]. intros name Hname. apply IHn.
      unfold allocate; simpl.
      destruct (decide (Name node = name)) as [->|Hne].
      * left. rewrite lookup_insert_eq. eauto.
      * rewrite lookup_insert_ne by done.
        destruct Hname as [H|(inode & Hin & Hnm)]; [by left|].
        apply elem_of_cons in Hin as [->|Hin]; [done|].
        right. by exists inode.
Qed.

Lemma newAggregator_unknown :
  allocated (newAggregator cfg) /\ allRecords isUnknown (newAggregator cfg)
  /\ forall node, node ∈ cfg -> is_Some (nodes (newAggregator cfg) !! Name node).
Proof.
  destruct (alloc_fold (imap pair cfg)
                       {| config := cfg; nodes := ∅; heap := ∅ |})
    as (Ha & Hu & Hn).
  - intros name p. simpl. by rewrite lookup_empty.
  - intros p st. simpl. by rewrite lookup_empty.
  - split_and!; [exact Ha | exact Hu |].
    intros node Hin. apply Hn. right.
    apply list_elem_of_lookup in Hin as [i Hi].
    exists (i, node). split; [|done].
    by apply (elem_of_lookup_imap_2 pair).
Qed.
End Init.


(** *** The state machine of a host *)

Lemma failed_is_error a node ex now :
  failed ex ->
  exists msg, msg <> ""
              /\ updateNodeStatus a node ex now
                 = updateNodeError a (Name node) msg now.
Proof.
  destruct 1 as [err|err|code body Hcode|err]; simpl.
  - eexists. split; [|reflexivity]. done.
  - eexists. split; [|reflexivity]. done.
  - destruct (Z.eqb_spec code StatusOK); [done|]. simpl.
    eexists. split; [|reflexivity]. done.
  - eexists. split; [|reflexivity]. done.
Qed.

Lemma updateNodeStatus_allocated a node ex now :
  allocated a -> allocated (updateNodeStatus a node ex now).
Proof.
  intros Ha name p. rewrite updateNodeStatus_nodes. intros Hp.
  destruct (Ha name p Hp) as [st Hst].
  assert (forall msg, is_Some (heap (updateNodeError a (Name node) msg now) !! p))
    as Herr.
  { intros msg. rewrite updateNodeError_heap, Hst. by case_decide. }
  destruct ex as [err|err|code [err|info]]; simpl; try apply Herr.
  - destruct (negb (code =? StatusOK)); apply Herr.
  - destruct (Z.eqb_spec code StatusOK) as [->|]; simpl; [|apply Herr].
    pose proof (updateNodeStatus_decoded_heap a node info now p) as Hd.
    simpl in Hd. rewrite Hd, Hst. by case_decide.
Qed.

Lemma updateNodeStatus_wellFormed a node ex now :
  allRecords wellFormed a -> allRecords wellFormed (updateNodeStatus a node ex now).
Proof.
  intros Ha p st' Hp.
  apply updateNodeStatus_heap in Hp
    as [Hp|[(st & info & Hp & ->)|(st & msg & Hp & Hmsg & ->)]].
  - by eapply Ha.
  - right; left. repeat split; simpl; eauto.
  - right; right. by repeat split.
Qed.

Lemma run_invariant a events :
  allocated a -> allRecords wellFormed a ->
  nodes (run a events) = nodes a
  /\ allocated (run a events) /\ allRecords wellFormed (run a events).
Proof.
  revert a. induction events as [|e events IH]; intros a Ha Hw; [done|].
  simpl. destruct (IH (applyEvent a e)) as (Hn & Ha' & Hw').
  - by apply updateNodeStatus_allocated.
  - by apply updateNodeStatus_wellFormed.
  - split_and!; [|done..]. rewrite Hn. apply updateNodeStatus_nodes.
Qed.

(** C1. Every configured host starts with a record in state "unknown",
    without telemetry and without error.  After any history of fetches
    every record of the registry is in one of the three states whole
    (unknown, or online with telemetry and no error, or offline without
    telemetry and with an error), and from the record the host then has,
    a fetch that decodes makes it online with the decoded telemetry and
    the empty error, while a fetch that fails in any of the four ways
    makes it offline with no telemetry and a non-empty error. *)
Theorem host_state_machine
        (cfg : list NodeConfig) (events : list Event)
        (node : NodeConfig) (now : Z) :
  node ∈ cfg ->
  let a0 := newAggregator cfg in
  let a := run a0 events in
  (exists st0, record a0 (Name node) = Some st0 /\ isUnknown st0)
  /\ allRecords wellFormed a
  /\ exists st,
      record a (Name node) = Some st
      /\ (forall info, exists st',
             record (updateNodeStatus a node (Responded StatusOK (Decoded info)) now)
                    (Name node) = Some st'
             /\ Status st' = "online" /\ Data st' = Some info
             /\ Error st' = "" /\ Config st' = Config st)
      /\ (forall ex, failed ex -> exists st',
             record (updateNodeStatus a node ex now) (Name node) = Some st'
             /\ Status st' = "offline" /\ Data st' = None
             /\ Error st' <> "" /\ Config st' = Config st).
Proof.
  intros Hin a0 a.
  destruct (newAggregator_unknown cfg) as (Halloc & Hunknown & Hnames).
  destruct (Hnames node Hin) as [p Hp].
  destruct (Halloc _ _ Hp) as [st0 Hst0].
  assert (allRecords wellFormed a0) as Hwf0.
  { intros q st Hq. left. by eapply Hunknown. }
  destruct (run_invariant a0 events Halloc Hwf0) as (Hnodes & Halloc' & Hwf).
  fold a in Hnodes, Halloc', Hwf.
  assert (nodes a !! Name node = Some p) as Hp' by (by rewrite Hnodes).
  destruct (Halloc' _ _ Hp') as [st Hst].
  split_and!.
  - exists st0. unfold record, a0. rewrite Hp. simpl. split; [done|].
    by eapply Hunknown.
  - exact Hwf.
  - exists st. split_and!.
    + unfold record. by rewrite Hp'.
    + intros info. exists (onlineRecord info now st). split; [|done].
      unfold record. rewrite updateNodeStatus_nodes, Hp'. simpl.
      pose proof (updateNodeStatus_decoded_heap a node info now p) as Hd.
      simpl in Hd. rewrite Hd, Hst. by rewrite decide_True.
    + intros ex Hex.
      destruct (failed_is_error a node ex now Hex) as (msg & Hmsg & ->).
      exists (offlineRecord msg now st). split; [|done].
      unfold record. rewrite updateNodeError_nodes, Hp'. simpl.
      rewrite updateNodeError_heap, Hst. by rewrite decide_True.
Qed.

Lemma host_state_machine_witness :
  nodeA ∈ [nodeA]
  /\ exists st0, record (newAggregator [nodeA]) (Name nodeA) = Some st0
                 /\ isUnknown st0.
Proof.
  assert (nodeA ∈ [nodeA]) as Hin by (apply list_elem_of_here).
  split; [exact Hin|].
  exact (proj1 (host_state_machine
                  [nodeA] [(nodeA, Responded StatusOK (Decoded infoA), 110)]
                  nodeA 120 Hin)).
Defined.


(** *** The reader *)

(** C4. [nodesHandler] copies the pointers, not the records, and
    encodes after releasing the read lock: the encoding reads the store
    as it is by then.  A write that takes the lock between [RUnlock]
    and [Encode] is therefore in the response, although the snapshot
    was taken before it. *)
Theorem nodesHandler_observes_later_write
        (a : Aggregator) (name : string) (p : loc) (st : NodeStatus)
        (msg : string) (now : Z) :
  nodes a !! name = Some p ->
  heap a !! p = Some st ->
  let later := updateNodeError a name msg now in
  p ∈ snapshot a
  /\ st ∈ nodesHandler a a
  /\ offlineRecord msg now st ∈ nodesHandler a later.
Proof.
  intros Hp Hst later.
  assert (p ∈ snapshot a) as Hin.
  { unfold snapshot. apply list_elem_of_fmap. exists (name, p).
    split; [done|]. by apply elem_of_map_to_list. }
  split_and!; [done|..]; unfold nodesHandler, encode; apply list_elem_of_omap;
    exists p; (split; [done|]).
  - done.
  - unfold later. rewrite updateNodeError_heap, Hst. by rewrite decide_True.
Qed.

Lemma nodesHandler_observes_later_write_witness :
  let a0 := newAggregator [nodeA] in
  let a := updateNodeStatus a0 nodeA (Responded StatusOK (Decoded infoA)) 110 in
  let later := updateNodeStatus a nodeA (DoFailed "timeout") 120 in
  nodesHandler a a = [onlineRecord infoA 110 (newStatus nodeA)]
  /\ nodesHandler a later
     = [offlineRecord "Failed to connect: timeout" 120
                      (onlineRecord infoA 110 (newStatus nodeA))]
  /\ offlineRecord "Failed to connect: timeout" 120
                   (onlineRecord infoA 110 (newStatus nodeA))
     ∈ nodesHandler a later.
Proof.
  split; [vm_compute; reflexivity|]. split; [vm_compute; reflexivity|].
  apply (nodesHandler_observes_later_write
           (updateNodeStatus (newAggregator [nodeA]) nodeA
                             (Responded StatusOK (Decoded infoA)) 110)
           "gpu-a" 0%nat (onlineRecord infoA 110 (newStatus nodeA))
           "Failed to connect: timeout" 120).
  - vm_compute. reflexivity.
  - vm_compute. reflexivity.
Defined.

End RegistryFacts.

(** ** The polling loop *)

Module PollerFacts.
Import Registry Poller RegistrySpec PollerSpec.

Lemma barrier_init a : barrier (init a).
Proof. by repeat split. Qed.

Lemma barrier_step s s' : barrier s -> step s s' -> barrier s'.
Proof.
  intros (Hwg & Htick & Htimer) Hstep.
  destruct Hstep as [s node todo Hpc|s Hpc|s before t node after ex now Hrun
                     |s Hpc Hzero|s Hpc]; unfold barrier; simpl.
  - split_and!; [| |done].
    + rewrite length_app. simpl. lia.
    + apply Forall_app. split; [done|]. by repeat constructor.
  - split_and!; done.
  - rewrite Hrun in Hwg, Htick, Htimer.
    apply Forall_app in Htick as [Hbefore Hafter].
    apply Forall_cons in Hafter as [Ht Hafter]. simpl in Ht.
    rewrite decide_True by done. split_and!.
    + rewrite Hwg, !length_app. simpl. lia.
    + by apply Forall_app.
    + intros Hpc. specialize (Htimer Hpc). by destruct before.
  - split_and!; [done..|]. intros _.
    destruct (running s); [done|]. simpl in Hwg. lia.
  - rewrite (Htimer Hpc). by repeat split.
Qed.

(** C7. In every state the loop can reach, the fetches in flight all
    belong to the current tick and are counted by its [WaitGroup]; the
    loop is blocked on the ticker only when none is in flight, and a
    step that starts the next tick is taken only then.  So the fetches of
    two ticks, for the same host or not, are never in flight together. *)
Theorem tick_barrier (a : Aggregator) (s : State) :
  reachable a s ->
  wg s = Z.of_nat (length (running s))
  /\ Forall (fun w => fst w = tick s) (running s)
  /\ (pc s = TimerWait -> running s = [])
  /\ (forall s', step s s' -> tick s' <> tick s ->
                 running s = [] /\ tick s' = S (tick s)
                 /\ pc s' = Launching (config (agg s))).
Proof.
  intros Hreach.
  assert (barrier s) as (Hwg & Htick & Htimer).
  { induction Hreach as [|s s' _ IH Hstep]; [apply barrier_init|].
    by eapply barrier_step. }
  split_and!; [done..|].
  intros s' Hstep Hne.
  destruct Hstep; simpl in *; try done. auto.
Qed.

Lemma tick_barrier_witness :
  let a := newAggregator [nodeA] in
  let launched :=
    {| tick := 0; pc := Launching []; wg := 1;
       running := [(0%nat, nodeA)]; agg := a |} in
  reachable a launched
  /\ wg launched = Z.of_nat (length (running launched))
  /\ Forall (fun w => fst w = tick launched) (running launched).
Proof.
  assert (reachable (newAggregator [nodeA])
            {| tick := 0; pc := Launching []; wg := 1;
               running := [(0%nat, nodeA)];
               agg := newAggregator [nodeA] |}) as Hreach.
  { eapply reach_step; [apply reach_init|].
    apply (step_launch (init (newAggregator [nodeA]))
                       nodeA []).
    vm_compute. reflexivity. }
  split; [exact Hreach|].
  destruct (tick_barrier _ _ Hreach) as (Hwg & Htick & _).
  split; [exact Hwg | exact Htick].
Defined.

End PollerFacts.

(** ** The registry as a map of pointers *)

Module RegistryLaws.
Import Registry RegistrySpec AliasingSpec RegistryFacts.

Lemma aggregator_eq (a b : Aggregator) :
  config a = config b -> nodes a = nodes b -> heap a = heap b -> a = b.
Proof. destruct a, b; simpl; by intros -> -> ->. Qed.

Lemma updateNodeError_config a name msg now :
  config (updateNodeError a name msg now) = config a.
Proof. unfold updateNodeError. by destruct (nodes a !! name). Qed.

Lemma updateNodeStatus_config a node ex now :
  config (updateNodeStatus a node ex now) = config a.
Proof.
  destruct ex as [err|err|code [err|info]]; simpl;
    try apply updateNodeError_config.
  - destruct (negb (code =? StatusOK)); apply updateNodeError_config.
  - destruct (negb (code =? StatusOK)); [apply updateNodeError_config|].
    by destruct (nodes a !! Name node).
Qed.

Lemma updateNodeStatus_written a node ex now p :
  heap (updateNodeStatus a node ex now) !! p
  = if decide (nodes a !! Name node = Some p)
    then written ex now <$> heap a !! p
    else heap a !! p.
Proof.
  destruct ex as [err|err|code [err|info]]; simpl;
    try apply updateNodeError_heap.
  - destruct (code =? StatusOK); apply updateNodeError_heap.
  - destruct (Z.eqb_spec code StatusOK) as [->|Hne]; simpl;
      [|apply updateNodeError_heap].
    apply (updateNodeStatus_decoded_heap a node info now p).
Qed.

Lemma written_Config ex now st : Config (written ex now st) = Config st.
Proof.
  destruct ex as [err|err|code [err|info]]; simpl; try done;
    by destruct (code =? StatusOK).
Qed.

Lemma written_twice ex1 t1 ex2 t2 st :
  written ex2 t2 (written ex1 t1 st) = written ex2 t2 st.
Proof.
  destruct ex2 as [err|err|code [err|info]]; simpl;
    unfold offlineRecord, onlineRecord; rewrite ?written_Config; try done;
    destruct (code =? StatusOK); by rewrite ?written_Config.
Qed.

Lemma run_app a ev1 ev2 : run a (ev1 ++ ev2) = run (run a ev1) ev2.
Proof. apply foldl_app. Qed.

Lemma run_nodes a events : nodes (run a events) = nodes a.
Proof.
  revert a. induction events as [|e events IH]; intros a; [done|].
  simpl. rewrite IH. apply updateNodeStatus_nodes.
Qed.

Lemma run_config a events : config (run a events) = config a.
Proof.
  revert a. induction events as [|e events IH]; intros a; [done|].
  simpl. rewrite IH. apply updateNodeStatus_config.
Qed.

(** *** Allocation gives every name a record of its own *)

Lemma allocate_named cfg k a node :
  below k a -> named cfg a -> node ∈ cfg ->
  below (S k) (allocate cfg a (k, node))
  /\ named cfg (allocate cfg a (k, node)).
Proof.
  intros Hb Hn Hin. split; intros name p; unfold allocate; simpl.
  - destruct (decide (Name node = name)) as [Heq|Hne].
    + subst name. rewrite lookup_insert_eq. intros [= <-]. lia.
    + rewrite lookup_insert_ne by done. intros Hp.
      specialize (Hb _ _ Hp). lia.
  - destruct (decide (Name node = name)) as [Heq|Hne].
    + subst name. rewrite lookup_insert_eq. intros [= <-].
      rewrite lookup_insert_eq. by exists (newStatus node).
    + rewrite lookup_insert_ne by done. intros Hp.
      pose proof (Hb _ _ Hp) as Hlt.
      rewrite lookup_insert_ne by (intros ->; unfold loc in *; lia).
      by apply Hn.
Qed.

Lemma allocate_fold cfg (l : list NodeConfig) :
  forall k a,
    below k a -> named cfg a -> (forall x, x ∈ l -> x ∈ cfg) ->
    named cfg (foldl (allocate cfg) a (imap (fun j x => ((k + j)%nat, x)) l))
    /\ forall name,
        is_Some (nodes (foldl (allocate cfg) a
                              (imap (fun j x => ((k + j)%nat, x)) l)) !! name)
        <-> is_Some (nodes a !! name)
            \/ exists node, node ∈ l /\ Name node = name.
Proof.
  induction l as [|x l IH]; intros k a Hb Hn Hl; simpl.
  - split; [done|]. intros name. split; [by left|].
    intros [H|(node & Hin & _)]; [done|]. by apply elem_of_nil in Hin.
  - rewrite Nat.add_0_r.
    rewrite (imap_ext _ (fun j y => ((S k + j)%nat, y)))
      by (intros; simpl; f_equal; lia).
    destruct (allocate_named cfg k a x Hb Hn) as [Hb' Hn'];
      [apply Hl, list_elem_of_here|].
    destruct (IH (S k) _ Hb' Hn') as [IHn IHd].
    { intros y Hy. apply Hl. by apply list_elem_of_further. }
    split; [exact IHn|]. intros name. rewrite IHd.
    unfold allocate at 1; simpl.
    destruct (decide (Name x = name)) as [Heq|Hne].
    + subst name. rewrite lookup_insert_eq. split; [|by eauto].
      intros _. right. exists x. split; [apply list_elem_of_here|done].
    + rewrite lookup_insert_ne by done. split.
      * intros [H|(node & Hin & Hnm)]; [by left|].
        right. exists node. split; [by apply list_elem_of_further|done].
      * intros [H|(node & Hin & Hnm)]; [by left|].
        apply elem_of_cons in Hin as [->|Hin]; [done|].
        right. by exists node.
Qed.

Lemma newAggregator_named cfg :
  named cfg (newAggregator cfg)
  /\ forall name,
      is_Some (nodes (newAggregator cfg) !! name)
      <-> exists node, node ∈ cfg /\ Name node = name.
Proof.
  destruct (allocate_fold cfg cfg 0 {| config := cfg; nodes := ∅; heap := ∅ |})
    as [Hn Hd].
  - intros name p. simpl. by rewrite lookup_empty.
  - intros name p. simpl. by rewrite lookup_empty.
  - done.
  - split; [exact Hn|]. intros name.
    change (newAggregator cfg)
      with (foldl (allocate cfg) {| config := cfg; nodes := ∅; heap := ∅ |}
                  (imap (fun j x => ((0 + j)%nat, x)) cfg)).
    rewrite Hd. simpl. rewrite lookup_empty. split.
    + intros [[? [=]]|H]; done.
    + by right.
Qed.

Lemma updateNodeStatus_named cfg a node ex now :
  named cfg a -> named cfg (updateNodeStatus a node ex now).
Proof.
  intros Hn name p. rewrite updateNodeStatus_nodes. intros Hp.
  destruct (Hn _ _ Hp) as (st & Hst & Hname & Hin).
  rewrite updateNodeStatus_written, Hst. case_decide; [|by exists st].
  exists (written ex now st). by rewrite written_Config.
Qed.

Lemma run_named cfg a events : named cfg a -> named cfg (run a events).
Proof.
  revert a. induction events as [|e events IH]; intros a Ha; [done|].
  simpl. apply IH. by apply updateNodeStatus_named.
Qed.

Lemma history_named cfg events : named cfg (run (newAggregator cfg) events).
Proof. apply run_named, newAggregator_named. Qed.

Lemma named_allocated cfg a : named cfg a -> allocated a.
Proof. intros Hn name p Hp. destruct (Hn _ _ Hp) as (st & -> & _). eauto. Qed.

Lemma named_inj cfg a n1 n2 p :
  named cfg a -> nodes a !! n1 = Some p -> nodes a !! n2 = Some p -> n1 = n2.
Proof.
  intros Hn H1 H2.
  destruct (Hn _ _ H1) as (st1 & Hst1 & <- & _).
  destruct (Hn _ _ H2) as (st2 & Hst2 & <- & _). congruence.
Qed.

(** *** Laws of the writer *)

(** X1. A fetch that resolves for a host the registry has no entry for
    changes nothing: the writer finds no pointer and returns. *)
Theorem unknown_host_ignored (a : Aggregator) (node : NodeConfig)
        (ex : Exchange) (now : Z) :
  nodes a !! Name node = None ->
  updateNodeStatus a node ex now = a.
Proof.
  intros Hnone.
  assert (forall msg, updateNodeError a (Name node) msg now = a) as Herr.
  { intros msg. unfold updateNodeError. by rewrite Hnone. }
  destruct ex as [err|err|code [err|info]]; simpl; try apply Herr.
  - destruct (negb (code =? StatusOK)); apply Herr.
  - destruct (negb (code =? StatusOK)); [apply Herr|]. by rewrite Hnone.
Qed.

Lemma unknown_host_ignored_witness :
  updateNodeStatus (newAggregator [nodeA]) nodeB (DoFailed "timeout") 120
  = newAggregator [nodeA].
Proof.
  apply (unknown_host_ignored (newAggregator [nodeA]) nodeB
                              (DoFailed "timeout") 120).
  vm_compute. reflexivity.
Defined.

Lemma history_nodes (cfg : list NodeConfig) (events : list Event)
      (name : string) :
  is_Some (nodes (run (newAggregator cfg) events) !! name)
  <-> exists node, node ∈ cfg /\ Name node = name.
Proof. rewrite run_nodes. apply newAggregator_named. Qed.

(** X2. The set of hosts is fixed at start-up: after any history of
    fetches a name has a record exactly when the configuration has a
    node of that name; no fetch adds a host or removes one. *)
Theorem host_set_is_configuration (cfg : list NodeConfig)
        (events : list Event) (name : string) :
  is_Some (record (run (newAggregator cfg) events) name)
  <-> exists node, node ∈ cfg /\ Name node = name.
Proof.
  rewrite <- (history_nodes cfg events name). unfold record. split.
  - intros [st Hst].
    destruct (nodes (run (newAggregator cfg) events) !! name); [eauto|done].
  - intros [p Hp]. rewrite Hp. simpl.
    destruct (history_named cfg events name p Hp) as (st & -> & _). eauto.
Qed.

(** X3. The write of a fetch touches the record of its own host only:
    the record of every other name is what it was. *)
Theorem other_hosts_untouched (cfg : list NodeConfig) (events : list Event)
        (node : NodeConfig) (ex : Exchange) (now : Z) (name : string) :
  Name node <> name ->
  record (updateNodeStatus (run (newAggregator cfg) events) node ex now) name
  = record (run (newAggregator cfg) events) name.
Proof.
  intros Hne. unfold record. rewrite updateNodeStatus_nodes.
  destruct (nodes (run (newAggregator cfg) events) !! name) as [p|] eqn:Hp;
    [|done].
  simpl. rewrite updateNodeStatus_written. case_decide as Hq; [|done].
  destruct Hne. by eapply named_inj; [apply history_named|..].
Qed.

Lemma other_hosts_untouched_witness :
  record (updateNodeStatus (run (newAggregator [nodeA; nodeB]) [])
                           nodeA (DoFailed "timeout") 120) "gpu-b"
  = record (run (newAggregator [nodeA; nodeB]) []) "gpu-b".
Proof.
  apply (other_hosts_untouched [nodeA; nodeB] [] nodeA (DoFailed "timeout")
                               120 "gpu-b").
  vm_compute. discriminate.
Defined.

(** X4. The last write wins: of two fetches of one host that resolve
    one after the other, the registry keeps nothing of the first. *)
Theorem last_write_wins (a : Aggregator) (node : NodeConfig)
        (ex1 ex2 : Exchange) (t1 t2 : Z) :
  updateNodeStatus (updateNodeStatus a node ex1 t1) node ex2 t2
  = updateNodeStatus a node ex2 t2.
Proof.
  apply aggregator_eq.
  - by rewrite !updateNodeStatus_config.
  - by rewrite !updateNodeStatus_nodes.
  - apply map_eq. intros p.
    rewrite !updateNodeStatus_written, updateNodeStatus_nodes.
    case_decide; [|done].
    destruct (heap a !! p) as [st|]; [|done]. simpl.
    by rewrite written_twice.
Qed.

Lemma written_LastUpdate ex now st : LastUpdate (written ex now st) = now.
Proof.
  destruct ex as [err|err|code [err|info]]; simpl; try done;
    by destruct (code =? StatusOK).
Qed.

Lemma written_sameButTime ex t t' st :
  sameButTime (written ex t st) (written ex t' st).
Proof.
  destruct ex as [err|err|code [err|info]]; simpl; try done;
    by destruct (code =? StatusOK).
Qed.

Lemma record_after cfg a node ex now name :
  named cfg a ->
  record (updateNodeStatus a node ex now) name
  = if decide (Name node = name) then written ex now <$> record a name
    else record a name.
Proof.
  intros Hn. unfold record. rewrite updateNodeStatus_nodes.
  destruct (nodes a !! name) as [p|] eqn:Hp; simpl; [|by case_decide].
  rewrite updateNodeStatus_written.
  destruct (decide (Name node = name)) as [<-|Hne].
  - by rewrite decide_True.
  - rewrite decide_False; [done|]. intros Hq. destruct Hne.
    by eapply named_inj.
Qed.

(** X5. When the fetches of two different hosts resolve together, the
    order in which their goroutines take the lock shows in [LastUpdate]
    and nowhere else: each reads the clock inside the critical section,
    so the first to lock has the time read first; status, telemetry, error
    and configuration of every record are the same in both orders, and
    the records of the other hosts are untouched. *)
Theorem lock_order_shows_in_LastUpdate_only
        (cfg : list NodeConfig) (events : list Event)
        (n1 n2 : NodeConfig) (ex1 ex2 : Exchange) (t t' : Z) (name : string) :
  Name n1 <> Name n2 ->
  option_Forall2 sameButTime
    (record (updateNodeStatus
               (updateNodeStatus (run (newAggregator cfg) events) n1 ex1 t)
               n2 ex2 t') name)
    (record (updateNodeStatus
               (updateNodeStatus (run (newAggregator cfg) events) n2 ex2 t)
               n1 ex1 t') name)
  /\ (name <> Name n1 -> name <> Name n2 ->
      record (updateNodeStatus
                (updateNodeStatus (run (newAggregator cfg) events) n1 ex1 t)
                n2 ex2 t') name
      = record (updateNodeStatus
                  (updateNodeStatus (run (newAggregator cfg) events) n2 ex2 t)
                  n1 ex1 t') name)
  /\ (n1 ∈ cfg ->
      LastUpdate
        <$> record (updateNodeStatus
                      (updateNodeStatus (run (newAggregator cfg) events)
                                        n1 ex1 t) n2 ex2 t') (Name n1)
      = Some t
      /\ LastUpdate
           <$> record (updateNodeStatus
                         (updateNodeStatus (run (newAggregator cfg) events)
                                           n2 ex2 t) n1 ex1 t') (Name n1)
         = Some t').
Proof.
  intros Hne.
  pose proof (history_named cfg events) as Hn.
  pose proof (updateNodeStatus_named cfg _ n1 ex1 t Hn) as Hn1.
  pose proof (updateNodeStatus_named cfg _ n2 ex2 t Hn) as Hn2.
  assert (forall name',
             record (updateNodeStatus
                       (updateNodeStatus (run (newAggregator cfg) events)
                                         n1 ex1 t) n2 ex2 t') name'
             = if decide (Name n2 = name')
               then written ex2 t' <$> record (run (newAggregator cfg) events) name'
               else if decide (Name n1 = name')
                    then written ex1 t <$> record (run (newAggregator cfg) events) name'
                    else record (run (newAggregator cfg) events) name') as H12.
  { intros name'. rewrite (record_after cfg) by done.
    rewrite (record_after cfg) by done.
    repeat case_decide; try done. congruence. }
  assert (forall name',
             record (updateNodeStatus
                       (updateNodeStatus (run (newAggregator cfg) events)
                                         n2 ex2 t) n1 ex1 t') name'
             = if decide (Name n2 = name')
               then written ex2 t <$> record (run (newAggregator cfg) events) name'
               else if decide (Name n1 = name')
                    then written ex1 t' <$> record (run (newAggregator cfg) events) name'
                    else record (run (newAggregator cfg) events) name') as H21.
  { intros name'. rewrite (record_after cfg) by done.
    rewrite (record_after cfg) by done.
    repeat case_decide; try done. congruence. }
  split_and!.
  - rewrite H12, H21.
    destruct (record (run (newAggregator cfg) events) name) as [st|];
      repeat case_decide; simpl; constructor;
      first [apply written_sameButTime | by repeat split].
  - intros H1 H2. rewrite H12, H21. by rewrite !decide_False.
  - intros Hin. rewrite H12, H21.
    destruct (proj2 (history_nodes cfg events (Name n1))) as [p Hp];
      [by exists n1|].
    destruct (Hn _ _ Hp) as (st & Hst & _).
    assert (record (run (newAggregator cfg) events) (Name n1) = Some st) as ->.
    { unfold record. by rewrite Hp. }
    repeat case_decide; try congruence. simpl.
    by rewrite !written_LastUpdate.
Qed.

Lemma lock_order_shows_in_LastUpdate_only_witness :
  LastUpdate
    <$> record (updateNodeStatus
                  (updateNodeStatus (run (newAggregator [nodeA; nodeB]) [])
                                    nodeA (DoFailed "timeout") 120)
                  nodeB (Responded 200 (Decoded infoA)) 121) (Name nodeA)
  = Some 120
  /\ LastUpdate
       <$> record (updateNodeStatus
                     (updateNodeStatus (run (newAggregator [nodeA; nodeB]) [])
                                       nodeB (Responded 200 (Decoded infoA)) 120)
                     nodeA (DoFailed "timeout") 121) (Name nodeA)
     = Some 121.
Proof.
  apply (lock_order_shows_in_LastUpdate_only
           [nodeA; nodeB] [] nodeA nodeB (DoFailed "timeout")
           (Responded 200 (Decoded infoA)) 120 121 "gpu-a").
  - vm_compute. discriminate.
  - apply list_elem_of_here.
Defined.


(** *** What a record carries *)

Lemma allocate_fold_keeps cfg (l : list NodeConfig) name p st :
  forall k a,
    (p < k)%nat -> nodes a !! name = Some p -> heap a !! p = Some st ->
    Forall (fun x => Name x <> name) l ->
    nodes (foldl (allocate cfg) a (imap (fun j x => ((k + j)%nat, x)) l))
      !! name = Some p
    /\ heap (foldl (allocate cfg) a (imap (fun j x => ((k + j)%nat, x)) l))
         !! p = Some st.
Proof.
  induction l as [|x l IH]; intros k a Hlt Hp Hst Hl; simpl; [done|].
  apply Forall_cons in Hl as [Hx Hl].
  rewrite Nat.add_0_r.
  rewrite (imap_ext _ (fun j y => ((S k + j)%nat, y)))
    by (intros; simpl; f_equal; lia).
  apply IH; [lia| | |done]; unfold allocate; simpl.
  - by rewrite lookup_insert_ne.
  - rewrite lookup_insert_ne; [done|]. intros ->. lia.
Qed.

Lemma newAggregator_last_entry before node after :
  Forall (fun x => Name x <> Name node) after ->
  exists p, nodes (newAggregator (before ++ node :: after)) !! Name node = Some p
            /\ heap (newAggregator (before ++ node :: after)) !! p
               = Some (newStatus node).
Proof.
  intros Hafter. exists (length before). unfold newAggregator.
  rewrite imap_app, foldl_app. simpl.
  rewrite (imap_ext _ (fun j y => ((S (length before) + j)%nat, y)) after)
    by (intros; simpl; f_equal; lia).
  apply allocate_fold_keeps; [lia| | |done]; unfold allocate; simpl.
  - rewrite Nat.add_0_r. apply lookup_insert_eq.
  - rewrite Nat.add_0_r. apply lookup_insert_eq.
Qed.

Lemma run_keeps_Config a events p st :
  heap a !! p = Some st ->
  exists st', heap (run a events) !! p = Some st' /\ Config st' = Config st.
Proof.
  revert a st. induction events as [|e events IH]; intros a st Hst; simpl.
  - by exists st.
  - destruct (IH (applyEvent a e) (if decide (nodes a !! Name e.1.1 = Some p)
                                   then written e.1.2 e.2 st else st))
      as (st' & Hst' & Hc).
    + unfold applyEvent. rewrite updateNodeStatus_written, Hst.
      by case_decide.
    + exists st'. split; [done|]. rewrite Hc.
      case_decide; [apply written_Config|done].
Qed.

(** X6. The record of a host carries its entry of the configuration
    for good: no fetch changes it.  Of two entries with one name, it is
    the last: the map keeps one pointer for each name. *)
Theorem record_carries_last_entry
        (before after : list NodeConfig) (node : NodeConfig)
        (events : list Event) :
  Forall (fun x => Name x <> Name node) after ->
  exists st,
    record (run (newAggregator (before ++ node :: after)) events) (Name node)
    = Some st
    /\ Config st = node.
Proof.
  intros Hafter.
  destruct (newAggregator_last_entry before node after Hafter)
    as (p & Hp & Hst).
  destruct (run_keeps_Config _ events p _ Hst) as (st' & Hst' & Hc).
  exists st'. split; [|done].
  unfold record. by rewrite run_nodes, Hp.
Qed.

Lemma record_carries_last_entry_witness :
  exists st,
    record (run (newAggregator
                   ([{| Name := "gpu-a"; Host := "10.0.0.9"; Port := 8081;
                        Alias := "old" |}] ++ nodeA :: [nodeB]))
                [(nodeA, DoFailed "timeout", 120)]) (Name nodeA)
    = Some st
    /\ Config st = nodeA.
Proof.
  apply (record_carries_last_entry
           [{| Name := "gpu-a"; Host := "10.0.0.9"; Port := 8081;
               Alias := "old" |}] [nodeB] nodeA
           [(nodeA, DoFailed "timeout", 120)]).
  repeat constructor. vm_compute. discriminate.
Defined.

End RegistryLaws.

(** ** The facade *)

Module FacadeFacts.
Import GoStrings GoStringsFacts Registry RegistrySpec AliasingSpec Facade.
Import RegistryFacts RegistryLaws.

Lemma sliceFrom_prefix (name : string) :
  sliceFrom (String.length "/api/nodes/") ("/api/nodes/" +:+ name) = Some name.
Proof.
  unfold sliceFrom. rewrite length_append.
  destruct (Nat.ltb_spec (String.length "/api/nodes/" + String.length name)
                         (String.length "/api/nodes/")) as [Hlt|_]; [lia|].
  f_equal.
  replace (String.length "/api/nodes/" + String.length name
           - String.length "/api/nodes/")%nat
    with (String.length name) by lia.
  rewrite <- (Nat.add_0_r (String.length "/api/nodes/")) at 1.
  rewrite substring_skip. apply substring_all.
Qed.

(** X8. [nodeHandler] answers 404 "Node not found" for every name
    that no node of the configuration has, after any history of
    fetches; it never creates an entry. *)
Theorem nodeHandler_unconfigured
        (cfg : list NodeConfig) (before between : list Event) (name : string) :
  (forall node, node ∈ cfg -> Name node <> name) ->
  nodeHandler (run (newAggregator cfg) before)
              (run (run (newAggregator cfg) before) between)
              ("/api/nodes/" +:+ name)
  = StatusNotFound "Node not found".
Proof.
  intros Hnone. unfold nodeHandler. rewrite sliceFrom_prefix.
  destruct (nodes (run (newAggregator cfg) before) !! name) as [p|] eqn:Hp;
    [|done].
  destruct (proj1 (history_nodes cfg before name))
    as (node & Hin & Hname); [by rewrite Hp|].
  by destruct (Hnone node Hin).
Qed.

Lemma nodeHandler_unconfigured_witness :
  nodeHandler (run (newAggregator [nodeA]) [])
              (run (run (newAggregator [nodeA]) []) [])
              ("/api/nodes/" +:+ "gpu-z")
  = StatusNotFound "Node not found".
Proof.
  apply (nodeHandler_unconfigured [nodeA] [] [] "gpu-z").
  intros node Hin. apply list_elem_of_singleton in Hin as ->.
  vm_compute. discriminate.
Defined.

End FacadeFacts.

(** ** The schedule of the polling loop *)

Module PollerLaws.
Import Registry Poller RegistrySpec AliasingSpec PollerSpec ScheduleSpec.
Import RegistryFacts RegistryLaws PollerFacts.

Lemma reachable_barrier a s : reachable a s -> barrier s.
Proof.
  induction 1 as [|s s' _ IH Hstep]; [apply barrier_init|].
  by eapply barrier_step.
Qed.

Lemma scheduled_init a : scheduled a (init a).
Proof. split; [done|]. simpl. by exists []. Qed.

Lemma scheduled_step a s s' :
  barrier s -> scheduled a s -> step s s' -> scheduled a s'.
Proof.
  intros (_ & _ & Htimer) [Hcfg Hpc] Hstep.
  destruct Hstep as [s node todo Hl|s Hl|s before t node after ex now Hrun
                     |s Hw Hzero|s Ht]; unfold scheduled, inFlight in *; simpl.
  - rewrite Hl in Hpc. destruct Hpc as (launched & Hsplit & Hsub).
    split; [done|]. exists (launched ++ [node]). split.
    + by rewrite <- app_assoc.
    + rewrite fmap_app. by apply submseteq_app.
  - rewrite Hl in Hpc. destruct Hpc as (launched & Hsplit & Hsub).
    split; [done|]. by rewrite Hsplit, app_nil_r.
  - rewrite updateNodeStatus_config. split; [done|].
    assert ((before ++ after).*2 ⊆+ (running s).*2) as Hless.
    { rewrite Hrun, !fmap_app, fmap_cons.
      apply submseteq_app; [done|]. by apply submseteq_cons. }
    destruct (pc s) as [todo| |].
    + destruct Hpc as (launched & Hsplit & Hsub).
      exists launched. split; [done|]. by etrans.
    + by etrans.
    + by etrans.
  - rewrite Hw in Hpc. done.
  - split; [done|]. exists []. split; [by rewrite Hcfg|].
    by rewrite (Htimer Ht).
Qed.

Lemma reachable_scheduled a s : reachable a s -> scheduled a s.
Proof.
  induction 1 as [|s s' Hreach IH Hstep]; [apply scheduled_init|].
  eapply scheduled_step; [|done..]. by apply (reachable_barrier a).
Qed.

Lemma scheduled_inFlight a s : scheduled a s -> inFlight s ⊆+ config a.
Proof.
  intros [_ Hpc]. destruct (pc s) as [todo| |]; [|done..].
  destruct Hpc as (launched & -> & Hsub).
  etrans; [done|]. by apply submseteq_inserts_r.
Qed.

(** X10. The loop fetches configured hosts only, and within a tick each
    entry of the configuration at most once: in every state it can
    reach, the fetches in flight are among the entries launched so far
    in this tick, each no more often than it is configured, so that
    never more fetches are in flight than there are entries. *)
Theorem fetches_in_flight_are_configured (a : Aggregator) (s : State) :
  reachable a s ->
  config (agg s) = config a
  /\ inFlight s ⊆+ config a
  /\ (length (running s) <= length (config a))%nat
  /\ forall todo, pc s = Launching todo ->
       exists launched, config a = launched ++ todo
                        /\ inFlight s ⊆+ launched.
Proof.
  intros Hreach. pose proof (reachable_scheduled a s Hreach) as Hs.
  pose proof (scheduled_inFlight a s Hs) as Hsub.
  split_and!.
  - apply Hs.
  - done.
  - apply submseteq_length in Hsub. unfold inFlight in Hsub.
    by rewrite length_fmap in Hsub.
  - intros todo Hpc. destruct Hs as [_ Hs]. by rewrite Hpc in Hs.
Qed.

Lemma fetches_in_flight_are_configured_witness :
  inFlight {| tick := 0; pc := Launching []; wg := 1;
              running := [(0%nat, nodeA)]; agg := newAggregator [nodeA] |}
  ⊆+ config (newAggregator [nodeA]).
Proof.
  apply (fetches_in_flight_are_configured
           (newAggregator [nodeA])
           {| tick := 0; pc := Launching []; wg := 1;
              running := [(0%nat, nodeA)]; agg := newAggregator [nodeA] |}).
  eapply reach_step; [apply reach_init|].
  apply (step_launch (init (newAggregator [nodeA])) nodeA []).
  vm_compute. reflexivity.
Defined.

Lemma allocate_fold_config cfg l a :
  config a = cfg -> config (foldl (allocate cfg) a l) = cfg.
Proof. revert a. induction l as [|x l IH]; intros a Ha; [done|]. by apply IH. Qed.

Lemma newAggregator_config cfg : config (newAggregator cfg) = cfg.
Proof. by apply allocate_fold_config. Qed.

(** X11. The registry the loop maintains is at every moment the result
    of a history of resolved fetches of configured hosts, starting from
    the registry of start-up; so its records are in one of the three
    states whole, and it has the hosts of the configuration and no
    other. *)
Theorem poller_registry_is_a_history (cfg : list NodeConfig) (s : State) :
  reachable (newAggregator cfg) s ->
  exists events,
    agg s = run (newAggregator cfg) events
    /\ Forall (fun e : Event => e.1.1 ∈ cfg) events
    /\ allRecords wellFormed (agg s)
    /\ nodes (agg s) = nodes (newAggregator cfg).
Proof.
  intros Hreach.
  assert (exists events, agg s = run (newAggregator cfg) events
                         /\ Forall (fun e : Event => e.1.1 ∈ cfg) events)
    as (events & Hagg & Hev).
  { induction Hreach as [|s s' Hreach (events & Hagg & Hev) Hstep].
    - by exists [].
    - destruct Hstep as [s node todo Hl|s Hl|s before t node after ex now Hrun
                         |s Hw Hzero|s Ht]; simpl;
        try (by exists events).
      exists (events ++ [(node, ex, now)]). split.
      + by rewrite run_app, <- Hagg.
      + apply Forall_app. split; [done|]. apply Forall_singleton. simpl.
        pose proof (scheduled_inFlight _ _ (reachable_scheduled _ _ Hreach))
          as Hsub.
        rewrite newAggregator_config in Hsub.
        eapply elem_of_submseteq; [|done].
        unfold inFlight. rewrite Hrun, fmap_app, fmap_cons. simpl.
        apply elem_of_app. right. apply list_elem_of_here. }
  exists events. split_and!; [done..| |].
  - rewrite Hagg.
    destruct (newAggregator_unknown cfg) as (Halloc & Hunknown & _).
    apply run_invariant; [done|]. intros q st0 Hq. left. by eapply Hunknown.
  - rewrite Hagg. apply run_nodes.
Qed.

Lemma poller_registry_is_a_history_witness :
  let resolved :=
    {| tick := 0; pc := Launching []; wg := 0; running := [];
       agg := updateNodeStatus (newAggregator [nodeA]) nodeA
                               (DoFailed "timeout") 120 |} in
  reachable (newAggregator [nodeA]) resolved
  /\ record (agg resolved) "gpu-a"
     = Some (offlineRecord "Failed to connect: timeout" 120 (newStatus nodeA))
  /\ exists events,
      agg resolved = run (newAggregator [nodeA]) events
      /\ Forall (fun e : Event => e.1.1 ∈ [nodeA]) events
      /\ allRecords wellFormed (agg resolved)
      /\ nodes (agg resolved) = nodes (newAggregator [nodeA]).
Proof.
  intros resolved.
  assert (reachable (newAggregator [nodeA]) resolved) as Hreach.
  { eapply reach_step.
    - eapply reach_step; [apply reach_init|].
      apply (step_launch (init (newAggregator [nodeA])) nodeA []).
      vm_compute. reflexivity.
    - exact (step_resolve
               {| tick := 0; pc := Launching []; wg := 0 + 1;
                  running := [] ++ [(0%nat, nodeA)];
                  agg := newAggregator [nodeA] |}
               [] 0%nat nodeA [] (DoFailed "timeout") 120 eq_refl). }
  split; [exact Hreach|]. split; [vm_compute; reflexivity|].
  apply (poller_registry_is_a_history [nodeA] resolved Hreach).
Defined.

(** *** The tick comes to its end *)

Lemma drain (n : nat) :
  forall s, length (running s) = n -> barrier s -> pc s = Waiting ->
    exists s', steps s s' /\ pc s' = TimerWait /\ tick s' = tick s
               /\ running s' = [].
Proof.
  induction n as [|n IH]; intros s Hlen Hb Hpc.
  - destruct Hb as (Hwg & _). rewrite Hlen in Hwg.
    eexists. split; [|split_and!].
    + eapply rtc_once. by apply step_joined.
    + done.
    + done.
    + simpl. by apply nil_length_inv.
  - destruct (running s) as [|[t node] rest] eqn:Hrun; [done|].
    set (s1 := {| tick := tick s; pc := pc s;
                  wg := if decide (t = tick s) then wg s - 1 else wg s;
                  running := [] ++ rest;
                  agg := updateNodeStatus (agg s) node (DoFailed "") 0 |}).
    assert (step s s1) as Hstep by (by apply (step_resolve s [] t node rest)).
    injection Hlen as Hlen.
    destruct (IH s1 Hlen (barrier_step _ _ Hb Hstep) Hpc)
      as (s' & Hsteps & Hpc' & Htick & Hnil).
    exists s'. split; [by eapply rtc_l|done].
Qed.

Lemma launch_all (todo : list NodeConfig) :
  forall s, pc s = Launching todo -> barrier s ->
    exists s', steps s s' /\ pc s' = Waiting /\ tick s' = tick s /\ barrier s'.
Proof.
  induction todo as [|node todo IH]; intros s Hpc Hb.
  - eexists. split; [eapply rtc_once; by apply step_wait|].
    split_and!; [done..|]. eapply barrier_step; [done|]. by apply step_wait.
  - pose proof (step_launch s node todo Hpc) as Hstep.
    match type of Hstep with
    | step _ ?s1 => set (s1' := s1) in *
    end.
    destruct (IH s1' eq_refl (barrier_step _ _ Hb Hstep))
      as (s' & Hsteps & Hpc' & Htick & Hb').
    exists s'. split; [by eapply rtc_l|done].
Qed.

(** X12. The loop cannot block inside a tick: from every state it can
    reach, once the fetches in flight resolve, [wg.Wait()] returns and
    the loop is back at the ticker within the same tick, with no fetch
    in flight. *)
Theorem tick_comes_to_its_end (a : Aggregator) (s : State) :
  reachable a s ->
  exists s', steps s s' /\ pc s' = TimerWait /\ tick s' = tick s
             /\ running s' = [].
Proof.
  intros Hreach. pose proof (reachable_barrier a s Hreach) as Hb.
  destruct (pc s) as [todo| |] eqn:Hpc.
  - destruct (launch_all todo s Hpc Hb) as (s1 & Hsteps1 & Hpc1 & Htick1 & Hb1).
    destruct (drain _ s1 eq_refl Hb1 Hpc1) as (s2 & Hsteps2 & Hpc2 & Htick2 & Hnil).
    exists s2. split; [by etrans|]. split_and!; [done| |done]. congruence.
  - by apply (drain _ s eq_refl).
  - exists s. split; [apply rtc_refl|]. split_and!; [done..|].
    by apply Hb.
Qed.

Lemma tick_comes_to_its_end_witness :
  exists s',
    steps (init (newAggregator [nodeA])) s' /\ pc s' = TimerWait
    /\ tick s' = tick (init (newAggregator [nodeA]))
    /\ running s' = [].
Proof.
  apply (tick_comes_to_its_end (newAggregator [nodeA])
                               (init (newAggregator [nodeA]))).
  apply reach_init.
Defined.

End PollerLaws.
(** ** Start-up *)

Module StartupFacts.
Import Startup.

Lemma parsePort_inl (Sscanf_d : string -> Z + string)
      (portStr : string) (port : Z) :
  parsePort Sscanf_d portStr = inl port ->
  portStr <> "" /\ Sscanf_d portStr = inl port /\ 1 <= port <= 65535.
Proof.
  unfold parsePort.
  destruct (String.eqb_spec portStr "") as [->|Hne]; [done|].
  destruct (Sscanf_d portStr) as [p|err]; [|done].
  destruct (Z.leb_spec p 0) as [Hle|Hgt]; simpl; [done|].
  destruct (Z.ltb_spec 65535 p) as [Hbig|Hsmall]; [done|].
  intros [= ->]. split_and!; [done..|lia|lia].
Qed.

(** X13. [parsePort] returns a port exactly when the string is not
    empty, [Sscanf] reads an integer from it, and the integer is between
    1 and 65535; in every other case it returns an error. *)
Theorem parsePort_accepts (Sscanf_d : string -> Z + string)
        (portStr : string) (port : Z) :
  parsePort Sscanf_d portStr = inl port
  <-> portStr <> "" /\ Sscanf_d portStr = inl port /\ 1 <= port <= 65535.
Proof.
  split; [apply parsePort_inl|].
  intros (Hne & Hscan & Hr). unfold parsePort.
  destruct (String.eqb_spec portStr "") as [->|_]; [done|].
  rewrite Hscan.
  destruct (Z.leb_spec port 0) as [Hle|_]; [lia|].
  destruct (Z.ltb_spec 65535 port) as [Hbig|_]; [lia|]. done.
Qed.

(** X14. The aggregator never listens on port 0, and a port given on
    the command line is between 1 and 65535 and replaces the configured
    one, which is then not looked at; the configured port itself is
    taken as it is, and only 0 is replaced, by 8080. *)
Theorem aggregatorPort_chosen (Sscanf_d : string -> Z + string)
        (portOverride : string) (configured port : Z) :
  aggregatorPort Sscanf_d portOverride configured = inl port ->
  port <> 0
  /\ (portOverride <> "" ->
      1 <= port <= 65535
      /\ forall other, aggregatorPort Sscanf_d portOverride other = inl port)
  /\ (portOverride = "" ->
      port = if configured =? 0 then 8080 else configured).
Proof.
  unfold aggregatorPort.
  destruct (String.eqb_spec portOverride "") as [->|Hne]; simpl.
  - destruct (Z.eqb_spec configured 0) as [->|Hnz]; intros [= <-];
      split_and!; done.
  - destruct (parsePort Sscanf_d portOverride) as [p|err] eqn:Hp; [|done].
    intros [= ->]. apply parsePort_inl in Hp as (_ & _ & Hr).
    split_and!; [lia| |done]. intros _. split; [lia|done].
Qed.

Lemma aggregatorPort_chosen_witness :
  9090 <> 0
  /\ ("9090" <> "" ->
      1 <= 9090 <= 65535
      /\ forall other,
          aggregatorPort (fun _ => inl 9090) "9090" other = inl 9090)
  /\ ("9090" = "" -> 9090 = if 8081 =? 0 then 8080 else 8081).
Proof.
  apply (aggregatorPort_chosen (fun _ => inl 9090) "9090" 8081 9090).
  vm_compute. reflexivity.
Defined.

End StartupFacts.

(** ** The collector's other fields *)

Module CollectorLaws.
Import GoStrings Strconv Collector Numerals CollectorSpec.
Import GoStringsFacts Float64Facts NumeralFacts CollectorFacts.

(** *** [ParseUint] on numerals *)

Lemma foldl_digits_mono (ds : list Z) :
  Forall digit ds -> forall a, 0 <= a ->
  a <= foldl (fun a d => a * 10 + d) a ds.
Proof.
  induction 1 as [|d ds Hd _ IH]; intros a Ha; simpl; [lia|].
  unfold digit in Hd. etrans; [|apply IH]; lia.
Qed.

Lemma parseUintLoop_digits (maxVal : Z) (ds : list Z) :
  maxVal < 1844674407370955161 -> Forall digit ds ->
  forall n, 0 <= n <= maxVal ->
  parseUintLoop maxVal n (map (fun d => 48 + d) ds)
  = if foldl (fun a d => a * 10 + d) n ds <=? maxVal
    then (foldl (fun a d => a * 10 + d) n ds, None)
    else (maxVal, Some ErrRange).
Proof.
  intros Hmax. induction 1 as [|d ds Hd Hds IH]; intros n Hn; simpl.
  - destruct (Z.leb_spec n maxVal); [done|lia].
  - destruct (digit_tests d Hd) as (-> & _). simpl.
    destruct (Z.leb_spec 1844674407370955162 n) as [|_]; [lia|].
    unfold digit in Hd.
    replace (48 + d - 48) with d by lia.
    rewrite (Z.mod_small (n * 10 + d))
      by (change (2 ^ 64) with 18446744073709551616; lia).
    destruct (Z.ltb_spec (n * 10 + d) (n * 10)) as [|_]; [lia|]. simpl.
    destruct (Z.ltb_spec maxVal (n * 10 + d)) as [Hbig|Hsmall].
    + pose proof (foldl_digits_mono ds Hds (n * 10 + d)).
      destruct (Z.leb_spec (foldl (fun a d => a * 10 + d) (n * 10 + d) ds)
                           maxVal); [lia|done].
    + apply IH. lia.
Qed.

Lemma ParseUint32_numeral (ds : list Z) :
  ds <> [] -> Forall digit ds ->
  fst (ParseUint (numeral ds) 32) = Z.min (numeralValue ds) (2 ^ 32 - 1).
Proof.
  intros Hne Hds. unfold ParseUint. rewrite bytes_numeral by done.
  destruct ds as [|d ds]; [done|].
  change (fst (parseUintLoop (2 ^ 32 - 1) 0 (map (fun d0 => 48 + d0) (d :: ds)))
          = Z.min (numeralValue (d :: ds)) (2 ^ 32 - 1)).
  rewrite parseUintLoop_digits by (done || lia).
  fold (numeralValue (d :: ds)).
  destruct (Z.leb_spec (numeralValue (d :: ds)) (2 ^ 32 - 1)); simpl; lia.
Qed.

(** *** Numerals and suffixes *)

Lemma numeral_byte (ds : list Z) (b : Z) :
  Forall digit ds -> b ∈ bytes (numeral ds) -> isDigit b = true.
Proof.
  intros Hds. rewrite bytes_numeral by done. intros Hin.
  apply list_elem_of_fmap in Hin as (d & -> & Hd).
  rewrite Forall_forall in Hds. by apply digit_tests, Hds.
Qed.

Lemma HasSuffix_numeral_char (ds : list Z) (c : ascii) :
  Forall digit ds -> isDigit (code c) = false ->
  HasSuffix (numeral ds) (String c "") = false.
Proof.
  intros Hds Hc. destruct (HasSuffix _ _) eqn:E; [|done].
  apply HasSuffix_spec in E as [p Hp].
  assert (isDigit (code c) = true) as Hd; [|congruence].
  apply (numeral_byte ds); [done|]. rewrite Hp, bytes_app.
  apply elem_of_app. right. simpl. apply list_elem_of_here.
Qed.

Lemma HasSuffix_numeral (ds : list Z) (c : ascii) (suffix : string) :
  Forall digit ds -> isDigit (code c) = false ->
  HasSuffix (numeral ds) (suffix +:+ String c "") = false.
Proof.
  intros Hds Hc. induction suffix as [|c' suffix IH].
  - by apply HasSuffix_numeral_char.
  - change (String c' suffix +:+ String c "")
      with (String c' (suffix +:+ String c "")).
    destruct (HasSuffix _ (String c' _)) eqn:E; [|done].
    apply HasSuffix_tail in E. congruence.
Qed.

Lemma HasPrefix_app (s rest sub : string) :
  HasPrefix s sub = true -> HasPrefix (s +:+ rest) sub = true.
Proof.
  revert s. induction sub as [|c sub IH]; intros s.
  { intros _. by destruct (s +:+ rest). }
  destruct s as [|c' s]; [done|].
  change (String c' s +:+ rest) with (String c' (s +:+ rest)). simpl.
  destruct (Ascii.eqb c' c); [apply IH|done].
Qed.

Lemma Contains_app_r (p s sub : string) :
  Contains s sub = true -> Contains (p +:+ s) sub = true.
Proof.
  intros Hs. induction p as [|c p IH]; [done|].
  change (String c p +:+ s) with (String c (p +:+ s)).
  simpl. rewrite IH. apply orb_true_r.
Qed.

Lemma spaceAtEnd_digits (ds : list Z) :
  Forall digit ds -> spaceAtEnd (rev (map (fun d => 48 + d) ds)) = 0%nat.
Proof.
  intros Hds. rewrite <- map_rev.
  assert (Forall digit (rev ds)) as Hrev by (by apply List.Forall_rev).
  destruct (rev ds) as [|d1 [|d2 r]]; [done|..].
  - apply Forall_inv in Hrev. digit_cases d1 Hrev; done.
  - apply Forall_cons in Hrev as [H1 Hrev]. apply Forall_inv in Hrev.
    digit_cases d1 H1; digit_cases d2 Hrev; done.
Qed.

Lemma TrimSpace_bare_numeral (ds : list Z) :
  ds <> [] -> Forall digit ds -> TrimSpace (numeral ds) = numeral ds.
Proof.
  intros Hne Hds. apply TrimSpace_id; rewrite bytes_numeral by done.
  - destruct ds as [|d ds]; [done|]. apply spaceAt_digit.
    by apply Forall_inv in Hds.
  - by apply spaceAtEnd_digits.
Qed.

Lemma numeral_not_word (ds : list Z) (c : ascii) (w : string) :
  ds <> [] -> Forall digit ds -> isDigit (code c) = false ->
  String.eqb (numeral ds) (String c w) = false.
Proof.
  intros Hne Hds Hc. destruct (String.eqb_spec (numeral ds) (String c w)) as [E|]; [|done].
  assert (isDigit (code c) = true) as Hd; [|congruence].
  apply (numeral_byte ds); [done|]. rewrite E. simpl. apply list_elem_of_here.
Qed.

Lemma numeral_not_empty (ds : list Z) :
  ds <> [] -> String.eqb (numeral ds) "" = false.
Proof. by destruct ds. Qed.

Section Fields.
Context `{Target}.

Lemma memory_without_unit_is_zero_aux (value : string) :
  HasSuffix (TrimSpace value) "B" = false ->
  parseMemoryValue value = 0.
Proof.
  intros HB. unfold parseMemoryValue.
  assert (forall c, HasSuffix (TrimSpace value) (String c "iB") = false) as Hunit.
  { intros c. destruct (HasSuffix _ (String c "iB")) eqn:E; [|done].
    apply HasSuffix_tail, HasSuffix_tail in E. congruence. }
  by rewrite (Hunit "M"%char), (Hunit "G"%char), (Hunit "K"%char), HB.
Qed.

(** X15. A temperature written as a whole number of degrees followed
    by " C" is that number, cut at the largest [uint32] (the value
    [ParseUint] returns along with the range error the code drops). *)
Theorem temperature_whole_degrees (ds : list Z) :
  ds <> [] -> Forall digit ds ->
  parseTemperature (numeral ds +:+ " C") = Z.min (numeralValue ds) (2 ^ 32 - 1).
Proof.
  intros Hne Hds. unfold parseTemperature.
  rewrite HasSuffix_app_same, TrimSuffix_app, ParseUint32_numeral by done.
  pose proof (foldl_digits_nonneg ds 0 Hds) as Hpos.
  unfold uint32. apply Z.mod_small. unfold numeralValue. lia.
Qed.

(** X16. The processes of a device are converted one for one and in
    order; each keeps its name, and a pid written as a whole number is
    that number, cut at the largest [uint32]. *)
Theorem processes_one_for_one (gpu : GPU.t) (ds : list Z) (name mem : string) :
  ds <> [] -> Forall digit ds ->
  GPUInfo.Processes (convertGPU gpu)
  = map convertProcess (Processes.ProcessInfo (GPU.Processes gpu))
  /\ map ProcessInfo.Name (GPUInfo.Processes (convertGPU gpu))
     = map Process.ProcessName (Processes.ProcessInfo (GPU.Processes gpu))
  /\ convertProcess (Process.mk (numeral ds) name mem)
     = ProcessInfo.mk (Z.min (numeralValue ds) (2 ^ 32 - 1)) name
                      (parseMemoryValue mem).
Proof.
  intros Hne Hds.
  assert (GPUInfo.Processes (convertGPU gpu)
          = map convertProcess (Processes.ProcessInfo (GPU.Processes gpu)))
    as Hmap by apply fillSlice_map.
  split_and!; [done| |].
  - rewrite Hmap, map_map. done.
  - unfold convertProcess. simpl. rewrite ParseUint32_numeral by done.
    pose proof (foldl_digits_nonneg ds 0 Hds) as Hpos.
    unfold uint32. rewrite Z.mod_small; [done|]. unfold numeralValue. lia.
Qed.

(** X17. A memory value whose unit the code does not know is
    normalised to 0: so is every value that, trimmed, does not end in
    "B", and so is a value in "TiB", whatever its number. *)
Theorem memory_unit_unknown (value num : string) :
  (HasSuffix (TrimSpace value) "B" = false -> parseMemoryValue value = 0)
  /\ (TrimSpace (num +:+ " TiB") = num +:+ " TiB" ->
      parseMemoryValue (num +:+ " TiB") = 0).
Proof.
  split; [apply memory_without_unit_is_zero_aux|].
  intros Htrim. unfold parseMemoryValue. rewrite Htrim.
  rewrite (HasSuffix_app num " TiB" "MiB"), (HasSuffix_app num " TiB" "GiB"),
    (HasSuffix_app num " TiB" "KiB"), (HasSuffix_app num " TiB" "B")
    by (simpl; lia).
  rewrite Contains_app_r by done. done.
Qed.

(** X18. Of the four normalisers only the one of power reads a number
    without unit: a bare whole number is that many watts in milliwatts,
    but 0 bytes, 0 degrees and 0 percent. *)
Theorem bare_number (ds : list Z) :
  ds <> [] -> Forall digit ds -> numeralValue ds * 1000 < 2 ^ 53 ->
  parsePowerValue (numeral ds) = numeralValue ds * 1000
  /\ parseMemoryValue (numeral ds) = 0
  /\ parseTemperature (numeral ds) = 0
  /\ parseUtilization (numeral ds) = S754_zero false.
Proof.
  intros Hne Hds Hv.
  pose proof (foldl_digits_nonneg ds 0 Hds) as Hpos.
  fold (numeralValue ds) in Hpos. split_and!.
  - unfold parsePowerValue. rewrite TrimSpace_bare_numeral by done.
    rewrite (HasSuffix_numeral_char ds "W"), (numeral_not_word ds "N" "/A"),
      numeral_not_empty by done.
    cbn [orb]. rewrite ParseFloat_numeral;
      [|done|done|change (2 ^ 53) with 9007199254740992 in *; lia].
    rewrite fmul_exact_Z
      by (change (2 ^ 53) with 9007199254740992 in *; lia).
    apply uint64_of_Z. change (2 ^ 53) with 9007199254740992 in *. lia.
  - apply memory_without_unit_is_zero_aux.
    rewrite TrimSpace_bare_numeral by done.
    by apply (HasSuffix_numeral_char ds "B").
  - unfold parseTemperature.
    pose proof (HasSuffix_numeral ds "C" " " Hds eq_refl) as Hunit.
    change (" " +:+ "C") with " C" in Hunit. by rewrite Hunit.
  - unfold parseUtilization.
    pose proof (HasSuffix_numeral ds "%" " " Hds eq_refl) as Hunit.
    change (" " +:+ "%") with " %" in Hunit. by rewrite Hunit.
Qed.

End Fields.

Lemma temperature_whole_degrees_witness :
  parseTemperature (numeral [6; 5] +:+ " C")
  = Z.min (numeralValue [6; 5]) (2 ^ 32 - 1).
Proof.
  apply (temperature_whole_degrees [6; 5]); [done|].
  repeat constructor; unfold digit; lia.
Defined.

Lemma processes_one_for_one_witness :
  @convertProcess saturating (Process.mk (numeral [4; 2; 4; 2]) "python" "512 MiB")
  = ProcessInfo.mk (Z.min (numeralValue [4; 2; 4; 2]) (2 ^ 32 - 1)) "python"
                   (@parseMemoryValue saturating "512 MiB").
Proof.
  apply (@processes_one_for_one saturating (gpuWithMemory "1 MiB" "2 MiB")
                                [4; 2; 4; 2] "python" "512 MiB"); [done|].
  repeat constructor; unfold digit; lia.
Defined.

Lemma memory_unit_unknown_witness :
  @parseMemoryValue saturating "N/A" = 0
  /\ @parseMemoryValue saturating ("2" +:+ " TiB") = 0.
Proof.
  destruct (@memory_unit_unknown saturating "N/A" "2") as [Hna Htib].
  split; [apply Hna|apply Htib]; vm_compute; reflexivity.
Defined.

Lemma bare_number_witness :
  @parsePowerValue saturating (numeral [3; 5]) = numeralValue [3; 5] * 1000
  /\ @parseMemoryValue saturating (numeral [3; 5]) = 0
  /\ parseTemperature (numeral [3; 5]) = 0
  /\ parseUtilization (numeral [3; 5]) = S754_zero false.
Proof.
  apply (@bare_number saturating [3; 5]); [done| |vm_compute; reflexivity].
  repeat constructor; unfold digit; lia.
Defined.

End CollectorLaws.

(** ** The ranking handler as a whole *)

Module RankingLaws.
Import GoStrings Strconv Ranking RankingSpec RankingFacts.

Section Laws.
Variable sortLong : list Process -> Result (list Process).
Variable getUsernameFromPid : string -> string.

Lemma rankProcesses_sorted (procs : list Process) :
  (length procs <= insertionOnly)%nat -> Forall fielded procs ->
  rankProcesses sortLong getUsernameFromPid procs
  = Ok (take 2 (byKeyDescending (map (setUsername getUsernameFromPid) procs))).
Proof.
  intros Hlen Hf. unfold rankProcesses.
  rewrite sortSlice_spec; [|by rewrite length_map|by apply setUsername_fielded].
  simpl. destruct (Nat.ltb_spec 2 (length (byKeyDescending
      (map (setUsername getUsernameFromPid) procs)))) as [|Hshort]; [done|].
  by rewrite take_ge.
Qed.

Lemma mapM_Ok {A B : Type} (f : A -> Result B) (l : list A) (out : list B) :
  mapM f l = Ok out -> Forall2 (fun x y => f x = Ok y) l out.
Proof.
  revert out. induction l as [|x l IH]; intros out; simpl.
  - intros [= <-]. constructor.
  - destruct (f x) as [y|msg] eqn:Hx; simpl; [|done].
    destruct (mapM f l) as [ys|msg]; simpl; [|done].
    intros [= <-]. constructor; [done|]. by apply IH.
Qed.

Lemma mapM_Panic {A B : Type} (f : A -> Result B)
      (before : list A) (bad : A) (after : list A) (msg : string) :
  Forall (fun x => exists y, f x = Ok y) before -> f bad = Panic msg ->
  mapM f (before ++ bad :: after) = Panic msg.
Proof.
  intros Hbefore Hbad.
  induction Hbefore as [|x before [y Hx] _ IH]; simpl.
  - by rewrite Hbad.
  - by rewrite Hx, IH.
Qed.

(** X19. A device with at most one process is never handed to the
    comparator: its process list is answered as it is, with the owner
    filled in, whatever [used_memory] holds, an empty string included. *)
Theorem single_process_never_compared (procs : list Process) :
  (length procs <= 1)%nat ->
  rankProcesses sortLong getUsernameFromPid procs
  = Ok (map (setUsername getUsernameFromPid) procs).
Proof.
  intros Hlen. unfold rankProcesses, sortSlice. rewrite length_map.
  destruct (Nat.leb_spec (length procs) insertionOnly) as [_|Hbig];
    [|unfold insertionOnly in Hbig; lia].
  replace (length procs - 1)%nat with 0%nat by lia. simpl.
  rewrite length_map.
  destruct (Nat.ltb_spec 2 (length procs)); [lia|done].
Qed.

(** X20. For a device of up to six processes with readable
    [used_memory], the answer keeps the two processes of largest key:
    kept and dropped together are the processes of the device, the kept
    ones are two (or all, if fewer), none of the dropped has a larger
    key than a kept one, and every kept process has its owner looked up
    from its pid. *)
Theorem top_two_by_key (procs : list Process) :
  (length procs <= insertionOnly)%nat -> Forall fielded procs ->
  exists kept dropped,
    rankProcesses sortLong getUsernameFromPid procs = Ok kept
    /\ kept ++ dropped ≡ₚ map (setUsername getUsernameFromPid) procs
    /\ length kept = Nat.min 2 (length procs)
    /\ (forall p q, p ∈ kept -> q ∈ dropped -> memKey q <= memKey p)
    /\ Forall (fun p => Username p = getUsernameFromPid (Pid p)) kept.
Proof.
  intros Hlen Hf.
  exists (take 2 (byKeyDescending (map (setUsername getUsernameFromPid) procs))),
         (drop 2 (byKeyDescending (map (setUsername getUsernameFromPid) procs))).
  pose proof (byKeyDescending_perm (map (setUsername getUsernameFromPid) procs))
    as Hperm.
  pose proof (byKeyDescending_sorted (map (setUsername getUsernameFromPid) procs))
    as Hsorted.
  split_and!.
  - by apply rankProcesses_sorted.
  - by rewrite take_drop.
  - rewrite length_take, Hperm, length_map. lia.
  - rewrite <- (take_drop 2) in Hsorted.
    apply StronglySorted_app in Hsorted as (Hcross & _ & _).
    intros p q Hp Hq. by apply (Hcross p q).
  - apply Forall_forall. intros p Hp.
    apply elem_of_take in Hp as (i & Hp & _).
    apply list_elem_of_lookup_2 in Hp. rewrite Hperm in Hp.
    apply list_elem_of_fmap in Hp as (p0 & -> & _). done.
Qed.

(** X21. The answer has the devices of the report, one for one and in
    order; of a device only the process list differs, and it holds at
    most two processes, whatever algorithm [sort.Slice] runs on long
    lists. *)
Theorem devices_answered_one_for_one (gpus out : list GPU) :
  gpuInfoHandler sortLong getUsernameFromPid (SmiDecoded gpus) = Json out ->
  length out = length gpus
  /\ map ID out = map ID gpus
  /\ Forall2 (fun g g' =>
                ID g' = ID g /\ ProductName g' = ProductName g
                /\ MemoryTotal g' = MemoryTotal g
                /\ MemoryUsed g' = MemoryUsed g
                /\ Utilization g' = Utilization g
                /\ PowerDraw g' = PowerDraw g
                /\ rankProcesses sortLong getUsernameFromPid (Processes g)
                   = Ok (Processes g')
                /\ (length (Processes g') <= 2)%nat)
             gpus out.
Proof.
  unfold gpuInfoHandler.
  destruct (mapM _ gpus) as [ranked|msg] eqn:Hm; [|done].
  intros [= <-]. apply mapM_Ok in Hm.
  assert (Forall2 (fun g g' =>
                ID g' = ID g /\ ProductName g' = ProductName g
                /\ MemoryTotal g' = MemoryTotal g
                /\ MemoryUsed g' = MemoryUsed g
                /\ Utilization g' = Utilization g
                /\ PowerDraw g' = PowerDraw g
                /\ rankProcesses sortLong getUsernameFromPid (Processes g)
                   = Ok (Processes g')
                /\ (length (Processes g') <= 2)%nat)
             gpus ranked) as Hall.
  { eapply Forall2_impl; [exact Hm|]. intros g g'. unfold rankGPU.
    destruct (rankProcesses _ _ (Processes g)) as [procs|msg] eqn:Hr;
      simpl; [|done].
    intros [= <-]. simpl. split_and!; try done.
    unfold rankProcesses in Hr.
    destruct (sortSlice _ _) as [sorted|msg]; simpl in Hr; [|done].
    injection Hr as <-.
    destruct (Nat.ltb_spec 2 (length sorted)); [|lia].
    rewrite length_take. lia. }
  split_and!; [| |done].
  - symmetry. by eapply Forall2_length.
  - clear Hm. induction Hall as [|g g' gpus' out' (Hid & _) _ IH]; [done|].
    simpl. by rewrite Hid, IH.
Qed.

(** X22. The handler answers all devices or none: when the first
    device whose processes cannot all be read (two to six processes, one
    with an empty or blank [used_memory]) comes after devices that can,
    the request still ends in the run-time panic and no JSON is
    written. *)
Theorem one_unreadable_device_fails_the_response
        (before after : list GPU) (bad : GPU) :
  Forall (fun g => (length (Processes g) <= insertionOnly)%nat
                   /\ Forall fielded (Processes g)) before ->
  (2 <= length (Processes bad) <= insertionOnly)%nat ->
  Exists (fun p => hasField p = false) (Processes bad) ->
  gpuInfoHandler sortLong getUsernameFromPid
                 (SmiDecoded (before ++ bad :: after))
  = Panicked "runtime error: index out of range [0] with length 0".
Proof.
  intros Hbefore Hlen Hbad. unfold gpuInfoHandler.
  rewrite (mapM_Panic _ before bad after (outOfRange 0 0)); [done| |].
  - eapply Forall_impl; [exact Hbefore|]. intros g [Hl Hf]. unfold rankGPU.
    rewrite rankProcesses_sorted by done. simpl. eauto.
  - unfold rankGPU. by rewrite unfielded_process_panics.
Qed.

End Laws.

Lemma single_process_never_compared_witness :
  rankProcesses Ok (fun _ => "root") [processUsing ""]
  = Ok (map (setUsername (fun _ => "root")) [processUsing ""]).
Proof.
  apply (single_process_never_compared Ok (fun _ => "root") [processUsing ""]).
  simpl. lia.
Defined.

Lemma top_two_by_key_witness :
  exists kept dropped,
    rankProcesses Ok (fun _ => "root")
                  (map processUsing ["12 MiB"; "700 MiB"; "30 MiB"]) = Ok kept
    /\ kept ++ dropped
       ≡ₚ map (setUsername (fun _ => "root"))
              (map processUsing ["12 MiB"; "700 MiB"; "30 MiB"])
    /\ length kept
       = Nat.min 2 (length (map processUsing ["12 MiB"; "700 MiB"; "30 MiB"]))
    /\ (forall p q, p ∈ kept -> q ∈ dropped -> memKey q <= memKey p)
    /\ Forall (fun p => Username p = "root") kept.
Proof.
  apply (top_two_by_key Ok (fun _ => "root")
                        (map processUsing ["12 MiB"; "700 MiB"; "30 MiB"])).
  - vm_compute. lia.
  - repeat constructor.
Defined.

Lemma devices_answered_one_for_one_witness :
  let first :=
    {| ID := "00000000:01:00.0"; ProductName := "NVIDIA A100";
       MemoryTotal := "40960 MiB"; MemoryUsed := "747 MiB";
       Utilization := "45 %"; PowerDraw := "250.00 W";
       Processes := map processUsing ["12 MiB"; "700 MiB"; "30 MiB"; "5 MiB"] |} in
  let second :=
    {| ID := "00000000:02:00.0"; ProductName := "NVIDIA A100";
       MemoryTotal := "40960 MiB"; MemoryUsed := "64 MiB";
       Utilization := "3 %"; PowerDraw := "60.00 W";
       Processes := [processUsing "64 MiB"] |} in
  exists out,
    gpuInfoHandler Ok (fun _ => "root") (SmiDecoded [first; second]) = Json out
    /\ map ID out = ["00000000:01:00.0"; "00000000:02:00.0"]
    /\ map (fun g => map UsedMemory (Processes g)) out
       = [["700 MiB"; "30 MiB"]; ["64 MiB"]]
    /\ length out = length [first; second]
    /\ map ID out = map ID [first; second]
    /\ Forall2 (fun g g' =>
                  ID g' = ID g /\ ProductName g' = ProductName g
                  /\ MemoryTotal g' = MemoryTotal g
                  /\ MemoryUsed g' = MemoryUsed g
                  /\ Utilization g' = Utilization g
                  /\ PowerDraw g' = PowerDraw g
                  /\ rankProcesses Ok (fun _ => "root") (Processes g)
                     = Ok (Processes g')
                  /\ (length (Processes g') <= 2)%nat)
               [first; second] out.
Proof.
  intros first second. eexists.
  split; [vm_compute; reflexivity|].
  split; [vm_compute; reflexivity|].
  split; [vm_compute; reflexivity|].
  apply (devices_answered_one_for_one Ok (fun _ => "root") [first; second]).
  vm_compute. reflexivity.
Defined.

Lemma one_unreadable_device_fails_the_response_witness :
  gpuInfoHandler Ok (fun _ => "root")
    (SmiDecoded
       ([{| ID := "00000000:01:00.0"; ProductName := "NVIDIA A100";
            MemoryTotal := "40960 MiB"; MemoryUsed := "512 MiB";
            Utilization := "45 %"; PowerDraw := "250.00 W";
            Processes := [processUsing "512 MiB"] |}]
        ++ {| ID := "00000000:02:00.0"; ProductName := "NVIDIA A100";
              MemoryTotal := "40960 MiB"; MemoryUsed := "0 MiB";
              Utilization := "0 %"; PowerDraw := "50.00 W";
              Processes := [processUsing "512 MiB"; processUsing ""] |}
        :: []))
  = Panicked "runtime error: index out of range [0] with length 0".
Proof.
  apply (one_unreadable_device_fails_the_response Ok (fun _ => "root")).
  - repeat constructor.
  - vm_compute. lia.
  - apply Exists_cons_tl, Exists_cons_hd. vm_compute. reflexivity.
Defined.

End RankingLaws.

(** ** Units written without a blank *)

Module UnitFacts.
Import GoStrings Strconv Collector Numerals CollectorSpec.
Import GoStringsFacts Float64Facts NumeralFacts CollectorFacts CollectorLaws.

(** A numeral followed by a byte that cannot continue a number is a
    syntax error for [ParseFloat]. *)
Lemma ParseFloat_numeral_junk (ds : list Z) (c : ascii) (rest : string) :
  ds <> [] -> Forall digit ds ->
  isDigit (code c) = false -> code c <> 95 -> code c <> 46 ->
  lower (code c) <> 101 -> lower (code c) <> 120 ->
  ParseFloat (numeral ds +:+ String c rest) = (S754_zero false, Some ErrSyntax).
Proof.
  intros Hne Hds Hdig H95 H46 He Hx. unfold ParseFloat.
  rewrite bytes_app, bytes_numeral by done.
  destruct ds as [|d0 ds]; [done|].
  pose proof (Forall_inv Hds) as Hd0.
  cbn [map app]. rewrite special_digit by done.
  assert (readFloat (48 + d0 :: map (fun d => 48 + d) ds ++ bytes (String c rest))
          = None) as ->; [|done].
  unfold readFloat.
  destruct (Z.eqb_spec (48 + d0) 43); [unfold digit in Hd0; lia|].
  destruct (Z.eqb_spec (48 + d0) 45); [unfold digit in Hd0; lia|].
  assert (match (48 + d0 :: map (fun d => 48 + d) ds ++ bytes (String c rest)) with
          | z :: x :: ((_ :: _) as t') =>
              if (z =? 48) && (lower x =? 120) then (true, t')
              else (false, 48 + d0 :: map (fun d => 48 + d) ds
                                   ++ bytes (String c rest))
          | _ => (false, 48 + d0 :: map (fun d => 48 + d) ds
                                ++ bytes (String c rest))
          end = (false, 48 + d0 :: map (fun d => 48 + d) ds
                                ++ bytes (String c rest))) as ->.
  { destruct ds as [|d1 ds]; cbn [map app bytes].
    - destruct (Z.eqb_spec (lower (code c)) 120); [done|].
      rewrite andb_false_r. by destruct (bytes rest).
    - apply Forall_inv_tail, Forall_inv in Hds.
      destruct (digit_tests d1 Hds) as (_ & -> & _).
      destruct (Z.eqb_spec (48 + d1) 120); [unfold digit in Hds; lia|].
      rewrite andb_false_r. by destruct (map _ ds ++ _). }
  change (48 + d0 :: map (fun d => 48 + d) ds ++ bytes (String c rest))
    with (map (fun d => 48 + d) (d0 :: ds) ++ bytes (String c rest)).
  rewrite readMantissa_digits by done.
  cbn [bytes readMantissa mant frac sawdot sawdigits underscores].
  destruct (Z.eqb_spec (code c) 95); [done|].
  destruct (Z.eqb_spec (code c) 46); [done|].
  rewrite Hdig. change (10 =? 16) with false.
  cbn [andb sawdigits negb].
  destruct (Z.eqb_spec (lower (code c)) 101); [done|]. done.
Qed.

Lemma append_inv_tail (a b suffix : string) :
  a +:+ suffix = b +:+ suffix -> bytes a = bytes b.
Proof.
  intros E. apply (f_equal bytes) in E. rewrite !bytes_app in E.
  by apply app_inv_tail in E.
Qed.

(** A unit right after the last digit is not the unit after a blank,
    and not a longer unit. *)
Lemma HasSuffix_numeral_unit (ds : list Z) (c : ascii) (pre unit : string) :
  Forall digit ds -> isDigit (code c) = false ->
  HasSuffix (numeral ds +:+ unit) ((pre +:+ String c "") +:+ unit) = false.
Proof.
  intros Hds Hc. destruct (HasSuffix _ _) eqn:E; [|done].
  apply HasSuffix_spec in E as [p Hp].
  rewrite <- !append_assoc in Hp. apply append_inv_tail in Hp.
  assert (isDigit (code c) = true) as Hd; [|congruence].
  apply (numeral_byte ds); [done|]. rewrite Hp, !bytes_app.
  apply elem_of_app. right. apply list_elem_of_here.
Qed.

Lemma TrimSpace_numeral_letter (ds : list Z) (unit : string) :
  ds <> [] -> Forall digit ds ->
  (forall d l, digit d -> spaceAtEnd (rev (bytes unit) ++ 48 + d :: l) = 0%nat) ->
  TrimSpace (numeral ds +:+ unit) = numeral ds +:+ unit.
Proof.
  intros Hne Hds Hend. apply TrimSpace_id; rewrite bytes_app, bytes_numeral by done.
  - destruct ds as [|d ds]; [done|]. apply spaceAt_digit.
    by apply Forall_inv in Hds.
  - rewrite rev_app_distr, <- map_rev.
    assert (Forall digit (rev ds)) as Hrev by (by apply List.Forall_rev).
    destruct (rev ds) as [|d r] eqn:Hr.
    + apply (f_equal (@length Z)) in Hr. rewrite length_rev in Hr.
      by destruct ds.
    + apply Hend. by apply Forall_inv in Hrev.
Qed.

Ltac ends_in_letter :=
  let d := fresh "d" in let l := fresh "l" in let Hd := fresh "Hd" in
  intros d l Hd; digit_cases d Hd; reflexivity.

Section NoBlank.
Context `{Target}.
Variable ds : list Z.
Hypothesis ds_nonempty : ds <> [].
Hypothesis ds_digits : Forall digit ds.

Lemma parsePowerValue_no_blank : parsePowerValue (numeral ds +:+ "W") = 0.
Proof.
  unfold parsePowerValue.
  rewrite (TrimSpace_numeral_letter ds "W") by (done || ends_in_letter).
  rewrite HasSuffix_app_same.
  unfold TrimSuffix.
  pose proof (HasSuffix_numeral_unit ds " " "" "W" ds_digits eq_refl) as Hblank.
  change (("" +:+ " ") +:+ "W") with " W" in Hblank. rewrite Hblank.
  by rewrite (ParseFloat_numeral_junk ds "W" "").
Qed.

Lemma parseMemoryValue_no_blank (c : ascii) :
  c ∈ ["K"; "M"; "G"]%char ->
  parseMemoryValue (numeral ds +:+ String c "iB") = 0.
Proof.
  intros Hc. unfold parseMemoryValue.
  assert (c = "K" \/ c = "M" \/ c = "G")%char as Hcases.
  { repeat (apply elem_of_cons in Hc as [->|Hc]; [tauto|]).
    by apply elem_of_nil in Hc. }
  assert (forall pre, HasSuffix (numeral ds +:+ String c "iB")
                        (String " " (String pre "iB")) = false) as Hblank.
  { intros pre.
    destruct (HasSuffix _ (String " " (String pre "iB"))) eqn:E; [|done].
    apply HasSuffix_spec in E as [p Hp].
    change (String " " (String pre "iB"))
      with ((" " +:+ String pre "") +:+ "iB") in Hp.
    change (String c "iB") with (String c "" +:+ "iB") in Hp.
    rewrite <- !append_assoc in Hp. apply append_inv_tail in Hp.
    rewrite !bytes_app in Hp. simpl in Hp.
    apply app_inj_tail in Hp as [Hp _].
    assert (isDigit 32 = true) as Hd; [|done].
    apply (numeral_byte ds); [done|]. rewrite Hp.
    apply elem_of_app. right. apply list_elem_of_here. }
  destruct Hcases as [-> | [-> | ->]].
  - rewrite (TrimSpace_numeral_letter ds "KiB") by (done || ends_in_letter).
    rewrite (HasSuffix_app (numeral ds) "KiB" "MiB"),
      (HasSuffix_app (numeral ds) "KiB" "GiB"),
      (HasSuffix_app (numeral ds) "KiB" "KiB") by (simpl; lia).
    closed_suffix_tests. unfold TrimSuffix. rewrite (Hblank "K"%char).
    by rewrite (ParseFloat_numeral_junk ds "K" "iB").
  - rewrite (TrimSpace_numeral_letter ds "MiB") by (done || ends_in_letter).
    rewrite (HasSuffix_app (numeral ds) "MiB" "MiB") by (simpl; lia).
    closed_suffix_tests. unfold TrimSuffix. rewrite (Hblank "M"%char).
    by rewrite (ParseFloat_numeral_junk ds "M" "iB").
  - rewrite (TrimSpace_numeral_letter ds "GiB") by (done || ends_in_letter).
    rewrite (HasSuffix_app (numeral ds) "GiB" "MiB"),
      (HasSuffix_app (numeral ds) "GiB" "GiB") by (simpl; lia).
    closed_suffix_tests. unfold TrimSuffix. rewrite (Hblank "G"%char).
    by rewrite (ParseFloat_numeral_junk ds "G" "iB").
Qed.

Lemma parseMemoryValue_bytes_no_blank :
  numeralValue ds < 2 ^ 53 ->
  parseMemoryValue (numeral ds +:+ "B") = numeralValue ds.
Proof.
  intros Hv. pose proof (foldl_digits_nonneg ds 0 ds_digits) as Hpos.
  fold (numeralValue ds) in Hpos.
  unfold parseMemoryValue.
  rewrite (TrimSpace_numeral_letter ds "B") by (done || ends_in_letter).
  assert (forall c, HasSuffix (numeral ds +:+ "B") (String c "iB") = false)
    as Hunit.
  { intros c. apply (HasSuffix_numeral_unit ds "i" (String c "") "B"); done. }
  rewrite (Hunit "M"%char), (Hunit "G"%char), (Hunit "K"%char).
  rewrite HasSuffix_app_same.
  rewrite Contains_numeral by done.
  change (Contains "B" "iB") with false. cbn [negb andb].
  rewrite TrimSuffix_app, ParseFloat_numeral
    by (done || (change (2 ^ 53) with 9007199254740992 in *; lia)).
  apply uint64_of_Z. change (2 ^ 53) with 9007199254740992 in *. lia.
Qed.

End NoBlank.

(** X24. The blank between number and unit is part of the unit for
    watts and for the binary multiples, and must be absent for bytes: a
    whole number directly followed by "W", "KiB", "MiB" or "GiB" is
    normalised to 0, and one directly followed by "B" to its value. *)
Theorem unit_without_blank `{Target} (ds : list Z) :
  ds <> [] -> Forall digit ds -> numeralValue ds < 2 ^ 53 ->
  parsePowerValue (numeral ds +:+ "W") = 0
  /\ parseMemoryValue (numeral ds +:+ "KiB") = 0
  /\ parseMemoryValue (numeral ds +:+ "MiB") = 0
  /\ parseMemoryValue (numeral ds +:+ "GiB") = 0
  /\ parseMemoryValue (numeral ds +:+ "B") = numeralValue ds.
Proof.
  intros Hne Hds Hv. split_and!.
  - by apply parsePowerValue_no_blank.
  - apply parseMemoryValue_no_blank; [done..|]. apply list_elem_of_here.
  - apply parseMemoryValue_no_blank; [done..|].
    apply list_elem_of_further, list_elem_of_here.
  - apply parseMemoryValue_no_blank; [done..|].
    apply list_elem_of_further, list_elem_of_further, list_elem_of_here.
  - by apply parseMemoryValue_bytes_no_blank.
Qed.

Lemma unit_without_blank_witness :
  @parsePowerValue saturating (numeral [2; 5; 0] +:+ "W") = 0
  /\ @parseMemoryValue saturating (numeral [2; 5; 0] +:+ "KiB") = 0
  /\ @parseMemoryValue saturating (numeral [2; 5; 0] +:+ "MiB") = 0
  /\ @parseMemoryValue saturating (numeral [2; 5; 0] +:+ "GiB") = 0
  /\ @parseMemoryValue saturating (numeral [2; 5; 0] +:+ "B")
     = numeralValue [2; 5; 0].
Proof.
  apply (@unit_without_blank saturating [2; 5; 0]);
    [done| |vm_compute; reflexivity].
  repeat constructor; unfold digit; lia.
Defined.

End UnitFacts.

(** ** [TrimSpace] leaves no white space at either end *)

Module TrimFacts.
Import GoStrings PaddingSpec GoStringsFacts NumeralFacts.

(** Case analysis on a byte, as far as the patterns of [spaceAt] look
    at it. *)
Ltac bits_split p :=
  first [ done
        | destruct p as [p|p|]; [bits_split p | bits_split p | try done] ].

Ltac byte_split b :=
  let p := fresh "p" in
  destruct b as [|p|p]; [try done | bits_split p | try done].

Lemma spaceAt_take (m : nat) (l : list Z) :
  spaceAt l = 0%nat -> spaceAt (take m l) = 0%nat.
Proof.
  destruct l as [|a [|b [|c l]]]; destruct m as [|[|[|m]]]; try done.
  - cbn [take]. byte_split a.
  - cbn [take]. byte_split a.
  - cbn [take]. byte_split a; byte_split b.
Qed.



Lemma trimLeft_spaceAt (fuel : nat) :
  forall l, (length l <= fuel)%nat -> spaceAt (trimLeft fuel l) = 0%nat.
Proof.
  induction fuel as [|fuel IH]; intros l Hlen.
  - destruct l; [done|simpl in Hlen; lia].
  - simpl. destruct (spaceAt l) as [|n] eqn:Hsp; [done|].
    apply IH. rewrite length_drop. lia.
Qed.

Lemma trimRightRev_spaceAtEnd (fuel : nat) :
  forall r, (length r <= fuel)%nat -> spaceAtEnd (trimRightRev fuel r) = 0%nat.
Proof.
  induction fuel as [|fuel IH]; intros r Hlen.
  - destruct r; [done|simpl in Hlen; lia].
  - simpl. destruct (spaceAtEnd r) as [|n] eqn:Hsp; [done|].
    apply IH. rewrite length_drop. lia.
Qed.

Lemma trimLeft_drop (fuel : nat) :
  forall l, exists k, trimLeft fuel l = drop k l.
Proof.
  induction fuel as [|fuel IH]; intros l; [by exists 0%nat|].
  simpl. destruct (spaceAt l) as [|n]; [by exists 0%nat|].
  destruct (IH (drop (S n) l)) as [k ->]. exists (S n + k)%nat.
  apply drop_drop.
Qed.

Lemma trimRightRev_drop (fuel : nat) :
  forall r, exists k, trimRightRev fuel r = drop k r.
Proof.
  induction fuel as [|fuel IH]; intros r; [by exists 0%nat|].
  simpl. destruct (spaceAtEnd r) as [|n]; [by exists 0%nat|].
  destruct (IH (drop (S n) r)) as [k ->]. exists (S n + k)%nat.
  apply drop_drop.
Qed.

Lemma length_bytes (s : string) : length (bytes s) = String.length s.
Proof. induction s as [|c s IH]; simpl; [done|by rewrite IH]. Qed.

Lemma bytes_range (s : string) : Forall (fun b => 0 <= b < 256) (bytes s).
Proof.
  induction s as [|c s IH]; constructor; [|done].
  unfold code. pose proof (N_ascii_bounded c). lia.
Qed.

(** What [TrimSpace] returns neither starts nor ends with a white-space
    rune. *)
Lemma TrimSpace_trimmed (s : string) :
  spaceAt (bytes (TrimSpace s)) = 0%nat
  /\ spaceAtEnd (rev (bytes (TrimSpace s))) = 0%nat.
Proof.
  unfold TrimSpace.
  pose proof (trimLeft_spaceAt (String.length s) (bytes s)) as Hfront.
  rewrite length_bytes in Hfront. specialize (Hfront (le_n _)).
  destruct (trimLeft_drop (String.length s) (bytes s)) as [k Hk].
  assert (Forall (fun b => 0 <= b < 256) (trimLeft (String.length s) (bytes s)))
    as Hrange.
  { rewrite Hk. apply Forall_drop, bytes_range. }
  pose proof (trimRightRev_spaceAtEnd
                (length (trimLeft (String.length s) (bytes s)))
                (rev (trimLeft (String.length s) (bytes s)))) as Hback.
  rewrite length_rev in Hback. specialize (Hback (le_n _)).
  destruct (trimRightRev_drop
              (length (trimLeft (String.length s) (bytes s)))
              (rev (trimLeft (String.length s) (bytes s)))) as [j Hj].
  assert (rev (trimRightRev (length (trimLeft (String.length s) (bytes s)))
                            (rev (trimLeft (String.length s) (bytes s))))
          = take (length (trimLeft (String.length s) (bytes s)) - j)
                 (trimLeft (String.length s) (bytes s))) as Hrev.
  { rewrite Hj, List.skipn_rev. apply rev_involutive. }
  rewrite bytes_of_bytes.
  - split.
    + rewrite Hrev. by apply spaceAt_take.
    + by rewrite rev_involutive.
  - rewrite Hrev. by apply Forall_take.
Qed.

Lemma TrimSpace_idempotent (s : string) : TrimSpace (TrimSpace s) = TrimSpace s.
Proof. apply TrimSpace_id; apply TrimSpace_trimmed. Qed.


(** *** ASCII white space around a trimmed string *)

Ltac blank_cases H :=
  unfold blank in H;
  repeat (apply elem_of_cons in H as [->|H]);
  [..|by apply elem_of_nil in H].

Lemma blank_range (b : Z) : blank b -> 0 <= b < 256.
Proof. intros Hb. blank_cases Hb; lia. Qed.

Lemma spaceAt_blank (b : Z) (l : list Z) : blank b -> spaceAt (b :: l) = 1%nat.
Proof. intros Hb. blank_cases Hb; done. Qed.

Lemma spaceAtEnd_blank (b : Z) (l : list Z) :
  blank b -> spaceAtEnd (b :: l) = 1%nat.
Proof. intros Hb. blank_cases Hb; done. Qed.

Lemma trimLeft_blanks (pre l : list Z) :
  Forall blank pre -> forall fuel, (length pre <= fuel)%nat ->
  trimLeft fuel (pre ++ l) = trimLeft (fuel - length pre) l.
Proof.
  induction 1 as [|b pre Hb _ IH]; intros fuel Hlen.
  - by rewrite Nat.sub_0_r.
  - destruct fuel as [|fuel]; [simpl in Hlen; lia|].
    change (trimLeft (S fuel) ((b :: pre) ++ l))
      with (match spaceAt (b :: pre ++ l) with
            | O => b :: pre ++ l
            | S n => trimLeft fuel (drop (S n) (b :: pre ++ l))
            end).
    rewrite spaceAt_blank by done. simpl in Hlen.
    change (drop 1 (b :: pre ++ l)) with (pre ++ l).
    rewrite IH by lia. done.
Qed.

Lemma trimRightRev_blanks (post r : list Z) :
  Forall blank post -> forall fuel, (length post <= fuel)%nat ->
  trimRightRev fuel (post ++ r) = trimRightRev (fuel - length post) r.
Proof.
  induction 1 as [|b post Hb _ IH]; intros fuel Hlen.
  - by rewrite Nat.sub_0_r.
  - destruct fuel as [|fuel]; [simpl in Hlen; lia|].
    change (trimRightRev (S fuel) ((b :: post) ++ r))
      with (match spaceAtEnd (b :: post ++ r) with
            | O => b :: post ++ r
            | S n => trimRightRev fuel (drop (S n) (b :: post ++ r))
            end).
    rewrite spaceAtEnd_blank by done. simpl in Hlen.
    change (drop 1 (b :: post ++ r)) with (post ++ r).
    rewrite IH by lia. done.
Qed.

Lemma trimLeft_stop (fuel : nat) (l : list Z) :
  spaceAt l = 0%nat -> trimLeft fuel l = l.
Proof. intros Hl. destruct fuel; simpl; [done|by rewrite Hl]. Qed.

Lemma trimRightRev_stop (fuel : nat) (r : list Z) :
  spaceAtEnd r = 0%nat -> trimRightRev fuel r = r.
Proof. intros Hr. destruct fuel; simpl; [done|by rewrite Hr]. Qed.

(** No ASCII white space completes the encoding of a white-space rune
    of several bytes. *)
Lemma spaceAt_app_blanks (l post : list Z) :
  l <> [] -> spaceAt l = 0%nat -> Forall blank post ->
  spaceAt (l ++ post) = 0%nat.
Proof.
  intros Hne Hl Hpost.
  destruct post as [|p1 post]; [by rewrite app_nil_r|].
  apply Forall_cons in Hpost as [Hp1 Hpost].
  destruct l as [|a [|b [|c l]]]; [done|..]; cbn [app]; revert Hl.
  - byte_split a; blank_cases Hp1; done.
  - byte_split a; byte_split b; blank_cases Hp1; done.
  - done.
Qed.

Lemma TrimSpace_padded (pre post : list Z) (s : string) :
  Forall blank pre -> Forall blank post ->
  s <> "" -> spaceAt (bytes s) = 0%nat -> spaceAtEnd (rev (bytes s)) = 0%nat ->
  TrimSpace (padded pre s post) = s.
Proof.
  intros Hpre Hpost Hne Hfront Hback. unfold TrimSpace, padded.
  assert (bytes s <> []) as Hbs by (by destruct s).
  rewrite <- length_bytes, !bytes_app,
    !bytes_of_bytes by (eapply Forall_impl; [done|apply blank_range]).
  rewrite trimLeft_blanks by (done || rewrite !length_app; lia).
  rewrite trimLeft_stop by (by apply spaceAt_app_blanks).
  rewrite rev_app_distr.
  rewrite trimRightRev_blanks;
    [|by apply List.Forall_rev|rewrite length_rev, length_app; lia].
  rewrite trimRightRev_stop by done.
  by rewrite rev_involutive, of_bytes_bytes.
Qed.

End TrimFacts.

(** ** White space around the values of a report *)

Module PaddingFacts.
Import GoStrings Strconv Collector Numerals CollectorSpec PaddingSpec.
Import GoStringsFacts Float64Facts NumeralFacts CollectorFacts CollectorLaws.
Import TrimFacts.

Lemma append_nil_r (s : string) : s +:+ "" = s.
Proof.
  induction s as [|c s IH]; [done|].
  change (String c s +:+ "") with (String c (s +:+ "")). by rewrite IH.
Qed.

Lemma of_bytes_app (l l' : list Z) :
  of_bytes (l ++ l') = of_bytes l +:+ of_bytes l'.
Proof.
  induction l as [|b l IH]; [done|]. cbn [app of_bytes]. rewrite IH. done.
Qed.

Lemma TrimSpace_blanks (l : list Z) :
  Forall blank l -> TrimSpace (of_bytes l) = "".
Proof.
  intros Hl. unfold TrimSpace.
  rewrite <- length_bytes, bytes_of_bytes
    by (eapply Forall_impl; [done|apply blank_range]).
  assert (trimLeft (length l) l = []) as ->; [|done].
  rewrite <- (app_nil_r l) at 2.
  rewrite trimLeft_blanks by done. by rewrite Nat.sub_diag.
Qed.

Lemma HasSuffix_last (s suffix : string) (l l' : list Z) (b c : Z) :
  bytes s = l ++ [b] -> bytes suffix = l' ++ [c] -> b <> c ->
  HasSuffix s suffix = false.
Proof.
  intros Hs Hsuffix Hne. destruct (HasSuffix s suffix) eqn:E; [|done].
  apply HasSuffix_spec in E as [p ->].
  rewrite bytes_app, Hsuffix, app_assoc in Hs.
  apply app_inj_tail in Hs as [_ Hs]. congruence.
Qed.

(** A numeral followed by a unit that ends in a letter is trimmed. *)
Lemma numeral_unit_trimmed (ds : list Z) (unit : string) :
  ds <> [] -> Forall digit ds ->
  (forall l, spaceAtEnd (rev (bytes unit) ++ l) = 0%nat) ->
  numeral ds +:+ unit <> ""
  /\ spaceAt (bytes (numeral ds +:+ unit)) = 0%nat
  /\ spaceAtEnd (rev (bytes (numeral ds +:+ unit))) = 0%nat.
Proof.
  intros Hne Hds Hend. rewrite bytes_app, bytes_numeral by done.
  destruct ds as [|d ds]; [done|]. split_and!.
  - done.
  - cbn [map app]. apply spaceAt_digit. by apply Forall_inv in Hds.
  - rewrite rev_app_distr. apply Hend.
Qed.

Lemma ParseUint_after_blank (b : Z) (l : list Z) (bitSize : Z) :
  blank b -> Forall (fun x => 0 <= x < 256) l ->
  ParseUint (of_bytes (b :: l)) bitSize = (0, Some ErrSyntax).
Proof.
  intros Hb Hl. unfold ParseUint. rewrite bytes_of_bytes.
  - blank_cases Hb; done.
  - constructor; [by apply blank_range|done].
Qed.

Lemma ParseFloat_after_blank (b : Z) (l : list Z) :
  blank b -> Forall (fun x => 0 <= x < 256) l ->
  ParseFloat (of_bytes (b :: l)) = (S754_zero false, Some ErrSyntax).
Proof.
  intros Hb Hl. unfold ParseFloat. rewrite bytes_of_bytes.
  - destruct l as [|x [|y l]]; blank_cases Hb; done.
  - constructor; [by apply blank_range|done].
Qed.

Section Padding.
Context `{Target}.

Lemma parsePowerValue_trim (a b : string) :
  TrimSpace a = TrimSpace b -> parsePowerValue a = parsePowerValue b.
Proof. intros E. unfold parsePowerValue. by rewrite E. Qed.

Lemma parseMemoryValue_trim (a b : string) :
  TrimSpace a = TrimSpace b -> parseMemoryValue a = parseMemoryValue b.
Proof. intros E. unfold parseMemoryValue. by rewrite E. Qed.

Lemma untrimmed_fields_are_zero (ds pre post : list Z) :
  ds <> [] -> Forall digit ds -> Forall blank pre -> Forall blank post ->
  pre <> [] \/ post <> [] ->
  parseTemperature (padded pre (numeral ds +:+ " C") post) = 0
  /\ parseUtilization (padded pre (numeral ds +:+ " %") post)
     = S754_zero false.
Proof.
  intros Hne Hds Hpre Hpost Hpad. unfold padded.
  destruct post as [|b post _] using rev_ind.
  - destruct Hpad as [Hpad|]; [|done].
    destruct pre as [|b pre]; [done|].
    assert (Forall (fun x => 0 <= x < 256) (pre ++ map (fun d => 48 + d) ds))
      as Hrange.
    { apply Forall_app. split.
      - apply Forall_inv_tail in Hpre.
        eapply Forall_impl; [done|apply blank_range].
      - apply Forall_fmap. eapply Forall_impl; [done|].
        unfold digit. simpl. lia. }
    assert (of_bytes (b :: pre) +:+ numeral ds
            = of_bytes (b :: pre ++ map (fun d => 48 + d) ds)) as Hstr.
    { unfold numeral. change (b :: pre ++ map (fun d => 48 + d) ds)
        with ((b :: pre) ++ map (fun d => 48 + d) ds).
      by rewrite of_bytes_app. }
    simpl of_bytes at 2 4. rewrite !append_nil_r, <- !append_assoc.
    unfold parseTemperature, parseUtilization.
    rewrite !HasSuffix_app_same, !TrimSuffix_app, Hstr.
    apply Forall_inv in Hpre.
    rewrite ParseUint_after_blank, ParseFloat_after_blank by done. done.
  - apply Forall_app in Hpost as [_ Hb]. apply Forall_inv in Hb.
    assert (forall unit : string,
              bytes (of_bytes pre +:+ (numeral ds +:+ unit)
                     +:+ of_bytes (post ++ [b]))
              = (bytes (of_bytes pre +:+ (numeral ds +:+ unit))
                 ++ bytes (of_bytes post)) ++ [b]) as Hbytes.
    { intros unit. rewrite of_bytes_app, !bytes_app, <- !app_assoc.
      repeat f_equal. blank_cases Hb; done. }
    unfold parseTemperature, parseUtilization.
    rewrite (HasSuffix_last _ " C" _ [32] b 67 (Hbytes " C") eq_refl)
      by (blank_cases Hb; done).
    rewrite (HasSuffix_last _ " %" _ [32] b 37 (Hbytes " %") eq_refl)
      by (blank_cases Hb; done).
    done.
Qed.

(** X25. Memory and power values are trimmed before they are read,
    temperature and utilisation are not: with ASCII white space before
    or after it, a whole number of watts or MiB is read as without, but
    a temperature or a utilisation becomes 0. *)
Theorem white_space_around_a_value (ds pre post : list Z) :
  ds <> [] -> Forall digit ds -> Forall blank pre -> Forall blank post ->
  numeralValue ds * 1024 * 1024 < 2 ^ 53 ->
  parsePowerValue (padded pre (numeral ds +:+ " W") post)
  = numeralValue ds * 1000
  /\ parseMemoryValue (padded pre (numeral ds +:+ " MiB") post)
     = numeralValue ds * 1024 * 1024
  /\ (pre <> [] \/ post <> [] ->
      parseTemperature (padded pre (numeral ds +:+ " C") post) = 0
      /\ parseUtilization (padded pre (numeral ds +:+ " %") post)
         = S754_zero false).
Proof.
  intros Hne Hds Hpre Hpost Hv.
  pose proof (foldl_digits_nonneg ds 0 Hds) as Hpos.
  fold (numeralValue ds) in Hpos.
  split_and!.
  - destruct (numeral_unit_trimmed ds " W" Hne Hds) as (Hs & Hfront & Hback);
      [done|].
    rewrite (parsePowerValue_trim _ (numeral ds +:+ " W")).
    + apply parsePowerValue_whole_watts; [done..|].
      change (2 ^ 53) with 9007199254740992 in *. lia.
    + rewrite TrimSpace_padded by done. symmetry. by apply TrimSpace_id.
  - destruct (numeral_unit_trimmed ds " MiB" Hne Hds) as (Hs & Hfront & Hback);
      [done|].
    rewrite (parseMemoryValue_trim _ (numeral ds +:+ " MiB")).
    + by apply parseMemoryValue_whole_MiB.
    + rewrite TrimSpace_padded by done. symmetry. by apply TrimSpace_id.
  - by apply untrimmed_fields_are_zero.
Qed.

End Padding.

Lemma white_space_around_a_value_witness :
  @parsePowerValue saturating (padded [32] (numeral [2; 5; 0] +:+ " W") [10])
  = numeralValue [2; 5; 0] * 1000
  /\ @parseMemoryValue saturating
       (padded [32] (numeral [2; 5; 0] +:+ " MiB") [10])
     = numeralValue [2; 5; 0] * 1024 * 1024
  /\ ([32] <> [] \/ [10] <> [] ->
      parseTemperature (padded [32] (numeral [2; 5; 0] +:+ " C") [10]) = 0
      /\ parseUtilization (padded [32] (numeral [2; 5; 0] +:+ " %") [10])
         = S754_zero false).
Proof.
  apply (@white_space_around_a_value saturating [2; 5; 0] [32] [10]).
  - done.
  - repeat constructor; unfold digit; lia.
  - repeat constructor.
  - repeat constructor.
  - vm_compute. reflexivity.
Defined.

(** X26. The owner shown for a process is "N/A" when [ps] fails, and
    otherwise the output of [ps] without the white space around it: it
    neither starts nor ends with a white-space rune, and when [ps]
    prints a name between ASCII white space (the line feed after it,
    say) the owner is that name. *)
Theorem owner_is_trimmed (ps : string -> string + string) (pid : string) :
  spaceAt (bytes (Owner.getUsernameFromPid ps pid)) = 0%nat
  /\ spaceAtEnd (rev (bytes (Owner.getUsernameFromPid ps pid))) = 0%nat
  /\ (forall err, ps pid = inr err -> Owner.getUsernameFromPid ps pid = "N/A")
  /\ (forall pre post name,
        Forall blank pre -> Forall blank post -> TrimSpace name = name ->
        ps pid = inl (padded pre name post) ->
        Owner.getUsernameFromPid ps pid = name).
Proof.
  unfold Owner.getUsernameFromPid. split_and!.
  - destruct (ps pid); [apply TrimSpace_trimmed|done].
  - destruct (ps pid); [apply TrimSpace_trimmed|done].
  - by intros err ->.
  - intros pre post name Hpre Hpost Hname ->.
    destruct (TrimSpace_trimmed name) as [Hfront Hback].
    rewrite Hname in Hfront, Hback.
    destruct (String.eqb_spec name "") as [->|Hne].
    + unfold padded. change ("" +:+ of_bytes post) with (of_bytes post).
      rewrite <- of_bytes_app. apply TrimSpace_blanks. by apply Forall_app.
    + by apply TrimSpace_padded.
Qed.

Lemma owner_is_trimmed_witness :
  Owner.getUsernameFromPid (fun _ => inl (padded [] "root" [10])) "4242"
  = "root".
Proof.
  destruct (owner_is_trimmed (fun _ => inl (padded [] "root" [10])) "4242")
    as (_ & _ & _ & Hname).
  apply (Hname [] [10] "root").
  - constructor.
  - repeat constructor.
  - vm_compute. reflexivity.
  - reflexivity.
Defined.

End PaddingFacts.

(** ** The ranking key of a value *)

Module KeyFacts.
Import GoStrings Strconv Ranking Numerals RankingSpec.
Import GoStringsFacts NumeralFacts RankingFacts CollectorLaws TrimFacts.

Lemma atoiLoop_digits (ds : list Z) :
  Forall digit ds -> forall n,
  atoiLoop n (map (fun d => 48 + d) ds)
  = Some (foldl (fun a d => a * 10 + d) n ds).
Proof.
  induction 1 as [|d ds Hd _ IH]; intros n; [done|]. simpl.
  destruct (digit_tests d Hd) as (-> & _).
  replace (48 + d - 48) with d by lia. apply IH.
Qed.

Lemma Atoi_numeral (ds : list Z) :
  ds <> [] -> Forall digit ds -> (length ds < 19)%nat ->
  Atoi (numeral ds) = (numeralValue ds, None).
Proof.
  intros Hne Hds Hlen. unfold Atoi.
  rewrite bytes_numeral, length_map by done.
  destruct ds as [|d ds]; [done|].
  destruct (Nat.ltb_spec 0 (length (d :: ds))) as [_|]; [|simpl in *; lia].
  destruct (Nat.ltb_spec (length (d :: ds)) 19) as [_|]; [|lia].
  cbn [andb map]. pose proof (Forall_inv Hds) as Hd. unfold digit in Hd.
  destruct (Z.eqb_spec (48 + d) 45); [lia|].
  destruct (Z.eqb_spec (48 + d) 43); [lia|].
  change (48 + d :: map (fun d0 => 48 + d0) ds)
    with (map (fun d0 => 48 + d0) (d :: ds)).
  rewrite atoiLoop_digits by done. done.
Qed.

Lemma fieldsGo_digits (ds : list Z) (tail : list Z) :
  Forall digit ds -> forall fuel cur,
  ds <> [] \/ cur <> [] ->
  fieldsGo (length ds + S fuel) cur (map (fun d => 48 + d) ds ++ 32 :: tail)
  = of_bytes (rev cur ++ map (fun d => 48 + d) ds) :: fieldsGo fuel [] tail.
Proof.
  induction 1 as [|d ds Hd Hds IH]; intros fuel cur Hne.
  - destruct cur as [|c cur]; [by destruct Hne|].
    cbn [length Nat.add map app]. rewrite app_nil_r.
    change (fieldsGo (S fuel) (c :: cur) (32 :: tail))
      with ([of_bytes (rev (c :: cur))] ++ fieldsGo fuel [] tail).
    done.
  - cbn [length Nat.add map app].
    change (fieldsGo (S (length ds + S fuel)) cur
                     (48 + d :: map (fun d0 => 48 + d0) ds ++ 32 :: tail))
      with (let flush := match cur with [] => [] | _ => [of_bytes (rev cur)] end in
            match spaceAt (48 + d :: map (fun d0 => 48 + d0) ds ++ 32 :: tail) with
            | O => fieldsGo (length ds + S fuel) (48 + d :: cur)
                            (map (fun d0 => 48 + d0) ds ++ 32 :: tail)
            | S n => flush ++ fieldsGo (length ds + S fuel) []
                                (drop (S n) (48 + d :: map (fun d0 => 48 + d0) ds
                                                   ++ 32 :: tail))
            end).
    rewrite spaceAt_digit by done. cbv zeta.
    rewrite IH by (by right). cbn [rev]. by rewrite <- !app_assoc.
Qed.

Lemma Fields_numeral (ds : list Z) (tail : string) :
  ds <> [] -> Forall digit ds ->
  exists rest, Fields (numeral ds +:+ String " " tail) = numeral ds :: rest.
Proof.
  intros Hne Hds. unfold Fields.
  rewrite length_append, <- !length_bytes, bytes_app, bytes_numeral by done.
  rewrite length_map. cbn [bytes length].
  replace (S (length ds + S (length (bytes tail))))
    with (length ds + S (S (length (bytes tail))))%nat by lia.
  change (code " ") with 32.
  rewrite fieldsGo_digits by (done || by left).
  by eexists.
Qed.

(** A process that uses [n] of some unit. *)
Lemma memKey_numeral (p : Process) (ds : list Z) (tail : string) :
  ds <> [] -> Forall digit ds -> (length ds < 19)%nat ->
  UsedMemory p = numeral ds +:+ String " " tail ->
  fielded p /\ memKey p = numeralValue ds.
Proof.
  intros Hne Hds Hlen Hmem. unfold fielded, hasField, memKey. rewrite Hmem.
  destruct (Fields_numeral ds tail Hne Hds) as [rest ->].
  by rewrite Atoi_numeral.
Qed.

(** X27. The ranking compares numbers, and nothing else: of two
    processes whose [used_memory] is a whole number (of up to 18
    digits), a blank and any text, the one with the larger number comes
    first, whatever the texts (the units) are. *)
Theorem ranking_compares_the_numbers
        (sortLong : list Process -> Result (list Process))
        (getUsernameFromPid : string -> string)
        (p q : Process) (ds es : list Z) (unit_p unit_q : string) :
  ds <> [] -> Forall digit ds -> (length ds < 19)%nat ->
  es <> [] -> Forall digit es -> (length es < 19)%nat ->
  UsedMemory p = numeral ds +:+ String " " unit_p ->
  UsedMemory q = numeral es +:+ String " " unit_q ->
  numeralValue ds < numeralValue es ->
  memKey p = numeralValue ds /\ memKey q = numeralValue es
  /\ rankProcesses sortLong getUsernameFromPid [p; q]
     = Ok [setUsername getUsernameFromPid q; setUsername getUsernameFromPid p]
  /\ rankProcesses sortLong getUsernameFromPid [q; p]
     = Ok [setUsername getUsernameFromPid q; setUsername getUsernameFromPid p].
Proof.
  intros Hds0 Hds Hdsl Hes0 Hes Hesl Hp Hq Hlt.
  destruct (memKey_numeral p ds unit_p Hds0 Hds Hdsl Hp) as [Hfp Hkp].
  destruct (memKey_numeral q es unit_q Hes0 Hes Hesl Hq) as [Hfq Hkq].
  assert (forall a b, fielded a -> fielded b ->
            rankProcesses sortLong getUsernameFromPid [a; b]
            = Ok (if memKey a <? memKey b
                  then [setUsername getUsernameFromPid b;
                        setUsername getUsernameFromPid a]
                  else [setUsername getUsernameFromPid a;
                        setUsername getUsernameFromPid b])) as Hrank.
  { intros a b Ha Hb. unfold rankProcesses.
    rewrite sortSlice_spec;
      [|simpl; unfold insertionOnly; lia
       |apply setUsername_fielded; by repeat constructor].
    unfold byKeyDescending, insertAll. simpl.
    rewrite !setUsername_key. by destruct (memKey a <? memKey b). }
  split_and!; [done..| |].
  - rewrite Hrank by done.
    destruct (Z.ltb_spec (memKey p) (memKey q)); [done|lia].
  - rewrite Hrank by done.
    destruct (Z.ltb_spec (memKey q) (memKey p)); [lia|done].
Qed.

Lemma ranking_compares_the_numbers_witness :
  memKey (processUsing "500 MiB") = numeralValue [5; 0; 0]
  /\ memKey (processUsing "1000 KiB") = numeralValue [1; 0; 0; 0]
  /\ rankProcesses Ok (fun _ => "root")
       [processUsing "500 MiB"; processUsing "1000 KiB"]
     = Ok [setUsername (fun _ => "root") (processUsing "1000 KiB");
           setUsername (fun _ => "root") (processUsing "500 MiB")]
  /\ rankProcesses Ok (fun _ => "root")
       [processUsing "1000 KiB"; processUsing "500 MiB"]
     = Ok [setUsername (fun _ => "root") (processUsing "1000 KiB");
           setUsername (fun _ => "root") (processUsing "500 MiB")].
Proof.
  apply (ranking_compares_the_numbers
           Ok (fun _ => "root") (processUsing "500 MiB")
           (processUsing "1000 KiB") [5; 0; 0] [1; 0; 0; 0] "MiB" "KiB");
    try done; try (simpl; lia);
    try (repeat constructor; unfold digit; lia).
Defined.

End KeyFacts.

(** ** Fields that cannot be read *)

Module FallbackFacts.
Import GoStrings Strconv Collector Numerals CollectorSpec.
Import GoStringsFacts Float64Facts NumeralFacts CollectorFacts CollectorLaws.




Section NotZero.
Context `{Target}.





End NotZero.




End FallbackFacts.

(** ** The readers without the lock *)

Module UnlockedFacts.
Import GoStrings GoStringsFacts.
Import Registry RegistrySpec AliasingSpec Facade Unlocked UnlockedSpec.
Import RegistryFacts RegistryLaws FacadeFacts.

(** *** The assignments make up the writes *)




Lemma states_first h ss : h ∈ states h ss.
Proof. destruct ss; apply list_elem_of_here. Qed.


(** *** What no assignment changes *)















End UnlockedFacts.

(** ** From the collector to the registry *)

Module ServerFacts.
Import Collector Registry RegistrySpec AliasingSpec Server ServerSpec.
Import CollectorFacts RegistryFacts RegistryLaws.

Lemma record_written a node ex now st :
  record a (Name node) = Some st ->
  record (updateNodeStatus a node ex now) (Name node)
  = Some (written ex now st).
Proof.
  unfold record. rewrite updateNodeStatus_nodes.
  destruct (nodes a !! Name node) as [p|] eqn:Hp; [|done]. simpl.
  intros Hst. rewrite updateNodeStatus_written, Hst.
  by rewrite decide_True.
Qed.

Lemma forallb_fmap {A B : Type} (f : B -> bool) (g : A -> B) (l : list A) :
  forallb f (map g l) = forallb (fun x => f (g x)) l.
Proof. induction l as [|x l IH]; simpl; [done|by rewrite IH]. Qed.

Section EndToEnd.
Context `{Target}.

Lemma gpuInfoHandler_decoded smi os_Hostname t :
  gpuInfoHandler (XmlDecoded smi) os_Hostname t
  = if forallb (fun gpu => finite (parseUtilization
                                     (Util.GPU (GPU.Utilization gpu))))
               (SMIOutput.GPUs smi)
    then OKJson {| NodeName := getHostname os_Hostname; Timestamp := t;
                   GPUs := map convertGPU (SMIOutput.GPUs smi) |}
    else OKText "".
Proof.
  unfold gpuInfoHandler, getGPUInfoFromNvidiaSmi, encodable.
  rewrite fillSlice_map. cbn [GPUs]. by rewrite forallb_fmap.
Qed.

(** X23. What the server answers decides the record the aggregator
    keeps for the host.  When [nvidia-smi] cannot be run or its output
    cannot be decoded, the server answers 500 and the record becomes
    offline with the error "HTTP error: 500": the aggregator does not
    read the body, so the server's own message is lost.  When the report
    decodes and every utilisation in it is a finite number, the server
    answers 200 with one entry for each device, and the record becomes
    online with that telemetry.  When a utilisation is NaN or infinite,
    [Encode] fails, the server answers 200 with an empty body, and the
    record becomes offline with the error of [Decode]. *)
Theorem server_answer_in_registry
        (cfg : list NodeConfig) (events : list Event) (node : NodeConfig)
        (run : SmiRun) (os_Hostname : string + string) (t now : Z)
        (decodeErr : string) :
  node ∈ cfg ->
  exists st,
    record (updateNodeStatus
              (RegistrySpec.run (newAggregator cfg) events) node
              (delivered (gpuInfoHandler run os_Hostname t) decodeErr) now)
           (Name node) = Some st
    /\ match run with
       | XmlDecoded smi =>
           if forallb (fun gpu => finite (parseUtilization
                                            (Util.GPU (GPU.Utilization gpu))))
                      (SMIOutput.GPUs smi)
           then Status st = "online"
                /\ Data st
                   = Some {| NodeName := getHostname os_Hostname;
                             Timestamp := t;
                             GPUs := map convertGPU (SMIOutput.GPUs smi) |}
                /\ Error st = ""
           else Status st = "offline" /\ Data st = None
                /\ Error st = "Failed to parse response: " +:+ decodeErr
       | _ => Status st = "offline" /\ Data st = None
              /\ Error st = "HTTP error: 500"
       end.
Proof.
  intros Hin.
  assert (exists st0, record (RegistrySpec.run (newAggregator cfg) events)
                             (Name node) = Some st0) as [st0 Hst0].
  { destruct (proj2 (history_nodes cfg events (Name node))) as [p Hp];
      [by exists node|].
    destruct (history_named cfg events _ _ Hp) as (st & Hst & _).
    exists st. unfold record. by rewrite Hp. }
  eexists. split; [by apply record_written|].
  destruct run as [err|err|smi]; [done..|].
  rewrite gpuInfoHandler_decoded.
  by destruct (forallb _ (SMIOutput.GPUs smi)).
Qed.

End EndToEnd.

Lemma server_answer_in_registry_witness :
  parseUtilization "NaN %" = S754_nan
  /\ @gpuInfoHandler saturating
       (XmlDecoded (SMIOutput.mk 1 [gpuWithUtilization "NaN %"]))
       (inl "gpu-a") 100
     = OKText ""
  /\ (exists st,
        record (updateNodeStatus
                  (RegistrySpec.run (newAggregator [nodeA]) []) nodeA
                  (delivered
                     (@gpuInfoHandler saturating
                        (XmlDecoded (SMIOutput.mk 1 [gpuWithUtilization "NaN %"]))
                        (inl "gpu-a") 100)
                     "EOF") 110)
               (Name nodeA) = Some st
        /\ Status st = "offline" /\ Data st = None
        /\ Error st = "Failed to parse response: EOF")
  /\ (exists st,
        record (updateNodeStatus
                  (RegistrySpec.run (newAggregator [nodeA]) []) nodeA
                  (delivered
                     (@gpuInfoHandler saturating
                        (XmlDecoded (SMIOutput.mk 1 [gpuWithUtilization "45 %"]))
                        (inl "gpu-a") 100)
                     "EOF") 110)
               (Name nodeA) = Some st
        /\ Status st = "online"
        /\ Data st
           = Some {| NodeName := "gpu-a"; Timestamp := 100;
                     GPUs := map (@convertGPU saturating)
                                 [gpuWithUtilization "45 %"] |}
        /\ Error st = "").
Proof.
  split; [vm_compute; reflexivity|]. split; [vm_compute; reflexivity|]. split.
  - apply (@server_answer_in_registry
             saturating [nodeA] [] nodeA
             (XmlDecoded (SMIOutput.mk 1 [gpuWithUtilization "NaN %"]))
             (inl "gpu-a") 100 110 "EOF").
    apply list_elem_of_here.
  - apply (@server_answer_in_registry
             saturating [nodeA] [] nodeA
             (XmlDecoded (SMIOutput.mk 1 [gpuWithUtilization "45 %"]))
             (inl "gpu-a") 100 110 "EOF").
    apply list_elem_of_here.
Defined.

End ServerFacts.
